(** * Argus: a shallow embedding of the HelpScout conversation downloader

    The development follows the TypeScript sources:
    - [src/utils/markdown.ts]   (Markdown renderer),
    - [src/auth/oauth.ts]       (token store and OAuth manager),
    - [src/api/client.ts]       (API client),
    - [src/commands/conversations.ts] (download orchestrator),
    - [src/commands/setup.ts]   (the checks of the port).

    JavaScript strings are sequences of UTF-16 code units; the regular
    expressions of the program are run by a small backtracking matcher
    that follows the ECMAScript semantics on the fragment the program
    uses (character classes with greedy quantifiers, anchors,
    alternation, single-class capture groups).  Numbers are integers
    or NaN, which is what the doubles of the program are below 2^53;
    the console is not modelled. *)

From Stdlib Require Import ZArith NArith List Bool Lia Ascii String DecimalString.
From Stdlib Require Import DecimalPos DecimalN DecimalZ.
From stdpp Require Import gmap.
Import ListNotations.

Set Warnings "-register-all".
Local Open Scope N_scope.
Local Open Scope list_scope.

(** ** JavaScript strings *)

Module Js.

(** A UTF-16 code unit, and a string. *)
Abbreviation char := N (only parsing).
Abbreviation str := (list N) (only parsing).

(** ASCII literals. *)
Definition lit (s : string) : str :=
  List.map N_of_ascii (list_ascii_of_string s).

(** The double quote, U+0022, and the line feed, U+000A. *)
Definition dquote : str := [34].
Definition nl : str := [10].

Definition eqc (c : char) : char -> bool := fun x => N.eqb x c.
Definition neqc (c : char) : char -> bool := fun x => negb (N.eqb x c).

(** A letter of a pattern under the [i] flag: an ASCII letter matches
    its two ASCII cases only (Canonicalize never maps a code unit above
    127 to one below 128); any other code unit matches itself. *)
Definition ci (c : char) : char -> bool := fun x =>
  if (65 <=? c) && (c <=? 90) then N.eqb x c || N.eqb x (c + 32)
  else if (97 <=? c) && (c <=? 122) then N.eqb x c || N.eqb x (c - 32)
  else N.eqb x c.

(** [\d] *)
Definition isDigit (c : char) : bool := (48 <=? c) && (c <=? 57).

(** [\s], and the code units removed by [String.prototype.trim]:
    WhiteSpace and LineTerminator. *)
Definition isSpace (c : char) : bool :=
  (9 <=? c) && (c <=? 13) || N.eqb c 32 || N.eqb c 160 || N.eqb c 5760
  || (8192 <=? c) && (c <=? 8202) || N.eqb c 8232 || N.eqb c 8233
  || N.eqb c 8239 || N.eqb c 8287 || N.eqb c 12288 || N.eqb c 65279.

Fixpoint dropWhile (p : char -> bool) (s : str) : str :=
  match s with
  | [] => []
  | c :: t => if p c then dropWhile p t else s
  end.

(** [s.trim()] *)
Definition trim (s : str) : str :=
  rev (dropWhile isSpace (rev (dropWhile isSpace s))).

(** [lines.join(sep)] *)
Fixpoint join (sep : str) (l : list str) : str :=
  match l with
  | [] => []
  | [x] => x
  | x :: r => x ++ sep ++ join sep r
  end.

(** [a === b] on strings. *)
Definition streq (a b : str) : bool := bool_decide (a = b).

(** Truthiness of an optional string: [undefined] and the empty string
    are falsy. *)
Definition truthy (o : option str) : bool :=
  match o with
  | Some (_ :: _) => true
  | _ => false
  end.

(** [x !== undefined] *)
Definition defined {A} (o : option A) : bool :=
  match o with
  | Some _ => true
  | None => false
  end.

(** Numbers.  The program computes with integers (identifiers, byte
    counts, epoch milliseconds, lifetimes in seconds), which a double
    holds exactly below 2^53, and with NaN, which arithmetic on a
    missing or invalid operand produces. *)
Inductive num :=
| Int (z : Z)
| NaN.

Definition nadd (a b : num) : num :=
  match a, b with Int x, Int y => Int (x + y) | _, _ => NaN end.
Definition nsub (a b : num) : num :=
  match a, b with Int x, Int y => Int (x - y) | _, _ => NaN end.
Definition nmul (a b : num) : num :=
  match a, b with Int x, Int y => Int (x * y) | _, _ => NaN end.
(** [Math.floor(a / d)] for a positive integer [d]. *)
Definition nfloordiv (a : num) (d : Z) : num :=
  match a with Int x => Int (x / d) | NaN => NaN end.
(** [a % d]: the remainder has the sign of the dividend. *)
Definition nrem (a : num) (d : Z) : num :=
  match a with Int x => Int (Z.rem x d) | NaN => NaN end.
(** [a > 0] and [a !== 1]; a comparison with NaN is false. *)
Definition ngt0 (a : num) : bool :=
  match a with Int x => (0 <? x)%Z | NaN => false end.
Definition nne1 (a : num) : bool :=
  match a with Int x => negb (x =? 1)%Z | NaN => true end.

(** Decimal rendering of a number, as a template literal does it. *)
Definition ofN (n : N) : str := lit (NilZero.string_of_uint (N.to_uint n)).
Definition ofZ (z : Z) : str := lit (NilZero.string_of_int (Z.to_int z)).
Definition ofNat (n : nat) : str := ofN (N.of_nat n).
Definition ofNum (a : num) : str :=
  match a with Int x => ofZ x | NaN => lit "NaN" end.

(** A text of digits, not empty. *)
Definition numeric (s : str) : bool :=
  match s with
  | [] => false
  | _ :: _ => forallb isDigit s
  end.

(** The number that a text of decimal digits denotes. *)
Definition decimalValue (s : str) : option Z :=
  if forallb isDigit s then
    option_map Z.of_uint
      (NilEmpty.uint_of_string (string_of_list_ascii (List.map ascii_of_N s)))
  else None.

End Js.

(** ** Regular expressions *)

Module Regex.
Import Js.

(** One term of a pattern: a character class under a greedy quantifier
    [{lo,hi}] (captured or not), or an assertion. *)
Inductive node :=
| Rep (p : char -> bool) (lo : nat) (hi : option nat)
| Cap (p : char -> bool) (lo : nat) (hi : option nat)
| Bol
| Eol.

(** A pattern is a disjunction of sequences of terms. *)
Definition regex := list (list node).

Definition one (p : char -> bool) : node := Rep p 1 (Some 1%nat).
Definition opt (p : char -> bool) : node := Rep p 0 (Some 1%nat).
Definition star (p : char -> bool) : node := Rep p 0 None.
Definition plus (p : char -> bool) : node := Rep p 1 None.
Definition atLeast (n : nat) (p : char -> bool) : node := Rep p n None.

(** A literal, case-sensitive or under the [i] flag. *)
Definition chars (s : string) : list node := List.map (fun c => one (eqc c)) (lit s).
Definition chars_i (s : string) : list node := List.map (fun c => one (ci c)) (lit s).

(** Length of the longest prefix of [s] in the class, capped by [hi]. *)
Fixpoint run (p : char -> bool) (hi : option nat) (s : str) : nat :=
  match hi, s with
  | Some O, _ => O
  | _, [] => O
  | _, c :: t =>
      if p c then S (run p (match hi with Some (S h) => Some h | _ => None end) t)
      else O
  end.

(** Greedy choice with backtracking: the largest [k] in [lo..n] for
    which the continuation [f] succeeds. *)
Fixpoint backtrack {A} (f : nat -> option A) (lo n : nat) : option (nat * A) :=
  if (n <? lo)%nat then None
  else match f n with
       | Some r => Some (n, r)
       | None => match n with
                 | O => None
                 | S n' => backtrack f lo n'
                 end
       end.

(** Match a sequence of terms at the head of [s]; [bos] tells whether
    [s] is the whole input.  The result is the length of the match and
    the captures, in order. *)
Fixpoint matchSeq (ns : list node) (bos : bool) (s : str) : option (nat * list str) :=
  match ns with
  | [] => Some (O, [])
  | Bol :: r => if bos then matchSeq r bos s else None
  | Eol :: r => match s with [] => matchSeq r bos s | _ :: _ => None end
  | Rep p lo hi :: r =>
      match backtrack (fun k => matchSeq r (bos && Nat.eqb k 0) (skipn k s)) lo (run p hi s) with
      | Some (k, (len, caps)) => Some ((k + len)%nat, caps)
      | None => None
      end
  | Cap p lo hi :: r =>
      match backtrack (fun k => matchSeq r (bos && Nat.eqb k 0) (skipn k s)) lo (run p hi s) with
      | Some (k, (len, caps)) => Some ((k + len)%nat, firstn k s :: caps)
      | None => None
      end
  end.

(** Alternatives are tried left to right. *)
Fixpoint matchAt (re : regex) (bos : bool) (s : str) : option (nat * list str) :=
  match re with
  | [] => None
  | ns :: alts =>
      match matchSeq ns bos s with
      | Some r => Some r
      | None => matchAt alts bos s
      end
  end.

(** [s.match(re)] without the [g] flag: the leftmost match; the result
    is the array [match[0], match[1], ...]. *)
Fixpoint searchFrom (re : regex) (bos : bool) (s : str) : option (list str) :=
  match matchAt re bos s with
  | Some (len, caps) => Some (firstn len s :: caps)
  | None => match s with
            | [] => None
            | _ :: t => searchFrom re false t
            end
  end.

Definition exec (re : regex) (s : str) : option (list str) := searchFrom re true s.

(** GetSubstitution on the forms [$$], [$&] and [$1]..[$9]: a [$n]
    with [n] beyond the number of captures of the pattern is kept as
    it is written. *)
Fixpoint expand (tpl : str) (matched : str) (caps : list str) : str :=
  match tpl with
  | [] => []
  | d :: t =>
      if N.eqb d 36 then
        match t with
        | [] => [d]
        | c :: t' =>
            if N.eqb c 36 then 36 :: expand t' matched caps
            else if N.eqb c 38 then matched ++ expand t' matched caps
            else if (49 <=? c) && (c <=? 57) then
              match nth_error caps (N.to_nat (c - 49)) with
              | Some cap => cap ++ expand t' matched caps
              | None => d :: expand t matched caps
              end
            else d :: expand t matched caps
        end
      else d :: expand t matched caps
  end.

(** [s.replace(re, tpl)] with the [g] flag.  [skip] counts the code
    units of the current match still to be consumed. *)
Fixpoint replaceGo (re : regex) (tpl : str) (bos : bool) (skip : nat) (s : str) : str :=
  match skip with
  | S k => match s with
           | [] => []
           | _ :: t => replaceGo re tpl false k t
           end
  | O =>
      match matchAt re bos s with
      | Some (len, caps) =>
          expand tpl (firstn len s) caps ++
          match s with
          | [] => []
          | c :: t => match len with
                      | O => c :: replaceGo re tpl false O t
                      | S k => replaceGo re tpl false k t
                      end
          end
      | None =>
          match s with
          | [] => []
          | c :: t => c :: replaceGo re tpl false O t
          end
      end
  end.

Definition replaceAll (re : regex) (tpl : str) (s : str) : str :=
  replaceGo re tpl true O s.

End Regex.

(** Method chaining, [x.f(..).g(..)]. *)
Notation "x |> f" := (f x) (at level 71, left associativity, only parsing).

(** ** src/utils/markdown.ts: HTML fragments *)

Module Html.
Import Js Regex.

(** [cleanHtml]: the chain of replacements, in the order of the source. *)
Definition cleanHtml (html : str) : str :=
  html
  |> replaceAll [chars_i "<br" ++ [star isSpace; opt (eqc 47)] ++ chars_i ">"] nl
  |> replaceAll [chars_i "</p>"] (nl ++ nl)
  |> replaceAll [chars_i "<p>"] []
  |> replaceAll [chars_i "<" ++ [opt (eqc 47)] ++ chars_i "div>"] nl
  |> replaceAll [chars_i "<blockquote>"] (lit "> ")
  |> replaceAll [chars_i "</blockquote>"] nl
  |> replaceAll [chars_i "<strong>"] (lit "**")
  |> replaceAll [chars_i "</strong>"] (lit "**")
  |> replaceAll [chars_i "<b>"] (lit "**")
  |> replaceAll [chars_i "</b>"] (lit "**")
  |> replaceAll [chars_i "<em>"] (lit "*")
  |> replaceAll [chars_i "</em>"] (lit "*")
  |> replaceAll [chars_i "<i>"] (lit "*")
  |> replaceAll [chars_i "</i>"] (lit "*")
  |> replaceAll [chars_i "<code>"] (lit "`")
  |> replaceAll [chars_i "</code>"] (lit "`")
  |> replaceAll [chars_i "<pre>"] (lit "```" ++ nl)
  |> replaceAll [chars_i "</pre>"] (nl ++ lit "```")
  |> replaceAll [chars_i "<a" ++ [plus isSpace] ++ chars_i "href="
                 ++ [one (eqc 34); Cap (neqc 34) 1 None; one (eqc 34);
                     star (neqc 62); one (eqc 62)]] (lit "[")
  |> replaceAll [chars_i "</a>"] (lit "]($1)")
  |> replaceAll [chars_i "<ul>"] nl
  |> replaceAll [chars_i "</ul>"] nl
  |> replaceAll [chars_i "<ol>"] nl
  |> replaceAll [chars_i "</ol>"] nl
  |> replaceAll [chars_i "<li>"] (lit "- ")
  |> replaceAll [chars_i "</li>"] nl
  |> replaceAll [[one (eqc 60); plus (neqc 62); one (eqc 62)]] []
  |> replaceAll [chars "&nbsp;"] (lit " ")
  |> replaceAll [chars "&lt;"] (lit "<")
  |> replaceAll [chars "&gt;"] (lit ">")
  |> replaceAll [chars "&amp;"] (lit "&")
  |> replaceAll [chars "&quot;"] dquote
  |> replaceAll [chars "&#39;"] (lit "'")
  |> replaceAll [[atLeast 3 (eqc 10)]] (nl ++ nl)
  |> trim.

End Html.

(** ** src/commands/conversations.ts: file names *)

Module Filename.
Import Js Regex.

(** The class of the first pattern: less-than, greater-than, colon,
    double quote, slash, backslash, bar, question mark, asterisk. *)
Definition unsafeChar (c : char) : bool :=
  existsb (N.eqb c) [60; 62; 58; 34; 47; 92; 124; 63; 42].

Definition underscore : char := 95.

Definition sanitizeFilename (filename : str) : str :=
  filename
  |> replaceAll [[one unsafeChar]] [underscore]
  |> replaceAll [[plus isSpace]] [underscore]
  |> replaceAll [[atLeast 2 (eqc underscore)]] [underscore]
  |> replaceAll [[Bol; plus (eqc underscore)]; [plus (eqc underscore); Eol]] [].

End Filename.

(** ** Errors *)

Inductive error :=
| NoTokensFound                      (* 'No tokens found. Please authenticate first.' *)
| NoRefreshToken                     (* 'No refresh token available. Please re-authenticate.' *)
| ExchangeFailed (body : Js.str)     (* 'Failed to exchange code for token: ...' *)
| RefreshFailed (body : Js.str)      (* 'Failed to refresh token: ...' *)
| ApiError (body : Js.str)           (* 'HelpScout API error (status): ...' *)
| CouldNotExtractId (link : Js.str)  (* 'Could not extract conversation ID from: ...' *)
| NoDownloadLink (filename : Js.str) (* 'No download link available for attachment ...' *)
| DownloadFailed (filename statusText : Js.str)
                                   (* 'Failed to download attachment ...: ...' *)
| AuthorizationRejected              (* startAuthServer rejects *)
| BadResponseBody                    (* response.json() rejects *)
| TypeError                          (* a property of null is read *)
| WriteFailed (path : Js.str).       (* writeFile rejects *)

Inductive result (A : Type) :=
| Ok (a : A)
| Throw (e : error).
Arguments Ok {A} a.
Arguments Throw {A} e.

(** ** src/api/client.ts: conversation references *)

Module Link.
Import Js Regex.

Definition patterns : list regex :=
  [ [chars "conversation/" ++ [Cap isDigit 1 None]];
    [chars "conversations/" ++ [Cap isDigit 1 None]];
    [[Bol; Cap isDigit 1 None; Eol]] ].

(** The loop over the patterns: the first one that matches decides. *)
Fixpoint firstMatch (ps : list regex) (link : str) : option str :=
  match ps with
  | [] => None
  | pattern :: rest =>
      match exec pattern link with
      | Some m => Some (nth 1 m [])
      | None => firstMatch rest link
      end
  end.

Definition extractConversationId (link : str) : result str :=
  match firstMatch patterns link with
  | Some id => Ok id
  | None => Throw (CouldNotExtractId link)
  end.

End Link.


(** ** src/api/client.ts: the data model *)

Module Api.
Import Js.

Record Person := {
  email : option str;
  firstName : option str;
  lastName : option str;
}.

Record Attachment := {
  attachment_id : Z;
  filename : str;
  mimeType : str;
  size : Z;
  attachment_state : str;
  (** [_links?.data?.href] *)
  href : option str;
}.

Record ThreadEmbedded := { embedded_attachments : list Attachment }.

Record Thread := {
  thread_id : Z;
  type : str;
  thread_status : str;
  thread_state : str;
  (** [action?.text] *)
  action_text : option str;
  body : str;
  customer : option Person;
  thread_createdBy : option Person;
  thread_createdAt : str;
  attachments : option (list Attachment);
  thread_embedded : option ThreadEmbedded;
}.

Record ConversationEmbedded := { embedded_threads : list Thread }.

Record Mailbox := { mailbox_id : Z; mailbox_name : str }.

Record Conversation := {
  conversation_id : Z;
  number : Z;
  subject : str;
  status : str;
  createdAt : str;
  modifiedAt : str;
  closedAt : option str;
  mailbox : option Mailbox;
  createdBy : option Person;
  primaryCustomer : option Person;
  threads : option (list Thread);
  conversation_embedded : option ConversationEmbedded;
}.

(** [a || b || []] on optional arrays: an array, even an empty one, is
    truthy, so the first operand that is present is the value. *)
Definition orElse {A} (a b : option (list A)) : list A :=
  match a with
  | Some l => l
  | None => match b with
            | Some l => l
            | None => []
            end
  end.

(** [conversation._embedded?.threads || conversation.threads || []],
    as [conversationToMarkdown] and [downloadConversation] write it. *)
Definition threadsOf (conversation : Conversation) : list Thread :=
  orElse (option_map embedded_threads (conversation_embedded conversation))
         (threads conversation).

(** [thread._embedded?.attachments || thread.attachments || []], as
    [calculateThreadStatistics], [formatThread] and
    [downloadConversation] write it. *)
Definition attachmentsOf (thread : Thread) : list Attachment :=
  orElse (option_map embedded_attachments (thread_embedded thread))
         (attachments thread).

End Api.

(** ** JSON values *)

Module Json.
Import Js.

(** A value as [JSON.parse] or [response.json()] returns it; a number
    computed by the program may be NaN. *)
Inductive value :=
| VNull
| VBool (b : bool)
| VNum (n : num)
| VStr (s : str)
| VArr (l : list value)
| VObj (o : list (str * value)).

(** Objects: [o[k]] and [o[k] = v]. *)
Fixpoint get (k : str) (o : list (str * value)) : option value :=
  match o with
  | [] => None
  | (k', v) :: r => if streq k' k then Some v else get k r
  end.

Fixpoint set (k : str) (v : value) (o : list (str * value)) : list (str * value) :=
  match o with
  | [] => [(k, v)]
  | (k', v') :: r => if streq k' k then (k, v) :: r else (k', v') :: set k v r
  end.

(** [JSON.parse(JSON.stringify(v))]: NaN is written as [null]. *)
Fixpoint reparse (v : value) : value :=
  match v with
  | VNum NaN => VNull
  | VArr l => VArr (List.map reparse l)
  | VObj o => VObj (List.map (fun kv => (fst kv, reparse (snd kv))) o)
  | _ => v
  end.

Fixpoint indexed {A} (f : A -> value) (i : nat) (l : list A) : list (str * value) :=
  match l with
  | [] => []
  | x :: r => (ofNat i, f x) :: indexed f (S i) r
  end.

(** The own enumerable properties that [{...data}] copies. *)
Definition spread (data : value) : list (str * value) :=
  match data with
  | VObj o => o
  | VArr l => indexed (fun x => x) 0 l
  | VStr s => indexed (fun c => VStr [c]) 0 s
  | _ => []
  end.

(** [data.k]: reading a property of [null] throws; a primitive, and an
    array or a string at a name that is not an index, has none. *)
Definition member (data : value) (k : str) : option (option value) :=
  match data with
  | VNull => None
  | VObj o => Some (get k o)
  | _ => Some None
  end.

End Json.

(** ** The world of a run *)

Module Sys.
Import Js Json.

Inductive header :=
| Plain (s : str)
(** [`Bearer ${token}`] *)
| Bearer (token : option value).

Record Request := {
  url : str;
  method : str;
  headers : list (str * header);
  (** the [URLSearchParams] of the body *)
  form : list (str * str);
}.

Record Response := {
  ok : bool;
  statusText : str;
  (** [response.text()] *)
  text : str;
  (** [response.json()]; [None] when it rejects *)
  json : option value;
  (** [response.json()] read at the type [Conversation] *)
  conversation : option Api.Conversation;
  (** [response.arrayBuffer()] *)
  bytes : list N;
  (** the milliseconds the call took *)
  elapsed : Z;
}.

(** The token file: it cannot be read, or what [JSON.parse] makes of its
    content. *)
Inductive tokenFileContent :=
| Unreadable
| Unparsable
| Parsed (v : value).

Inductive content :=
| Binary (data : list N)
| Text (s : str)
(** [JSON.stringify(v, null, 2)] *)
| JsonText (v : value).

Record World := {
  (** [Date.now()] *)
  now : Z;
  (** the file [~/.argus/tokens.json], when it exists *)
  tokenFile : option tokenFileContent;
  (** the calls of [fetch] made so far, the oldest first *)
  requests : list Request;
  (** the files written below the output directory, the oldest first *)
  written : list (str * content);
}.

(** A computation reads and changes the world, and returns or throws. *)
Definition M (A : Type) : Type := World -> result A * World.

Definition ret {A} (a : A) : M A := fun w => (Ok a, w).
Definition throw {A} (e : error) : M A := fun w => (Throw e, w).
Definition bind {A B} (m : M A) (k : A -> M B) : M B := fun w =>
  match m w with
  | (Ok a, w') => k a w'
  | (Throw e, w') => (Throw e, w')
  end.
(** [try { m } catch (error) { h }] *)
Definition tryCatch {A} (m : M A) (h : error -> M A) : M A := fun w =>
  match m w with
  | (Ok a, w') => (Ok a, w')
  | (Throw e, w') => h e w'
  end.
Definition lift {A} (r : result A) : M A := fun w => (r, w).

End Sys.

Notation "'do' x <- m ; k" := (Sys.bind m (fun x => k))
  (at level 10, x name, m at level 100, k at level 200, only parsing).
Notation "'await' m ; k" := (Sys.bind m (fun _ => k))
  (at level 10, m at level 100, k at level 200, only parsing).

(** ** The environment of a run

    What the program takes from its runtime and from the network and
    does not define: the locale-dependent rendering of a date, the
    parsing of a date string ([None] for an invalid date),
    [String.prototype.toLowerCase], [path.join], [Date.toISOString],
    [ToNumber] on strings and objects, the answer of the network to a
    request given the requests made before it, whether a path can be
    written, and the outcome of the interactive authorization
    ([startAuthServer]: the listener and the browser of the user). *)

Class Runtime := {
  formatDateLocale : Js.str -> Js.str;
  dateTime : Js.str -> option Z;
  toLowerCase : Js.str -> Js.str;
  pathJoin : Js.str -> Js.str -> Js.str;
  toISOString : Z -> Js.str;
  coerceToNumber : Json.value -> Js.num;
  server : list Sys.Request -> Sys.Request -> Sys.Response;
  writable : Js.str -> bool;
  startAuthServer : Sys.M Js.str;
}.

(** ** Calls of the runtime *)

Module Io.
Import Js Sys.

(** [fetch]: the call is recorded and the clock moves on by the time
    the call took. *)
Definition fetch {rt : Runtime} (req : Request) : M Response := fun w =>
  let response := server (requests w) req in
  (Ok response,
   {| now := (now w + elapsed response)%Z;
      tokenFile := tokenFile w;
      requests := requests w ++ [req];
      written := written w |}).

(** [Date.now()] *)
Definition dateNow : M Z := fun w => (Ok (now w), w).

(** [writeFile(path, data)] below the output directory *)
Definition writeFile {rt : Runtime} (path : str) (data : content) : M unit := fun w =>
  if writable path then
    (Ok tt,
     {| now := now w;
        tokenFile := tokenFile w;
        requests := requests w;
        written := written w ++ [(path, data)] |})
  else (Throw (WriteFailed path), w).

End Io.

(** ** src/utils/markdown.ts: the renderer *)

Module Markdown.
Import Js Api.
Export Html.

Section Renderer.
Context {rt : Runtime}.

Record ThreadStatistics := {
  totalThreads : nat;
  customerMessages : nat;
  supportReplies : nat;
  internalNotes : nat;
  totalAttachments : nat;
  responseTime : option str;
}.

(** [new Date(s).getTime()] *)
Definition getTime (s : str) : num :=
  match dateTime s with
  | Some t => Int t
  | None => NaN
  end.

(** The variables of the loop of [calculateThreadStatistics].  A [Date]
    object is truthy also when it is invalid, so the two times are
    optional numbers. *)
Record Counters := {
  c_customerMessages : nat;
  c_supportReplies : nat;
  c_internalNotes : nat;
  c_totalAttachments : nat;
  firstCustomerMessageTime : option num;
  firstSupportReplyTime : option num;
}.

Definition isCustomerThread (thread : Thread) : bool :=
  streq (type thread) (lit "customer") || defined (customer thread).
Definition isNote (thread : Thread) : bool :=
  streq (type thread) (lit "note").
Definition isReplyType (thread : Thread) : bool :=
  streq (type thread) (lit "reply") || streq (type thread) (lit "message").

(** One iteration of the loop. *)
Definition countThread (c : Counters) (thread : Thread) : Counters :=
  let total := (c_totalAttachments c + length (attachmentsOf thread))%nat in
  if isNote thread then
    {| c_customerMessages := c_customerMessages c;
       c_supportReplies := c_supportReplies c;
       c_internalNotes := S (c_internalNotes c);
       c_totalAttachments := total;
       firstCustomerMessageTime := firstCustomerMessageTime c;
       firstSupportReplyTime := firstSupportReplyTime c |}
  else if isCustomerThread thread then
    {| c_customerMessages := S (c_customerMessages c);
       c_supportReplies := c_supportReplies c;
       c_internalNotes := c_internalNotes c;
       c_totalAttachments := total;
       firstCustomerMessageTime :=
         match firstCustomerMessageTime c with
         | None => Some (getTime (thread_createdAt thread))
         | Some t => Some t
         end;
       firstSupportReplyTime := firstSupportReplyTime c |}
  else if isReplyType thread then
    {| c_customerMessages := c_customerMessages c;
       c_supportReplies := S (c_supportReplies c);
       c_internalNotes := c_internalNotes c;
       c_totalAttachments := total;
       firstCustomerMessageTime := firstCustomerMessageTime c;
       firstSupportReplyTime :=
         match firstSupportReplyTime c, firstCustomerMessageTime c with
         | None, Some _ => Some (getTime (thread_createdAt thread))
         | r, _ => r
         end |}
  else
    {| c_customerMessages := c_customerMessages c;
       c_supportReplies := c_supportReplies c;
       c_internalNotes := c_internalNotes c;
       c_totalAttachments := total;
       firstCustomerMessageTime := firstCustomerMessageTime c;
       firstSupportReplyTime := firstSupportReplyTime c |}.

Definition plural (n : num) : str := if nne1 n then lit "s" else [].

(** The text of the response time, from the difference in milliseconds. *)
Definition responseTimeText (diffMs : num) : str :=
  let diffMins := nfloordiv diffMs 60000 in
  let diffHours := nfloordiv diffMins 60 in
  let diffDays := nfloordiv diffHours 24 in
  if ngt0 diffDays then
    ofNum diffDays ++ lit " day" ++ plural diffDays ++ lit " "
    ++ ofNum (nrem diffHours 24) ++ lit " hour" ++ plural (nrem diffHours 24)
  else if ngt0 diffHours then
    ofNum diffHours ++ lit " hour" ++ plural diffHours ++ lit " "
    ++ ofNum (nrem diffMins 60) ++ lit " minute" ++ plural (nrem diffMins 60)
  else
    ofNum diffMins ++ lit " minute" ++ plural diffMins.

Definition calculateThreadStatistics (threads : list Thread) : ThreadStatistics :=
  let c := fold_left countThread threads
             {| c_customerMessages := 0; c_supportReplies := 0;
                c_internalNotes := 0; c_totalAttachments := 0;
                firstCustomerMessageTime := None;
                firstSupportReplyTime := None |} in
  {| totalThreads := length threads;
     customerMessages := c_customerMessages c;
     supportReplies := c_supportReplies c;
     internalNotes := c_internalNotes c;
     totalAttachments := c_totalAttachments c;
     responseTime :=
       match firstCustomerMessageTime c, firstSupportReplyTime c with
       | Some tc, Some tr => Some (responseTimeText (nsub tr tc))
       | _, _ => None
       end |}.

(** [formatFileSize].  The size is the exact quotient [bytes / den],
    [den] a power of 1024: dividing a double by 1024 is exact. *)
Definition units : list str := [lit "B"; lit "KB"; lit "MB"; lit "GB"].

(** The loop [while (size >= 1024 && unitIndex < units.length - 1)];
    [left] is [units.length - 1 - unitIndex]. *)
Fixpoint scale (left : nat) (bytes den : Z) (unitIndex : nat) : Z * nat :=
  match left with
  | O => (den, unitIndex)
  | S left' =>
      if (1024 * den <=? bytes)%Z then scale left' bytes (den * 1024)%Z (S unitIndex)
      else (den, unitIndex)
  end.

(** [(a / d).toFixed(1)] for [d > 0]: the integer [n] nearest to ten
    times the value, the larger one of two, is written with a point
    before its last digit, after a zero when it has one digit only.
    (The exponent form of values from 1e21 on is not modelled.) *)
Definition toFixed1 (a d : Z) : str :=
  let sign := if (a <? 0)%Z then lit "-" else [] in
  let n := ((20 * Z.abs a + d) / (2 * d))%Z in
  let m := ofZ n in
  let m := if (length m <=? 1)%nat then lit "0" ++ m else m in
  sign ++ firstn (length m - 1) m ++ lit "." ++ skipn (length m - 1) m.

Definition formatFileSize (bytes : Z) : str :=
  let '(den, unitIndex) := scale (length units - 1) bytes 1 0 in
  toFixed1 bytes den ++ lit " " ++ nth unitIndex units [].

(** [.filter(Boolean)] on optional strings. *)
Definition filterBoolean (l : list (option str)) : list str :=
  flat_map (fun o => if truthy o then [default [] o] else []) l.

Definition formatPerson (person : Person) : str :=
  let name := join (lit " ") (filterBoolean [firstName person; lastName person]) in
  match name with
  | _ :: _ =>
      if truthy (email person)
      then name ++ lit " (" ++ default [] (email person) ++ lit ")"
      else name
  | [] => if truthy (email person) then default [] (email person) else lit "Unknown"
  end.

Definition formatDate (dateString : str) : str := formatDateLocale dateString.

(** The glyph table, keyed by the lower-cased type.  (Keys that name
    a property of [Object.prototype] are outside the model.) *)
Definition icons : list (str * str) :=
  [ (lit "customer", [55357; 56492]);
    (lit "message", [55357; 56551]);
    (lit "reply", [8617; 65039]);
    (lit "forward", [10145; 65039]);
    (lit "note", [55357; 56541]);
    (lit "phone", [55357; 56542]);
    (lit "chat", [55357; 56493]) ].

Definition getThreadTypeIcon (type : str) : str :=
  match find (fun kv => streq (fst kv) (toLowerCase type)) icons with
  | Some (_, icon) => icon
  | None => [8226]
  end.

(** The key of the path index, [`${thread.id}-${attachment.id}`]. *)
Definition pathKey (threadId attachmentId : Z) : str :=
  ofZ threadId ++ lit "-" ++ ofZ attachmentId.

(** One entry of the attachment list of a thread. *)
Definition attachmentLine (attachmentPaths : gmap str str) (thread : Thread)
    (attachment : Attachment) : str :=
  let localPath := attachmentPaths !! pathKey (thread_id thread) (attachment_id attachment) in
  if truthy localPath then
    lit "- [" ++ filename attachment ++ lit "](" ++ default [] localPath ++ lit ") ("
    ++ formatFileSize (size attachment) ++ lit ")"
  else
    lit "- " ++ filename attachment ++ lit " (" ++ formatFileSize (size attachment) ++ lit ")".

Definition formatThread (thread : Thread) (attachmentPaths : gmap str str) : list str :=
  let author := match customer thread with
                | Some p => Some p
                | None => thread_createdBy thread
                end in
  let authorName := match author with
                    | Some p => formatPerson p
                    | None => lit "Unknown"
                    end in
  let timestamp := formatDate (thread_createdAt thread) in
  [ lit "### " ++ getThreadTypeIcon (type thread) ++ lit " " ++ type thread
    ++ lit " by " ++ authorName;
    lit "*" ++ timestamp ++ lit "*";
    [] ]
  ++ (if truthy (action_text thread)
      then [lit "**Action**: " ++ default [] (action_text thread); []]
      else [])
  ++ (match body thread with
      | _ :: _ => [cleanHtml (body thread); []]
      | [] => []
      end)
  ++ (match attachmentsOf thread with
      | _ :: _ =>
          [lit "**Attachments:**"]
          ++ List.map (attachmentLine attachmentPaths thread) (attachmentsOf thread)
          ++ [[]]
      | [] => []
      end)
  ++ [lit "---"].

(** The lines pushed between the heading of the summary and the blank
    line that ends it. *)
Definition summaryLines (stats : ThreadStatistics) : list str :=
  [ lit "- **Total Threads**: " ++ ofNat (totalThreads stats);
    lit "- **Customer Messages**: " ++ ofNat (customerMessages stats);
    lit "- **Support Replies**: " ++ ofNat (supportReplies stats);
    lit "- **Internal Notes**: " ++ ofNat (internalNotes stats) ]
  ++ (if (0 <? totalAttachments stats)%nat
      then [lit "- **Attachments**: " ++ ofNat (totalAttachments stats)]
      else [])
  ++ (if truthy (responseTime stats)
      then [lit "- **First Response Time**: " ++ default [] (responseTime stats)]
      else []).

Definition metadataLines (conversation : Conversation) : list str :=
  [ lit "- **ID**: " ++ ofZ (conversation_id conversation);
    lit "- **Status**: " ++ status conversation;
    lit "- **Created**: " ++ formatDate (createdAt conversation);
    lit "- **Modified**: " ++ formatDate (modifiedAt conversation) ]
  ++ (if truthy (closedAt conversation)
      then [lit "- **Closed**: " ++ formatDate (default [] (closedAt conversation))]
      else [])
  ++ (match mailbox conversation with
      | Some mb => match mailbox_name mb with
                   | _ :: _ => [lit "- **Mailbox**: " ++ mailbox_name mb]
                   | [] => []
                   end
      | None => []
      end)
  ++ (match createdBy conversation with
      | Some p => [lit "- **Created By**: " ++ formatPerson p]
      | None => []
      end)
  ++ (match primaryCustomer conversation with
      | Some p => [lit "- **Customer**: " ++ formatPerson p]
      | None => []
      end).

(** The lines of the document, before [lines.join]. *)
Definition documentLines (conversation : Conversation)
    (attachmentPaths : gmap str str) : list str :=
  let threads := threadsOf conversation in
  let stats := calculateThreadStatistics threads in
  [ lit "# Conversation #" ++ ofZ (number conversation) ++ lit ": " ++ subject conversation;
    [];
    lit "## Summary" ]
  ++ summaryLines stats
  ++ [ []; lit "## Metadata" ]
  ++ metadataLines conversation
  ++ [ []; lit "---"; []; lit "## Conversation Thread"; [] ]
  ++ flat_map (fun thread => formatThread thread attachmentPaths ++ [[]]) threads.

Definition conversationToMarkdown (conversation : Conversation)
    (attachmentPaths : gmap str str) : str :=
  join nl (documentLines conversation attachmentPaths).

End Renderer.
End Markdown.

(** ** src/auth/oauth.ts: the token store and the OAuth manager *)

Module OAuth.
Import Js Json Sys Io.

(** What [TokenSchema] infers. *)
Record TokenData := {
  access_token : str;
  refresh_token : str;
  token_type : str;
  expires_in : Z;
  expires_at : Z;
}.

Definition asString (o : option value) : option str :=
  match o with
  | Some (VStr s) => Some s
  | _ => None
  end.

(** [z.number()] refuses NaN. *)
Definition asNumber (o : option value) : option Z :=
  match o with
  | Some (VNum (Int z)) => Some z
  | _ => None
  end.

(** [TokenSchema.parse(data)]: an object with the five fields at their
    types; other fields are dropped.  [None] when it throws. *)
Definition TokenSchema_parse (data : value) : option TokenData :=
  match data with
  | VObj o =>
      match asString (get (lit "access_token") o),
            asString (get (lit "refresh_token") o),
            asString (get (lit "token_type") o),
            asNumber (get (lit "expires_in") o),
            asNumber (get (lit "expires_at") o) with
      | Some a, Some r, Some t, Some i, Some e =>
          Some {| access_token := a; refresh_token := r; token_type := t;
                  expires_in := i; expires_at := e |}
      | _, _, _, _, _ => None
      end
  | _ => None
  end.

(** The fields of the manager, read from the environment by the
    constructor. *)
Record OAuthManager := {
  appId : str;
  appSecret : str;
  redirectUri : str;
}.

Definition tokenUrl : str := lit "https://api.helpscout.net/v2/oauth2/token".

(** [saveTokens]: the file holds [JSON.stringify(tokens, null, 2)].
    (Directories are not modelled.) *)
Definition saveTokens (tokens : value) : M unit := fun w =>
  (Ok tt,
   {| now := now w;
      tokenFile := Some (Parsed (reparse tokens));
      requests := requests w;
      written := written w |}).

(** [loadTokens]: [null] when the file is missing and when reading,
    parsing or validating it throws. *)
Definition loadTokens : M (option TokenData) := fun w =>
  match tokenFile w with
  | None => (Ok None, w)
  | Some Unreadable => (Ok None, w)
  | Some Unparsable => (Ok None, w)
  | Some (Parsed data) => (Ok (TokenSchema_parse data), w)
  end.

Section Manager.
Context {rt : Runtime} (self : OAuthManager).

(** [ToNumber] of an operand of the multiplication. *)
Definition toNumber (o : option value) : num :=
  match o with
  | None => NaN
  | Some VNull => Int 0
  | Some (VBool b) => Int (if b then 1 else 0)
  | Some (VNum n) => n
  | Some v => coerceToNumber v
  end.

(** [{ ...data, expires_at: Date.now() + (data.expires_in * 1000) }].
    (The product and the sum are those of the doubles of the program as
    long as they stay within 2^53.) *)
Definition withExpiry (data : value) : M value :=
  do t <- dateNow ;
  match member data (lit "expires_in") with
  | None => throw TypeError
  | Some expires_in =>
      ret (VObj (set (lit "expires_at")
                     (VNum (nadd (Int t) (nmul (toNumber expires_in) (Int 1000))))
                     (spread data)))
  end.

Definition formHeaders : list (str * header) :=
  [(lit "Content-Type", Plain (lit "application/x-www-form-urlencoded"))].

Definition exchangeRequest (code : str) : Request :=
  {| url := tokenUrl;
     method := lit "POST";
     headers := formHeaders;
     form := [ (lit "grant_type", lit "authorization_code");
               (lit "client_id", appId self);
               (lit "client_secret", appSecret self);
               (lit "code", code);
               (lit "redirect_uri", redirectUri self) ] |}.

Definition refreshRequest (refreshToken : str) : Request :=
  {| url := tokenUrl;
     method := lit "POST";
     headers := formHeaders;
     form := [ (lit "grant_type", lit "refresh_token");
               (lit "client_id", appId self);
               (lit "client_secret", appSecret self);
               (lit "refresh_token", refreshToken) ] |}.

Definition responseJson (response : Response) : M value :=
  match json response with
  | Some data => ret data
  | None => throw BadResponseBody
  end.

Definition exchangeCodeForToken (code : str) : M value :=
  do response <- fetch (exchangeRequest code) ;
  if negb (ok response) then throw (ExchangeFailed (text response))
  else
    do data <- responseJson response ;
    do tokenData <- withExpiry data ;
    await saveTokens tokenData ;
    ret tokenData.

Definition refreshAccessToken : M value :=
  do tokens <- loadTokens ;
  match tokens with
  | None => throw NoRefreshToken
  | Some tokens =>
      match refresh_token tokens with
      | [] => throw NoRefreshToken
      | _ :: _ =>
          do response <- fetch (refreshRequest (refresh_token tokens)) ;
          if negb (ok response) then throw (RefreshFailed (text response))
          else
            do data <- responseJson response ;
            do tokenData <- withExpiry data ;
            await saveTokens tokenData ;
            ret tokenData
      end
  end.

(** [getValidToken]; the value is [undefined] when the refreshed
    record has no [access_token]. *)
Definition getValidToken : M (option value) :=
  do tokens <- loadTokens ;
  match tokens with
  | None => throw NoTokensFound
  | Some tokens =>
      do t <- dateNow ;
      if (expires_at tokens - 60000 <=? t)%Z then
        do refreshed <- refreshAccessToken ;
        match refreshed with
        | VObj o => ret (get (lit "access_token") o)
        | _ => ret None
        end
      else ret (Some (VStr (access_token tokens)))
  end.

End Manager.
End OAuth.

(** ** src/api/client.ts: the client *)

Module Client.
Import Js Json Sys Io Api OAuth.
Export Link.

Section HelpScoutClient.
Context {rt : Runtime} (oauth : OAuthManager).

Definition baseUrl : str := lit "https://api.helpscout.net/v2".

Definition authenticate : M unit :=
  tryCatch (await getValidToken oauth ; ret tt)
    (fun _ =>
       do code <- startAuthServer ;
       await exchangeCodeForToken oauth code ;
       ret tt).

(** [request<T>(endpoint)], without further options. *)
Definition request (endpoint : str) : M Response :=
  do token <- getValidToken oauth ;
  do response <- fetch {| url := baseUrl ++ endpoint;
                       method := lit "GET";
                       headers := [ (lit "Authorization", Bearer token);
                                    (lit "Content-Type", Plain (lit "application/json")) ];
                       form := [] |} ;
  if negb (ok response) then throw (ApiError (text response))
  else ret response.

Definition getConversation (conversationId : str) : M Conversation :=
  do response <- request (lit "/conversations/" ++ conversationId ++ lit "?embed=threads") ;
  match conversation response with
  | Some c => ret c
  | None => throw BadResponseBody
  end.

Definition downloadAttachment (conversationId : str) (attachment : Attachment)
    : M (list N) :=
  if negb (truthy (href attachment)) then throw (NoDownloadLink (filename attachment))
  else
    do token <- getValidToken oauth ;
    do response <- fetch {| url := default [] (href attachment);
                         method := lit "GET";
                         headers := [ (lit "Authorization", Bearer token) ];
                         form := [] |} ;
    if negb (ok response)
    then throw (DownloadFailed (filename attachment) (statusText response))
    else ret (bytes response).

End HelpScoutClient.
End Client.

(** ** src/commands/conversations.ts: the orchestrator *)

Module Commands.
Import Js Json Sys Io Api OAuth Client Markdown.
Export Filename.

Section Download.
Context {rt : Runtime} (oauth : OAuthManager).

(** The body of the [try] of one attachment: the value is the entry
    of the path index. *)
Definition fetchAttachment (conversationId attachmentsDir : str)
    (thread : Thread) (attachment : Attachment) : M (str * str) :=
  let sanitizedFilename := sanitizeFilename (filename attachment) in
  let uniqueFilename :=
    ofZ (thread_id thread) ++ lit "_" ++ ofZ (attachment_id attachment)
    ++ lit "_" ++ sanitizedFilename in
  let attachmentPath := pathJoin attachmentsDir uniqueFilename in
  do data <- downloadAttachment oauth conversationId attachment ;
  await writeFile attachmentPath (Binary data) ;
  let relativePath := lit "./attachments/" ++ uniqueFilename in
  ret (pathKey (thread_id thread) (attachment_id attachment), relativePath).

(** One iteration of the inner loop: the failure of an attachment is
    caught, and the index is left as it was. *)
Definition downloadOne (conversationId attachmentsDir : str) (thread : Thread)
    (attachmentPaths : gmap str str) (attachment : Attachment) : M (gmap str str) :=
  tryCatch
    (do entry <- fetchAttachment conversationId attachmentsDir thread attachment ;
     ret (<[fst entry := snd entry]> attachmentPaths))
    (fun _ => ret attachmentPaths).

(** [for (const x of xs) { acc = body(acc, x) }] *)
Fixpoint forEach {A B} (body : B -> A -> M B) (xs : list A) (acc : B) : M B :=
  match xs with
  | [] => ret acc
  | x :: r => do acc' <- body acc x ; forEach body r acc'
  end.

Definition downloadThread (conversationId attachmentsDir : str)
    (attachmentPaths : gmap str str) (thread : Thread) : M (gmap str str) :=
  forEach (downloadOne conversationId attachmentsDir thread)
          (attachmentsOf thread) attachmentPaths.

Definition downloadAll (conversationId attachmentsDir : str)
    (threads : list Thread) : M (gmap str str) :=
  forEach (downloadThread conversationId attachmentsDir) threads ∅.

Definition countAttachments (threads : list Thread) : nat :=
  fold_left (fun total thread => (total + length (attachmentsOf thread))%nat) threads 0%nat.

Definition optional (k : string) (o : option value) : list (str * value) :=
  match o with
  | Some v => [(lit k, v)]
  | None => []
  end.

(** The object written to [metadata.json]; [JSON.stringify] leaves
    out the properties whose value is [undefined]. *)
Definition metadata (conversation : Conversation) (downloadedAt : Z)
    (totalAttachments : nat) : value :=
  VObj ([ (lit "id", VNum (Int (conversation_id conversation)));
          (lit "number", VNum (Int (number conversation)));
          (lit "subject", VStr (subject conversation));
          (lit "status", VStr (status conversation));
          (lit "createdAt", VStr (createdAt conversation));
          (lit "modifiedAt", VStr (modifiedAt conversation)) ]
        ++ optional "closedAt" (option_map VStr (closedAt conversation))
        ++ optional "mailbox"
             (option_map (fun mb => VObj [ (lit "id", VNum (Int (mailbox_id mb)));
                                           (lit "name", VStr (mailbox_name mb)) ])
                (mailbox conversation))
        ++ [ (lit "downloadedAt", VStr (toISOString downloadedAt));
             (lit "attachmentCount", VNum (Int (Z.of_nat totalAttachments))) ]).

(** [downloadConversation]; a [Throw] is the outer [catch], which
    reports the error and exits. *)
Definition downloadConversation (link output : str) : M unit :=
  await authenticate oauth ;
  do conversationId <- lift (extractConversationId link) ;
  do conversation <- getConversation oauth conversationId ;
  let outputDir := pathJoin output conversationId in
  let attachmentsDir := pathJoin outputDir (lit "attachments") in
  let threads := threadsOf conversation in
  let totalAttachments := countAttachments threads in
  do attachmentPaths <-
    (if (0 <? totalAttachments)%nat
     then downloadAll conversationId attachmentsDir threads
     else ret ∅) ;
  let markdown := conversationToMarkdown conversation attachmentPaths in
  let markdownPath :=
    pathJoin outputDir (lit "conversation_" ++ conversationId ++ lit ".md") in
  await writeFile markdownPath (Text markdown) ;
  let metadataPath := pathJoin outputDir (lit "metadata.json") in
  do downloadedAt <- dateNow ;
  writeFile metadataPath (JsonText (metadata conversation downloadedAt totalAttachments)).

End Download.
End Commands.

(** ** Numbers in texts *)

Module Numeral.
Import Js Regex.

(** The number that a text of decimal digits denotes. *)
Definition digitsValue (s : str) : Z :=
  fold_left (fun acc c => (acc * 10 + (Z.of_N c - 48))%Z) s 0%Z.

(** [parseInt(s, 10)]: white space at the head is skipped, a sign is
    read, and the digits that follow make the number, whatever comes
    after them; NaN when there is no digit.  (The number is exact; a
    double rounds it from 2^53 on.) *)
Definition parseInt10 (s : str) : num :=
  let s := dropWhile isSpace s in
  let '(negative, s) :=
    match s with
    | c :: t => if N.eqb c 45 then (true, t)
                else if N.eqb c 43 then (false, t)
                else (false, s)
    | [] => (false, s)
    end in
  match firstn (run isDigit None s) s with
  | [] => NaN
  | digits => Int (if negative then - digitsValue digits else digitsValue digits)
  end.

End Numeral.

(** ** src/auth/oauth.ts: the constructor and the authorization request *)

Module Authorization.
Import Js Json Sys Io OAuth Numeral.

(** The variables of [process.env] that the program reads. *)
Record Env := {
  APP_ID : option str;
  APP_SECRET : option str;
  PORT : option str;
  REDIRECT_URI : option str;
}.

(** [x || d] on an optional string. *)
Definition orDefault (o : option str) (d : str) : str :=
  if truthy o then default [] o else d.

(** The manager with its port, which the record of the manager does
    not hold. *)
Record Configured := {
  manager : OAuthManager;
  port : num;
}.

(** [new OAuthManager()]; [None] when the constructor throws.  (The port
    and its decimal form in the address are those of the program below
    2^53.) *)
Definition construct (env : Env) : option Configured :=
  let appId := orDefault (APP_ID env) [] in
  let appSecret := orDefault (APP_SECRET env) [] in
  let port := parseInt10 (orDefault (PORT env) (lit "3698")) in
  let redirectUri :=
    orDefault (REDIRECT_URI env) (lit "http://localhost:" ++ ofNum port ++ lit "/auth") in
  match appId, appSecret with
  | _ :: _, _ :: _ =>
      Some {| manager := {| appId := appId; appSecret := appSecret;
                            redirectUri := redirectUri |};
              port := port |}
  | _, _ => None
  end.

(** *** [URLSearchParams] as a text

    A string is read as its code points (a surrogate that stands alone
    becomes U+FFFD), the code points are written in UTF-8, and of the
    bytes only the ASCII letters and digits and [*], [-], [.] and [_]
    are left as they are: a space becomes [+], any other byte a percent
    sign and its two hexadecimal digits in upper case. *)

Definition isHigh (c : char) : bool := (55296 <=? c) && (c <=? 56319).
Definition isLow (c : char) : bool := (56320 <=? c) && (c <=? 57343).

Fixpoint codePoints (s : str) : list N :=
  match s with
  | [] => []
  | c :: t =>
      if isHigh c then
        match t with
        | d :: t' =>
            if isLow d
            then (65536 + (c - 55296) * 1024 + (d - 56320)) :: codePoints t'
            else 65533 :: codePoints t
        | [] => [65533]
        end
      else if isLow c then 65533 :: codePoints t
      else c :: codePoints t
  end.

Definition utf8 (p : N) : list N :=
  if p <? 128 then [p]
  else if p <? 2048 then [192 + p / 64; 128 + p mod 64]
  else if p <? 65536 then [224 + p / 4096; 128 + (p / 64) mod 64; 128 + p mod 64]
  else [240 + p / 262144; 128 + (p / 4096) mod 64; 128 + (p / 64) mod 64; 128 + p mod 64].

Definition isAlnum (b : N) : bool :=
  isDigit b || (65 <=? b) && (b <=? 90) || (97 <=? b) && (b <=? 122).

Definition formSafe (b : N) : bool :=
  isAlnum b || N.eqb b 42 || N.eqb b 45 || N.eqb b 46 || N.eqb b 95.

Definition hexDigit (n : N) : N := if n <? 10 then 48 + n else 55 + n.

Definition encodeByte (b : N) : str :=
  if N.eqb b 32 then [43]
  else if formSafe b then [b]
  else [37; hexDigit (b / 16); hexDigit (b mod 16)].

Definition formEncode (s : str) : str :=
  flat_map encodeByte (flat_map utf8 (codePoints s)).

(** [`${params}`] *)
Definition serialize (params : list (str * str)) : str :=
  join (lit "&")
    (List.map (fun kv => formEncode (fst kv) ++ lit "=" ++ formEncode (snd kv)) params).

Definition authorizeUrl : str :=
  lit "https://secure.helpscout.net/authentication/authorizeClientApplication".

Definition getAuthorizationUrl (self : OAuthManager) (state : str) : str :=
  authorizeUrl ++ lit "?"
  ++ serialize [ (lit "client_id", appId self);
                 (lit "state", state);
                 (lit "response_type", lit "code");
                 (lit "redirect_uri", redirectUri self) ].

(** *** The listener of [startAuthServer]

    A request, as [new URL(req.url)] gives it: its path and the values
    of its [code] and [state] parameters. *)
Record Callback := {
  pathname : str;
  code : option str;
  returnedState : option str;
}.

Inductive rejection :=
| StateMismatch    (* 'State mismatch - possible CSRF attack' *)
| NoCode.          (* 'No authorization code received' *)

(** What a request does to the promise of [startAuthServer]. *)
Inductive settlement :=
| Pending
| Resolved (code : str)
| Rejected (reason : rejection).

(** The handler [fetch(req)] for the expected [state]: the status of
    its reply and what it does to the promise (it resolves it from a
    timer, a tenth of a second after the reply).  The texts of the
    replies are not modelled. *)
Definition serve (state : str) (req : Callback) : Z * settlement :=
  if streq (pathname req) (lit "/auth") then
    if negb (match returnedState req with
             | Some s => streq s state
             | None => false
             end)
    then (400%Z, Rejected StateMismatch)
    else if negb (truthy (code req)) then (400%Z, Rejected NoCode)
    else (200%Z, Resolved (default [] (code req)))
  else (404%Z, Pending).

End Authorization.

(** ** src/commands/setup.ts: the port *)

Module Setup.
Import Js Regex Numeral.

(** The answer of a [validate] function of a prompt. *)
Inductive validation :=
| Accepted
| Refused (message : str).

(** The [validate] function of the prompt for the port.  (Rounding to
    a double is monotone and leaves the numbers below 2^53 as they
    are, so the two comparisons come out the same on the exact
    number.) *)
Definition validatePort (value : str) : validation :=
  match parseInt10 value with
  | NaN => Refused (lit "Port must be a number")
  | Int num =>
      if (num <? 1024)%Z || (65535 <? num)%Z
      then Refused (lit "Port must be between 1024 and 65535")
      else Accepted
  end.

(** The rule of [EnvSchema] for [PORT]: a text of digits, read as a
    number from 1024 to 65535; [None] when the rule refuses.  (A
    number in that range is far below 2^53, so [Number] gives it
    exactly.) *)
Definition EnvSchema_PORT (value : str) : option Z :=
  match exec [[Bol; plus isDigit; Eol]] value with
  | Some _ =>
      let n := digitsValue value in
      if (1024 <=? n)%Z && (n <=? 65535)%Z then Some n else None
  | None => None
  end.

End Setup.

(** ** Dates in texts

    The Date Time String Format of ECMAScript,
    [YYYY-MM-DDTHH:mm:ss.sssZ] with its shorter forms: a year of four
    digits, or of a sign and six digits; then a month and a day, both
    optional; then, after [T], the hours and minutes, with optional
    seconds and milliseconds and an optional offset, [Z] or a sign with
    hours and minutes.  For a text in another form the standard leaves
    the result to the engine.  (Engines differ on a day that its month
    does not have, such as the 30th of February; it is refused here.) *)

Module Dates.
Import Js.
Local Open Scope Z_scope.

(** DaysInYear and DayFromYear of the standard. *)
Definition inLeapYear (y : Z) : bool :=
  (y mod 4 =? 0) && (negb (y mod 100 =? 0) || (y mod 400 =? 0)).

Definition dayFromYear (y : Z) : Z :=
  365 * (y - 1970) + (y - 1969) / 4 - (y - 1901) / 100 + (y - 1601) / 400.

Definition daysInMonth (y m : Z) : Z :=
  if m =? 2 then (if inLeapYear y then 29 else 28)
  else if (m =? 4) || (m =? 6) || (m =? 9) || (m =? 11) then 30
  else 31.

(** MakeDay, for a month from 1 to 12: the days from the first of
    January 1970 to the day [d] of the month [m] of the year [y]. *)
Definition makeDay (y m d : Z) : Z :=
  dayFromYear y
  + fold_left Z.add (List.map (daysInMonth y) (List.filter (fun k => k <? m)
                                                 [1; 2; 3; 4; 5; 6; 7; 8; 9; 10; 11])) 0
  + d - 1.

(** The number that [n] digits at the head of [s] denote, after [acc],
    and the rest of [s]. *)
Fixpoint digits (n : nat) (acc : Z) (s : str) : option (Z * str) :=
  match n with
  | O => Some (acc, s)
  | S n' =>
      match s with
      | c :: t => if isDigit c then digits n' (acc * 10 + (Z.of_N c - 48)) t else None
      | [] => None
      end
  end.

(** [YYYY], or a sign and [YYYYYY]; the year [-000000] is not one. *)
Definition year (s : str) : option (Z * str) :=
  match s with
  | 43%N :: t => digits 6 0 t
  | 45%N :: t =>
      match digits 6 0 t with
      | Some (y, r) => if y =? 0 then None else Some (- y, r)
      | None => None
      end
  | _ => digits 4 0 s
  end.

(** [-MM] and, after it, [-DD]: a part that is left out stands for 1. *)
Definition monthAndDay (s : str) : option (Z * Z * str) :=
  match s with
  | 45%N :: t =>
      match digits 2 0 t with
      | Some (m, 45%N :: t') =>
          match digits 2 0 t' with
          | Some (d, r) => Some (m, d, r)
          | None => None
          end
      | Some (m, r) => Some (m, 1, r)
      | None => None
      end
  | _ => Some (1, 1, s)
  end.

(** [:ss] and, after it, [.sss]: a part that is left out stands for 0. *)
Definition secondsAndMillis (s : str) : option (Z * Z * str) :=
  match s with
  | 58%N :: t =>
      match digits 2 0 t with
      | Some (sec, 46%N :: t') =>
          match digits 3 0 t' with
          | Some (ms, r) => Some (sec, ms, r)
          | None => None
          end
      | Some (sec, r) => Some (sec, 0, r)
      | None => None
      end
  | _ => Some (0, 0, s)
  end.

(** The offset from UTC in minutes, at the end of the text: [Z], or a
    sign with [HH:mm].  Without an offset the time is local; [local] is
    the offset of the zone of the machine. *)
Definition offset (local : Z) (s : str) : option Z :=
  match s with
  | [] => Some local
  | [90%N] => Some 0
  | c :: t =>
      if N.eqb c 43 || N.eqb c 45 then
        match digits 2 0 t with
        | Some (h, 58%N :: t') =>
            match digits 2 0 t' with
            | Some (mi, []) =>
                if (h <=? 23) && (mi <=? 59)
                then Some ((if N.eqb c 45 then -1 else 1) * (h * 60 + mi))
                else None
            | _ => None
            end
        | _ => None
        end
      else None
  end.

(** [THH:mm] with the seconds and the offset: the milliseconds since
    midnight, and the offset.  The hour 24 is the end of the day. *)
Definition timeAndOffset (local : Z) (s : str) : option (Z * Z) :=
  match digits 2 0 s with
  | Some (h, 58%N :: t) =>
      match digits 2 0 t with
      | Some (mi, r) =>
          match secondsAndMillis r with
          | Some (sec, ms, r') =>
              match offset local r' with
              | Some off =>
                  if (h <=? 23) && (mi <=? 59) && (sec <=? 59)
                     || (h =? 24) && (mi =? 0) && (sec =? 0) && (ms =? 0)
                  then Some (h * 3600000 + mi * 60000 + sec * 1000 + ms, off)
                  else None
              | None => None
              end
          | None => None
          end
      | None => None
      end
  | _ => None
  end.

(** [Date.parse(s)] on the format, in a zone that is [local] minutes
    ahead of UTC: [None] is NaN.  A date alone is read as UTC; a time
    beyond the range of a [Date] is refused (TimeClip). *)
Definition parse (local : Z) (s : str) : option Z :=
  match year s with
  | Some (y, r) =>
      match monthAndDay r with
      | Some (m, d, r') =>
          if (1 <=? m) && (m <=? 12) && (1 <=? d) && (d <=? daysInMonth y m) then
            match (match r' with
                   | [] => Some (0, 0)
                   | 84%N :: t => timeAndOffset local t
                   | _ => None
                   end) with
            | Some (time, off) =>
                let t := makeDay y m d * 86400000 + time - off * 60000 in
                if Z.abs t <=? 8640000000000000 then Some t else None
            | None => None
            end
          else None
      | None => None
      end
  | None => None
  end.

End Dates.

(** ** Sample data *)

Module Example.
Import Js Json Sys Io Api OAuth.

Definition person (name mail : string) : Person :=
  {| email := Some (lit mail); firstName := Some (lit name); lastName := None |}.

Definition attachment (id : Z) (name : string) (bytes : Z) (link : option str) : Attachment :=
  {| attachment_id := id; filename := lit name; mimeType := lit "application/pdf";
     size := bytes; attachment_state := lit "valid"; href := link |}.

Definition thread (id : Z) (kind : string) (from : option Person) (at_ : string)
    (direct : option (list Attachment)) (embedded : option ThreadEmbedded) : Thread :=
  {| thread_id := id; type := lit kind; thread_status := lit "active";
     thread_state := lit "published"; action_text := None; body := lit "<p>Hello</p>";
     customer := from; thread_createdBy := None; thread_createdAt := lit at_;
     attachments := direct; thread_embedded := embedded |}.

(** A customer message with one attachment that has no download link,
    and the reply to it an hour later. *)
Definition invoice : Attachment := attachment 7 "My File: v2?.pdf" 1536 None.
Definition question : Thread :=
  thread 1 "customer" (Some (person "Ada" "ada@example.com")) "2024-03-01T09:00:00Z"
    None (Some {| embedded_attachments := [invoice] |}).
Definition answer : Thread := thread 2 "reply" None "2024-03-01T10:00:00Z" None None.

Definition conversationOf (direct : option (list Thread))
    (embedded : option ConversationEmbedded) : Conversation :=
  {| conversation_id := 123456789; number := 42; subject := lit "Invoice";
     status := lit "active"; createdAt := lit "2024-03-01T09:00:00Z";
     modifiedAt := lit "2024-03-01T10:00:00Z";
     closedAt := None; mailbox := Some {| mailbox_id := 3; mailbox_name := lit "Support" |};
     createdBy := None; primaryCustomer := Some (person "Ada" "ada@example.com");
     threads := direct; conversation_embedded := embedded |}.

Definition ticket : Conversation :=
  conversationOf None (Some {| embedded_threads := [question; answer] |}).

(** The token endpoint grants a token for two days; the API serves the
    ticket; any other address is not found. *)
Definition grant : value :=
  VObj [ (lit "access_token", VStr (lit "fresh"));
         (lit "refresh_token", VStr (lit "again"));
         (lit "token_type", VStr (lit "bearer"));
         (lit "expires_in", VNum (Int 172800)) ].

Definition answerTo (req : Request) : Response :=
  if streq (url req) tokenUrl then
    {| ok := true; statusText := lit "OK"; text := []; json := Some grant;
       conversation := None; bytes := []; elapsed := 25 |}
  else if streq (firstn (length Client.baseUrl) (url req)) Client.baseUrl then
    {| ok := true; statusText := lit "OK"; text := []; json := None;
       conversation := Some ticket; bytes := []; elapsed := 40 |}
  else
    {| ok := false; statusText := lit "Not Found"; text := lit "not found"; json := None;
       conversation := None; bytes := []; elapsed := 10 |}.

(** The runtime of the samples.  It is in the zone UTC and reads the
    texts of the date format, and no other text, as dates (the standard
    leaves the other texts to the engine).  The rest stands
    in for the engine on the sample data only: a date is shown as the
    text it was given and an instant as its milliseconds, a text is its
    own lower case (the types of the sample threads are in lower case),
    a path is joined with a slash, and no string or object is read as a
    number. *)
Definition runtime : Runtime :=
  {| formatDateLocale := fun s => s;
     dateTime := Dates.parse 0;
     toLowerCase := fun s => s;
     pathJoin := fun a b => a ++ lit "/" ++ b;
     toISOString := ofZ;
     coerceToNumber := fun _ => NaN;
     server := fun _ req => answerTo req;
     writable := fun _ => true;
     startAuthServer := throw AuthorizationRejected |}.

Definition manager : OAuthManager :=
  {| appId := lit "app"; appSecret := lit "secret";
     redirectUri := lit "http://localhost:3698/auth" |}.

(** A stored record, and the world at a given time with it. *)
Definition record (refresh : string) (expiry : Z) : value :=
  VObj [ (lit "access_token", VStr (lit "cached"));
         (lit "refresh_token", VStr (lit refresh));
         (lit "token_type", VStr (lit "bearer"));
         (lit "expires_in", VNum (Int 172800));
         (lit "expires_at", VNum (Int expiry)) ].

Definition worldAt (time : Z) (file : option tokenFileContent) : World :=
  {| now := time; tokenFile := file; requests := []; written := [] |}.

End Example.

(** ** More sample data *)

Module Sample.
Import Js Json Sys Io Api OAuth.

(** An attachment that has a download link, in a thread of its own. *)
Definition photo : Attachment :=
  Example.attachment 8 "a photo.png" 2048 (Some (lit "https://files.example/8")).
Definition report : Thread :=
  Example.thread 3 "customer" (Some (Example.person "Ada" "ada@example.com"))
    "2024-03-01T09:00:00Z"
    None (Some {| embedded_attachments := [photo] |}).
Definition album : Conversation :=
  Example.conversationOf None (Some {| embedded_threads := [report] |}).

(** A network that serves the files too, and one that refuses every
    request. *)
Definition fileServer (req : Request) : Response :=
  if streq (firstn 22 (url req)) (lit "https://files.example/") then
    {| ok := true; statusText := lit "OK"; text := []; json := None;
       conversation := None; bytes := [137; 80; 78; 71]; elapsed := 15 |}
  else Example.answerTo req.

Definition refusal : Response :=
  {| ok := false; statusText := lit "Forbidden"; text := lit "denied"; json := None;
     conversation := None; bytes := []; elapsed := 5 |}.

Definition withServer (answer : Request -> Response) : Runtime :=
  {| formatDateLocale := fun s => s;
     dateTime := Dates.parse 0;
     toLowerCase := fun s => s;
     pathJoin := fun a b => a ++ lit "/" ++ b;
     toISOString := ofZ;
     coerceToNumber := fun _ => NaN;
     server := fun _ req => answer req;
     writable := fun _ => true;
     startAuthServer := ret (lit "code-1") |}.

Definition serving : Runtime := withServer fileServer.
Definition refusing : Runtime := withServer (fun _ => refusal).

(** A thread that lists two attachments under one identifier; the
    first of them has no download link. *)
Definition draft : Attachment := Example.attachment 7 "draft.pdf" 1536 None.
Definition final : Attachment :=
  Example.attachment 7 "final.pdf" 2048 (Some (lit "https://files.example/7")).
Definition revision : Thread :=
  Example.thread 1 "customer" (Some (Example.person "Ada" "ada@example.com"))
    "2024-03-01T09:00:00Z" None (Some {| embedded_attachments := [draft; final] |}).
Definition revised : Conversation :=
  Example.conversationOf None (Some {| embedded_threads := [revision] |}).

(** The network that serves the files, with the conversation [c] in the
    place of the ticket. *)
Definition serverOf (c : Conversation) (req : Request) : Response :=
  let r := fileServer req in
  {| ok := ok r; statusText := statusText r; text := text r; json := json r;
     conversation := match conversation r with
                     | Some _ => Some c
                     | None => None
                     end;
     bytes := bytes r; elapsed := elapsed r |}.

Definition servingOf (c : Conversation) : Runtime := withServer (serverOf c).

(** The world at a given time, with a stored record that is not due. *)
Definition signedIn (time : Z) : World :=
  Example.worldAt time (Some (Parsed (Example.record "keep" 100000000))).

End Sample.

(** * The vocabulary of the statements *)

(** ** File names *)

Module FilenameSpec.
Import Js Regex Filename.

Definition us : char -> bool := eqc underscore.

(** No two underscores side by side. *)
Fixpoint single (s : str) : bool :=
  match s with
  | c :: t => negb (us c && match t with d :: _ => us d | [] => false end) && single t
  | [] => true
  end.

Definition startsWithUs (s : str) : bool :=
  match s with c :: _ => us c | [] => false end.

(** A text without the underscores at its end. *)
Fixpoint stripEnd (s : str) : str :=
  match s with
  | [] => []
  | c :: t => if forallb us s then [] else c :: stripEnd t
  end.

(** The third and the fourth pattern of [sanitizeFilename]. *)
Definition collapse : regex := [[atLeast 2 us]].
Definition ends : regex := [[Bol; plus us]; [plus us; Eol]].

Definition safe (c : N) : Prop := unsafeChar c = false.

End FilenameSpec.

(** ** Conversation references, read without the matcher *)

Module LinkSpec.
Import Js Regex.

(** [s] without its prefix [p]. *)
Fixpoint stripPrefix (p s : str) : option str :=
  match p, s with
  | [], _ => Some s
  | a :: p', b :: s' => if N.eqb b a then stripPrefix p' s' else None
  | _ :: _, [] => None
  end.

Fixpoint takeWhile (p : char -> bool) (s : str) : str :=
  match s with
  | c :: t => if p c then c :: takeWhile p t else []
  | [] => []
  end.

(** The digits at the head of [s] after [marker], when there are some. *)
Definition idHere (marker s : str) : option str :=
  match stripPrefix marker s with
  | Some r => match takeWhile isDigit r with
              | [] => None
              | id => Some id
              end
  | None => None
  end.

(** The digits after the leftmost place of [s] where [marker] stands
    before a digit. *)
Fixpoint idAfter (marker s : str) : option str :=
  match idHere marker s with
  | Some id => Some id
  | None => match s with
            | [] => None
            | _ :: t => idAfter marker t
            end
  end.

Definition noDigit (s : str) : bool := forallb (fun c => negb (isDigit c)) s.

Definition startsWithDigit (s : str) : bool :=
  match s with
  | c :: _ => isDigit c
  | [] => false
  end.

(** The third pattern of [extractConversationId]. *)
Definition whole : regex := [[Bol; Cap isDigit 1 None; Eol]].

End LinkSpec.

(** ** File sizes *)

Module SizeSpec.
Import Js.



End SizeSpec.

(** ** Thread statistics *)

Module StatsSpec.
Import Js Api Markdown.

(** The threads the loop counts as customer messages and as support replies. *)
Definition customerMessage (thread : Thread) : bool :=
  negb (isNote thread) && isCustomerThread thread.
Definition supportReply (thread : Thread) : bool :=
  negb (isNote thread) && negb (isCustomerThread thread) && isReplyType thread.





End StatsSpec.

(** ** The token record *)

Module TokenSpec.
Import Js.

(** The names of the fields of a token record. *)
Definition fields : list str :=
  [ lit "access_token"; lit "refresh_token"; lit "token_type";
    lit "expires_in"; lit "expires_at" ].

(** The expiry of a record issued at [issued] for [lifetime] seconds is
    computed on doubles: the product and the sum are the exact integers
    when they stay within 2^53. *)
Definition exactExpiry (issued lifetime : Z) : bool :=
  (Z.abs issued + Z.abs lifetime * 1000 <=? 2 ^ 53)%Z.

End TokenSpec.

(** ** The run over the attachments *)

Module RunSpec.
Import Js Regex Json Sys Io Api OAuth Client Markdown Commands.

(** The attachments of the threads, in the order of the two loops. *)
Definition pairs (threads : list Thread) : list (Thread * Attachment) :=
  flat_map (fun thread => List.map (pair thread) (attachmentsOf thread)) threads.

(** What happens to each attachment at its turn: the outcome of the
    body of its [try], from the world the attachments before it left. *)
Fixpoint attempts {rt : Runtime} (oauth : OAuthManager) (conversationId attachmentsDir : str)
    (todo : list (Thread * Attachment)) (w : World)
    : list (Thread * Attachment * result (str * str)) * World :=
  match todo with
  | [] => ([], w)
  | (thread, attachment) :: rest =>
      let '(outcome, w') :=
        fetchAttachment oauth conversationId attachmentsDir thread attachment w in
      let '(log, w'') := attempts oauth conversationId attachmentsDir rest w' in
      ((thread, attachment, outcome) :: log, w'')
  end.

(** The key of an attachment in the path index. *)
Definition keyOf (p : Thread * Attachment) : str :=
  pathKey (thread_id (fst p)) (attachment_id (snd p)).

Definition failed {A} (outcome : result A) : Prop :=
  match outcome with
  | Ok _ => False
  | Throw _ => True
  end.

(** The entry of the transcript for an attachment without a local path. *)
Definition bareLine (attachment : Attachment) : str :=
  lit "- " ++ filename attachment ++ lit " (" ++ formatFileSize (size attachment) ++ lit ")".

(** The index that a sequence of outcomes builds. *)
Definition indexOf (log : list (Thread * Attachment * result (str * str)))
    (acc : gmap (list N) (list N)) : gmap (list N) (list N) :=
  fold_left (fun acc e => match snd e with
                          | Ok entry => <[fst entry := snd entry]> acc
                          | Throw _ => acc
                          end) log acc.

End RunSpec.

(** ** Runs of a class in a text *)

Module TextSpec.
Import Js.

(** Whether the first [n] code units of [s] are there and in the class. *)
Fixpoint prefixIn (p : char -> bool) (n : nat) (s : str) : bool :=
  match n with
  | O => true
  | S n' => match s with
            | c :: t => p c && prefixIn p n' t
            | [] => false
            end
  end.

(** Whether [n] code units of the class stand side by side in [s]. *)
Fixpoint hasRun (p : char -> bool) (n : nat) (s : str) : bool :=
  prefixIn p n s ||
  match s with
  | [] => false
  | _ :: t => hasRun p n t
  end.

(** Whether [s] begins, or ends, with a code unit of the class. *)
Definition startsIn (p : char -> bool) (s : str) : bool :=
  match s with c :: _ => p c | [] => false end.
Definition endsIn (p : char -> bool) (s : str) : bool := startsIn p (rev s).

End TextSpec.

(** ** Tags *)

Module TagSpec.
Import Js Regex.

(** The pattern of [cleanHtml] for the tags that are left. *)
Definition tag : regex := [[one (eqc 60); plus (neqc 62); one (eqc 62)]].

(** Whether a tag stands at the head of [s]: a less-than sign, a code
    unit other than the greater-than sign, and a greater-than sign
    somewhere after them. *)
Definition tagAt (s : str) : bool :=
  match s with
  | c :: d :: t => eqc 60 c && neqc 62 d && existsb (eqc 62) t
  | _ => false
  end.

(** Whether a tag stands somewhere in [s]. *)
Fixpoint hasTag (s : str) : bool :=
  tagAt s ||
  match s with
  | [] => false
  | _ :: t => hasTag t
  end.

End TagSpec.

(** ** The content of a file name *)

Module NameSpec.
Import Js Filename FilenameSpec.

(** The code units of a name that [sanitizeFilename] keeps as they are. *)
Definition kept (c : char) : bool := negb (unsafeChar c || isSpace c || us c).

End NameSpec.

(** ** The classes of the threads *)

Module CountSpec.
Import Js Api Markdown StatsSpec.

(** The threads that the loop counts in none of its three classes. *)
Definition uncounted (thread : Thread) : bool :=
  negb (isNote thread) && negb (isCustomerThread thread) && negb (isReplyType thread).

End CountSpec.

(** ** The answer of the token endpoint *)

Module GrantSpec.
Import Js Json Sys OAuth TokenSpec.

(** The token record that the answer [o] of the token endpoint makes,
    issued at [issued]: none when one of its four fields is missing or
    of another type. *)
Definition grantRecord (o : list (str * value)) (issued : Z) : option TokenData :=
  match asString (get (lit "access_token") o),
        asString (get (lit "refresh_token") o),
        asString (get (lit "token_type") o),
        asNumber (get (lit "expires_in") o) with
  | Some a, Some r, Some t, Some i =>
      Some {| access_token := a; refresh_token := r; token_type := t;
              expires_in := i; expires_at := (issued + i * 1000)%Z |}
  | _, _, _, _ => None
  end.

(** Whether the expiry of the answer [o], issued at [issued], is
    computed exactly. *)
Definition exactGrant (o : list (str * value)) (issued : Z) : bool :=
  match asNumber (get (lit "expires_in") o) with
  | Some i => exactExpiry issued i
  | None => true
  end.

(** The token file of [w] holds the answer [data] of the token
    endpoint, stored at the time of [w]: an object that has the
    lifetime of the answer and the expiry computed from it and from the
    time of [w], and that [TokenSchema] reads as the record of the
    answer with that expiry; and whatever record the file is read as
    has the expiry computed from its lifetime and from the time of
    [w]. *)
Definition holdsGrant (data : value) (w : World) : Prop :=
  exists o,
    tokenFile w = Some (Parsed (VObj o))
    /\ (forall answer i,
          data = VObj answer -> get (lit "expires_in") answer = Some (VNum (Int i)) ->
          exactExpiry (now w) i = true ->
          get (lit "expires_in") o = Some (VNum (Int i))
          /\ get (lit "expires_at") o = Some (VNum (Int (now w + i * 1000))))
    /\ (forall answer,
          data = VObj answer -> exactGrant answer (now w) = true ->
          TokenSchema_parse (VObj o) = grantRecord answer (now w))
    /\ (forall r,
          TokenSchema_parse (VObj o) = Some r -> exactExpiry (now w) (expires_in r) = true ->
          expires_at r = (now w + expires_in r * 1000)%Z).

End GrantSpec.

(** ** The calls of the client *)

Module CallSpec.
Import Js Json Sys Client.

(** The call that [request] makes with a token. *)
Definition apiRequest (token : option value) (endpoint : str) : Request :=
  {| url := baseUrl ++ endpoint;
     method := lit "GET";
     headers := [ (lit "Authorization", Bearer token);
                  (lit "Content-Type", Plain (lit "application/json")) ];
     form := [] |}.

(** The call that [downloadAttachment] makes with a token. *)
Definition dataRequest (token : option value) (address : str) : Request :=
  {| url := address;
     method := lit "GET";
     headers := [ (lit "Authorization", Bearer token) ];
     form := [] |}.

End CallSpec.

(** ** Encoded values *)

Module UrlSpec.
Import Js Authorization.

(** A text of UTF-16 code units. *)
Definition codeUnits (s : str) : bool := forallb (fun c => c <? 65536) s.

(** The code units that an encoded value may hold: the ones left as
    they are, the percent sign and the plus sign. *)
Definition urlSafe (c : char) : bool := formSafe c || N.eqb c 37 || N.eqb c 43.

End UrlSpec.

(** ** The files of the attachments *)

Module FileSpec.
Import Js Api Markdown Filename.

(** The name of the file of an attachment, and the entry of the
    transcript for an attachment with a local path. *)
Definition uniqueName (thread : Thread) (attachment : Attachment) : str :=
  ofZ (thread_id thread) ++ lit "_" ++ ofZ (attachment_id attachment)
  ++ lit "_" ++ sanitizeFilename (filename attachment).

Definition linkLine (attachment : Attachment) (localPath : str) : str :=
  lit "- [" ++ filename attachment ++ lit "](" ++ localPath ++ lit ") ("
  ++ formatFileSize (size attachment) ++ lit ")".

End FileSpec.

(** ** The lines of the transcript *)

Module TranscriptSpec.
Import Js.

(** [text.startsWith(part)] and [text.includes(part)] *)
Fixpoint startsWith (part text : str) : bool :=
  match part, text with
  | [], _ => true
  | a :: p, b :: t => N.eqb b a && startsWith p t
  | _ :: _, [] => false
  end.

Fixpoint includes (part text : str) : bool :=
  startsWith part text
  || match text with
     | [] => false
     | _ :: t => includes part t
     end.

(** Whether [line] stands in [text] between two line feeds. *)
Definition hasLine (text line : str) : bool := includes (nl ++ line ++ nl) text.

(** [x] stands in [l] after an element and before an element. *)
Definition inside {A} (x : A) (l : list A) : Prop :=
  exists l1 l2, l = l1 ++ x :: l2 /\ l1 <> [] /\ l2 <> [].

End TranscriptSpec.

(** * Facts *)

(** ** The matcher *)

Module RegexFacts.
Import Js Regex.

Lemma run_le p hi s : (run p hi s <= length s)%nat.
Proof.
  revert hi; induction s as [|c t IH]; intros hi.
  - destruct hi as [[|h]|]; simpl; lia.
  - destruct hi as [[|h]|]; simpl; try lia.
    + destruct (p c); [specialize (IH (Some h)) | ]; lia.
    + destruct (p c); [specialize (IH None) | ]; lia.
Qed.

Lemma backtrack_sound {A} (f : nat -> option A) lo n k r :
  backtrack f lo n = Some (k, r) ->
  (lo <= k <= n)%nat /\ f k = Some r.
Proof.
  induction n as [|n IH]; simpl.
  - destruct (Nat.ltb_spec 0 lo); [discriminate|].
    destruct (f 0%nat) eqn:E; [|discriminate].
    intros [= <- <-]. split; [lia | exact E].
  - destruct (Nat.ltb_spec (S n) lo); [discriminate|].
    destruct (f (S n)) eqn:E.
    + intros [= <- <-]. split; [lia | exact E].
    + intros Hb. destruct (IH Hb) as [? ?]. split; [lia | assumption].
Qed.

Lemma backtrack_first {A} (f : nat -> option A) lo n r :
  (lo <= n)%nat -> f n = Some r -> backtrack f lo n = Some (n, r).
Proof.
  intros Hle Hf. destruct n; simpl.
  - destruct (Nat.ltb_spec 0 lo); [lia|]. now rewrite Hf.
  - destruct (Nat.ltb_spec (S n) lo); [lia|]. now rewrite Hf.
Qed.

Lemma backtrack_none {A} (f : nat -> option A) lo n :
  (forall k, (lo <= k <= n)%nat -> f k = None) -> backtrack f lo n = None.
Proof.
  induction n as [|n IH]; intros Hf; simpl.
  - destruct (Nat.ltb_spec 0 lo); [reflexivity|].
    rewrite Hf by lia. reflexivity.
  - destruct (Nat.ltb_spec (S n) lo); [reflexivity|].
    rewrite Hf by lia. apply IH. intros k Hk. apply Hf. lia.
Qed.

Lemma backtrack_below {A} (f : nat -> option A) lo n :
  (n < lo)%nat -> backtrack f lo n = None.
Proof. intros H. apply backtrack_none. intros k Hk. lia. Qed.

(** A match is never longer than the text. *)
Lemma matchSeq_length ns : forall bos s len caps,
  matchSeq ns bos s = Some (len, caps) -> (len <= length s)%nat.
Proof.
  induction ns as [|n r IH]; intros bos s len caps; simpl.
  - intros [= <- <-]. lia.
  - destruct n as [p lo hi | p lo hi | | ].
    + destruct (backtrack _ lo (run p hi s)) as [[k [len' caps']]|] eqn:E; [|discriminate].
      intros [= <- <-]. apply backtrack_sound in E as [Hk Hm].
      apply IH in Hm. rewrite length_skipn in Hm.
      pose proof (run_le p hi s). lia.
    + destruct (backtrack _ lo (run p hi s)) as [[k [len' caps']]|] eqn:E; [|discriminate].
      intros [= <- <-]. apply backtrack_sound in E as [Hk Hm].
      apply IH in Hm. rewrite length_skipn in Hm.
      pose proof (run_le p hi s). lia.
    + destruct bos; [apply IH | discriminate].
    + destruct s; [apply IH | discriminate].
Qed.

Lemma matchAt_length re : forall bos s len caps,
  matchAt re bos s = Some (len, caps) -> (len <= length s)%nat.
Proof.
  induction re as [|ns alts IH]; intros bos s len caps; simpl; [discriminate|].
  destruct (matchSeq ns bos s) as [[l c]|] eqn:E.
  - intros [= <- <-]. eapply matchSeq_length; eauto.
  - apply IH.
Qed.

(** Skipping the rest of a match. *)
Lemma replaceGo_skip re tpl : forall k s bos,
  (S k <= length s)%nat ->
  replaceGo re tpl bos (S k) s = replaceGo re tpl false O (skipn (S k) s).
Proof.
  induction k as [|k IH]; intros s bos Hk; destruct s as [|c t];
    simpl in Hk; try lia.
  - reflexivity.
  - change (replaceGo re tpl bos (S (S k)) (c :: t))
      with (replaceGo re tpl false (S k) t).
    rewrite IH by lia. reflexivity.
Qed.

(** The equations of a global replacement. *)
Lemma replaceGo_nil re tpl bos :
  matchAt re bos [] = None -> replaceGo re tpl bos O [] = [].
Proof. simpl. now intros ->. Qed.

Lemma replaceGo_miss re tpl bos c t :
  matchAt re bos (c :: t) = None ->
  replaceGo re tpl bos O (c :: t) = c :: replaceGo re tpl false O t.
Proof. simpl. now intros ->. Qed.

Lemma replaceGo_hit re tpl bos s k caps :
  matchAt re bos s = Some (S k, caps) ->
  replaceGo re tpl bos O s =
  expand tpl (firstn (S k) s) caps ++ replaceGo re tpl false O (skipn (S k) s).
Proof.
  intros Hm. pose proof (matchAt_length _ _ _ _ _ Hm) as Hlen.
  destruct s as [|c t]; [simpl in Hlen; lia|].
  change (replaceGo re tpl bos 0 (c :: t))
    with (match matchAt re bos (c :: t) with
          | Some (len, caps) =>
              expand tpl (firstn len (c :: t)) caps ++
              match len with
              | O => c :: replaceGo re tpl false O t
              | S k => replaceGo re tpl false k t
              end
          | None => c :: replaceGo re tpl false O t
          end).
  rewrite Hm. f_equal.
  destruct k as [|k]; [reflexivity|].
  simpl in Hlen. rewrite replaceGo_skip by lia. reflexivity.
Qed.


(** The run of a class at the head of a text. *)
Lemma run_zero p s : run p (Some O) s = O.
Proof. destruct s; reflexivity. Qed.

Lemma run_none_spec p s :
  let n := run p None s in
  forallb p (firstn n s) = true /\
  match skipn n s with c :: _ => p c = false | [] => True end.
Proof.
  induction s as [|c t IH]; simpl; [split; [reflexivity | exact I]|].
  destruct (p c) eqn:E; simpl.
  - rewrite E. simpl. exact IH.
  - split; [reflexivity | exact E].
Qed.

Lemma run_all p s : forallb p s = true -> run p None s = length s.
Proof.
  induction s as [|c t IH]; simpl; [reflexivity|].
  intros [Hc Ht]%andb_prop. rewrite Hc. f_equal. auto.
Qed.

Lemma run_not_all p s : forallb p s = false -> (run p None s < length s)%nat.
Proof.
  induction s as [|c t IH]; simpl; [discriminate|].
  destruct (p c); simpl; [|lia]. intros H. apply IH in H. lia.
Qed.

Lemma dropWhile_run p s : dropWhile p s = skipn (run p None s) s.
Proof.
  induction s as [|c t IH]; simpl; [reflexivity|].
  destruct (p c); [exact IH | reflexivity].
Qed.


(** One code unit of a class. *)
Lemma matchSeq_one p r bos s :
  matchSeq (one p :: r) bos s =
  match s with
  | c :: t =>
      if p c then
        match matchSeq r false t with
        | Some (len, caps) => Some (S len, caps)
        | None => None
        end
      else None
  | [] => None
  end.
Proof.
  unfold one.
  change (matchSeq (Rep p 1 (Some 1%nat) :: r) bos s)
    with (match backtrack (fun k => matchSeq r (bos && Nat.eqb k 0) (skipn k s)) 1
                  (run p (Some 1%nat) s) with
          | Some (k, (len, caps)) => Some ((k + len)%nat, caps)
          | None => None
          end).
  destruct s as [|c t]; [reflexivity|].
  simpl run. destruct (p c); [|reflexivity].
  rewrite run_zero. simpl backtrack. rewrite andb_false_r.
  change (skipn 0 t) with t.
  destruct (matchSeq r false t) as [[len caps]|]; reflexivity.
Qed.

End RegexFacts.

(** ** File names *)

Module FilenameFacts.
Import Js Regex RegexFacts Filename FilenameSpec.

(** *** First replacement: every unsafe code unit becomes an underscore *)

Lemma matchAt_one p bos c t :
  matchAt [[one p]] bos (c :: t) = if p c then Some (1%nat, []) else None.
Proof.
  unfold matchAt, matchSeq, one. simpl run.
  destruct (p c); [rewrite run_zero|]; reflexivity.
Qed.

Lemma step1_spec s : forall bos,
  replaceGo [[one unsafeChar]] [underscore] bos O s =
  List.map (fun c => if unsafeChar c then underscore else c) s.
Proof.
  induction s as [|c t IH]; intros bos.
  - reflexivity.
  - destruct (unsafeChar c) eqn:E.
    + rewrite (replaceGo_hit _ _ _ _ 0 []) by (rewrite matchAt_one, E; reflexivity).
      simpl. rewrite E. f_equal. apply IH.
    + rewrite replaceGo_miss by (rewrite matchAt_one, E; reflexivity).
      simpl. rewrite E. f_equal. apply IH.
Qed.

Lemma step1_safe s :
  forallb (fun c => negb (unsafeChar c)) (replaceAll [[one unsafeChar]] [underscore] s) = true.
Proof.
  unfold replaceAll. rewrite step1_spec.
  induction s as [|c t IH]; simpl; [reflexivity|].
  rewrite IH, andb_true_r. destruct (unsafeChar c) eqn:E; [reflexivity | now rewrite E].
Qed.

(** *** Any replacement: the code units of the result come from the
    text and from the template *)

Section Preserve.
Variable P : char -> Prop.

Lemma expand_cons d t matched caps :
  expand (d :: t) matched caps =
  if N.eqb d 36 then
    match t with
    | [] => [d]
    | c :: t' =>
        if N.eqb c 36 then 36 :: expand t' matched caps
        else if N.eqb c 38 then matched ++ expand t' matched caps
        else if (49 <=? c) && (c <=? 57) then
          match nth_error caps (N.to_nat (c - 49)) with
          | Some cap => cap ++ expand t' matched caps
          | None => d :: expand t matched caps
          end
        else d :: expand t matched caps
    end
  else d :: expand t matched caps.
Proof. reflexivity. Qed.

Lemma expand_Forall tpl : forall matched caps,
  Forall P tpl -> Forall P matched -> Forall (Forall P) caps ->
  Forall P (expand tpl matched caps).
Proof.
  induction tpl as [tpl IH] using (induction_ltof1 _ (@length char)); unfold ltof in IH.
  intros matched caps Ht Hm Hc.
  destruct tpl as [|d t]; [constructor|].
  inversion Ht as [|? ? Hd Ht']; subst.
  rewrite expand_cons. destruct (N.eqb d 36).
  - destruct t as [|c t']; [repeat constructor; assumption|].
    inversion Ht' as [|? ? Hc' Ht'']; subst.
    assert (Forall P (expand t' matched caps)) by (apply IH; simpl; auto; lia).
    assert (Forall P (expand (c :: t') matched caps)) by (apply IH; simpl; auto; lia).
    destruct (N.eqb_spec c 36); [subst; constructor; assumption|].
    destruct (N.eqb c 38); [apply Forall_app; split; assumption|].
    destruct ((49 <=? c) && (c <=? 57)); [|constructor; assumption].
    destruct (nth_error caps (N.to_nat (c - 49))) as [cap|] eqn:E; [|constructor; assumption].
    apply Forall_app; split; [|assumption].
    rewrite List.Forall_forall in Hc. apply Hc. eapply nth_error_In; eauto.
  - constructor; [assumption|]. apply IH; simpl; auto.
Qed.

Lemma Forall_firstn (n : nat) (s : str) : Forall P s -> Forall P (firstn n s).
Proof. intros H. rewrite <- (firstn_skipn n s) in H. now apply Forall_app in H. Qed.

Lemma Forall_skipn (n : nat) (s : str) : Forall P s -> Forall P (skipn n s).
Proof. intros H. rewrite <- (firstn_skipn n s) in H. now apply Forall_app in H. Qed.

Lemma matchSeq_caps ns : forall bos s len caps,
  Forall P s -> matchSeq ns bos s = Some (len, caps) -> Forall (Forall P) caps.
Proof.
  induction ns as [|n r IH]; intros bos s len caps Hs; simpl.
  - intros [= <- <-]. constructor.
  - destruct n as [p lo hi | p lo hi | | ].
    + destruct (backtrack _ lo (run p hi s)) as [[k [len' caps']]|] eqn:E; [|discriminate].
      intros [= <- <-]. apply backtrack_sound in E as [_ Hm].
      eapply IH; [|exact Hm]. now apply Forall_skipn.
    + destruct (backtrack _ lo (run p hi s)) as [[k [len' caps']]|] eqn:E; [|discriminate].
      intros [= <- <-]. apply backtrack_sound in E as [_ Hm].
      constructor; [now apply Forall_firstn|].
      eapply IH; [|exact Hm]. now apply Forall_skipn.
    + destruct bos; [now apply IH | discriminate].
    + destruct s; [now apply IH | discriminate].
Qed.

Lemma matchAt_caps re : forall bos s len caps,
  Forall P s -> matchAt re bos s = Some (len, caps) -> Forall (Forall P) caps.
Proof.
  induction re as [|ns alts IH]; intros bos s len caps Hs; simpl; [discriminate|].
  destruct (matchSeq ns bos s) as [[l c]|] eqn:E.
  - intros [= <- <-]. eapply matchSeq_caps; eauto.
  - now apply IH.
Qed.

Lemma replaceGo_Forall re tpl : Forall P tpl -> forall s bos k,
  Forall P s -> Forall P (replaceGo re tpl bos k s).
Proof.
  intros Ht. induction s as [|c t IH]; intros bos k Hs.
  - destruct k; simpl; [|constructor].
    destruct (matchAt re bos []) as [[len caps]|] eqn:E; [|constructor].
    rewrite app_nil_r. apply expand_Forall; auto.
    + destruct len; constructor.
    + eapply matchAt_caps; eauto.
  - inversion Hs as [|? ? Hc Ht']; subst.
    destruct k; simpl; [|now apply IH].
    destruct (matchAt re bos (c :: t)) as [[len caps]|] eqn:E.
    + apply Forall_app; split.
      * apply expand_Forall; auto.
        { now apply (Forall_firstn len (c :: t)). }
        { exact (matchAt_caps re bos (c :: t) len caps Hs E). }
      * destruct len; [constructor; auto|]; now apply IH.
    + constructor; auto.
Qed.

End Preserve.

(** *** Third replacement: a run of underscores becomes one *)

Lemma matchAt_collapse bos s :
  matchAt collapse bos s =
  if (2 <=? run us None s)%nat then Some (run us None s, []) else None.
Proof.
  unfold collapse, matchAt, matchSeq, atLeast.
  destruct (Nat.leb_spec 2 (run us None s)) as [H|H].
  - rewrite (backtrack_first _ _ _ (O, [])) by (auto; lia).
    now rewrite Nat.add_0_r.
  - now rewrite backtrack_below by lia.
Qed.

Lemma step3_single : forall s bos,
  let out := replaceGo collapse [underscore] bos O s in
  single out = true /\ (startsWithUs s = false -> startsWithUs out = false).
Proof.
  induction s as [s IH] using (induction_ltof1 _ (@length N)); unfold ltof in IH.
  intros bos out. subst out.
  pose proof (matchAt_collapse bos s) as Hm.
  destruct (Nat.leb_spec 2 (run us None s)) as [Hn|Hn].
  - destruct (run us None s) as [|k] eqn:Hrun; [lia|].
    rewrite (replaceGo_hit _ _ _ _ _ _ Hm).
    pose proof (run_none_spec us s) as [_ Hnext]. simpl in Hnext. rewrite Hrun in Hnext.
    pose proof (run_le us None s) as Hle. rewrite Hrun in Hle.
    destruct (IH (skipn (S k) s) ltac:(rewrite length_skipn; lia) false) as [Hs Hh].
    assert (Hstart : startsWithUs (skipn (S k) s) = false)
      by (destruct (skipn (S k) s); [reflexivity | exact Hnext]).
    specialize (Hh Hstart).
    change (expand [underscore] (firstn (S k) s) []) with [underscore].
    split.
    + simpl. rewrite Hs, andb_true_r.
      destruct (replaceGo collapse [underscore] false 0 (skipn (S k) s)); simpl in *;
        [reflexivity | now rewrite Hh].
    + destruct s as [|c t]; [discriminate Hrun|].
      simpl in Hrun. simpl. destruct (us c); [discriminate | discriminate Hrun].
  - destruct s as [|c t].
    + rewrite replaceGo_nil by exact Hm. split; reflexivity.
    + rewrite replaceGo_miss by exact Hm.
      destruct (IH t ltac:(simpl; lia) false) as [Hs Hh].
      split.
      * simpl. rewrite Hs, andb_true_r.
        destruct (us c) eqn:Hc; [|reflexivity].
        simpl in Hn. rewrite Hc in Hn.
        assert (Ht : startsWithUs t = false).
        { destruct t as [|d u]; [reflexivity|]. simpl in *.
          destruct (us d); [lia | reflexivity]. }
        specialize (Hh Ht).
        destruct (replaceGo collapse [underscore] false 0 t); [reflexivity|].
        simpl in Hh. now rewrite Hh.
      * simpl. auto.
Qed.

(** *** Fourth replacement: the underscores at both ends go *)

Lemma matchAt_ends_inner s :
  matchAt ends false s =
  match s with
  | [] => None
  | _ :: _ => if forallb us s then Some (length s, []) else None
  end.
Proof.
  unfold ends, matchAt, matchSeq, plus.
  destruct s as [|c t]; [reflexivity|].
  destruct (forallb us (c :: t)) eqn:Hall.
  - rewrite (run_all _ _ Hall).
    rewrite (backtrack_first _ _ _ (O, [])).
    + now rewrite Nat.add_0_r.
    + simpl; lia.
    + now rewrite skipn_all.
  - pose proof (run_not_all _ _ Hall) as Hlt.
    rewrite backtrack_none; [reflexivity|].
    intros k Hk.
    destruct (skipn k (c :: t)) eqn:E; [|reflexivity].
    apply (f_equal (@length N)) in E. rewrite length_skipn in E.
    simpl length in *. lia.
Qed.

Lemma step4_inner s : replaceGo ends [] false O s = stripEnd s.
Proof.
  induction s as [|c t IH]; [reflexivity|].
  pose proof (matchAt_ends_inner (c :: t)) as Hm.
  cbv beta iota in Hm. unfold stripEnd; fold stripEnd.
  destruct (forallb us (c :: t)).
  - change (length (c :: t)) with (S (length t)) in Hm.
    rewrite (replaceGo_hit _ _ _ _ _ _ Hm).
    change (skipn (S (length t)) (c :: t)) with (skipn (length t) t).
    rewrite skipn_all. reflexivity.
  - rewrite replaceGo_miss by exact Hm. now rewrite IH.
Qed.

Lemma matchAt_ends_outer s :
  matchAt ends true s =
  if (1 <=? run us None s)%nat then Some (run us None s, []) else None.
Proof.
  unfold ends, matchAt, matchSeq, plus.
  destruct (Nat.leb_spec 1 (run us None s)) as [H|H].
  - rewrite (backtrack_first _ _ _ (O, [])) by (auto; lia).
    now rewrite Nat.add_0_r.
  - rewrite !backtrack_below by lia. reflexivity.
Qed.

Lemma step4_spec s : replaceAll ends [] s = stripEnd (dropWhile us s).
Proof.
  unfold replaceAll. pose proof (matchAt_ends_outer s) as Hm.
  rewrite dropWhile_run.
  destruct (Nat.leb_spec 1 (run us None s)) as [H|H].
  - destruct (run us None s) as [|k] eqn:Hrun; [lia|].
    rewrite (replaceGo_hit _ _ _ _ _ _ Hm). simpl expand.
    apply step4_inner.
  - assert (Hrun : run us None s = O) by lia. rewrite Hrun.
    destruct s as [|c t]; [reflexivity|].
    rewrite replaceGo_miss by exact Hm. rewrite step4_inner.
    simpl in Hrun. simpl. destruct (us c); [discriminate | reflexivity].
Qed.

Lemma stripEnd_nil s : stripEnd s = [] -> forallb us s = true.
Proof.
  destruct s as [|c t]; [reflexivity|].
  unfold stripEnd; fold stripEnd.
  destruct (forallb us (c :: t)); [reflexivity | discriminate].
Qed.

Lemma stripEnd_last s : forall a, stripEnd s <> a ++ [underscore].
Proof.
  induction s as [|c t IH]; intros a.
  - destruct a; discriminate.
  - unfold stripEnd; fold stripEnd.
    destruct (forallb us (c :: t)) eqn:Hall; [destruct a; discriminate|].
    destruct a as [|d a']; simpl.
    + intros [= -> Ht]. apply stripEnd_nil in Ht.
      simpl in Hall. rewrite Ht in Hall. discriminate.
    + intros [= _ Ht]. exact (IH _ Ht).
Qed.

Lemma stripEnd_start s : startsWithUs s = false -> startsWithUs (stripEnd s) = false.
Proof.
  destruct s as [|c t]; [reflexivity|].
  unfold stripEnd; fold stripEnd.
  destruct (forallb us (c :: t)); [reflexivity | exact (fun H => H)].
Qed.

Lemma stripEnd_start_inv s : startsWithUs (stripEnd s) = true -> startsWithUs s = true.
Proof.
  destruct (startsWithUs s) eqn:E; [reflexivity|].
  now rewrite stripEnd_start.
Qed.

Lemma dropWhile_start s : startsWithUs (dropWhile us s) = false.
Proof.
  induction s as [|c t IH]; [reflexivity|].
  simpl. destruct (us c) eqn:E; [exact IH | exact E].
Qed.

Lemma single_tail c t : single (c :: t) = true -> single t = true.
Proof. simpl. now intros [_ H]%andb_prop. Qed.

Lemma single_dropWhile s : single s = true -> single (dropWhile us s) = true.
Proof.
  induction s as [|c t IH]; [reflexivity|].
  intros H. simpl. destruct (us c); [apply IH; eapply single_tail; eauto | exact H].
Qed.

Lemma single_stripEnd s : single s = true -> single (stripEnd s) = true.
Proof.
  induction s as [|c t IH]; [reflexivity|].
  intros H. unfold stripEnd; fold stripEnd.
  destruct (forallb us (c :: t)); [reflexivity|].
  pose proof (single_tail _ _ H) as Ht.
  change (single (c :: stripEnd t))
    with (negb (us c && startsWithUs (stripEnd t)) && single (stripEnd t)).
  change (single (c :: t)) with (negb (us c && startsWithUs t) && single t) in H.
  rewrite (IH Ht), andb_true_r.
  apply andb_prop in H as [H _].
  destruct (us c); [|reflexivity].
  destruct (startsWithUs (stripEnd t)) eqn:E; [|reflexivity].
  apply stripEnd_start_inv in E. now rewrite E in H.
Qed.

Lemma single_no_pair s : single s = true ->
  forall a b, s <> a ++ [underscore; underscore] ++ b.
Proof.
  intros H a. revert s H.
  induction a as [|d a IH]; intros s H b E; subst s.
  - discriminate H.
  - apply single_tail in H. exact (IH _ H b eq_refl).
Qed.

Lemma start_no_head s : startsWithUs s = false -> forall b, s <> underscore :: b.
Proof. intros H b ->. discriminate H. Qed.

Lemma sanitize_safe filename : Forall safe (sanitizeFilename filename).
Proof.
  unfold sanitizeFilename, replaceAll.
  do 3 (apply replaceGo_Forall; [repeat constructor|]).
  pose proof (step1_safe filename) as H. unfold replaceAll in H.
  apply List.Forall_forall. intros c Hc.
  rewrite forallb_forall in H. apply H in Hc.
  unfold safe. now destruct (unsafeChar c).
Qed.

End FilenameFacts.

(** ** Conversation references *)

Module LinkFacts.
Import Js Regex RegexFacts Link LinkSpec.

Lemma takeWhile_run p s : takeWhile p s = firstn (run p None s) s.
Proof.
  induction s as [|c t IH]; [reflexivity|].
  simpl. destruct (p c); [now rewrite IH | reflexivity].
Qed.

(** A literal before a captured run of digits. *)
Lemma matchSeq_marker l : forall bos s,
  option_map snd (matchSeq (List.map (fun c => one (eqc c)) l ++ [Cap isDigit 1 None]) bos s)
  = option_map (fun id => [id]) (idHere l s).
Proof.
  induction l as [|a l IH]; intros bos s.
  - unfold idHere. simpl stripPrefix. simpl List.map. simpl app.
    unfold matchSeq. rewrite takeWhile_run.
    destruct (run isDigit None s) as [|n] eqn:E.
    + rewrite backtrack_below by lia. destruct s; reflexivity.
    + rewrite (backtrack_first _ _ _ (O, [])) by (auto; lia).
      simpl option_map. unfold snd. destruct s as [|c t]; [discriminate E|]. reflexivity.
  - simpl List.map. simpl app. rewrite matchSeq_one.
    unfold idHere. destruct s as [|b t]; [reflexivity|].
    simpl stripPrefix. unfold eqc at 1.
    destruct (N.eqb b a); [|reflexivity].
    specialize (IH false t). unfold idHere in IH.
    destruct (matchSeq _ false t) as [[len caps]|]; simpl in *; exact IH.
Qed.

Lemma searchFrom_marker l : forall s bos,
  option_map (fun m => nth 1 m [])
    (searchFrom [List.map (fun c => one (eqc c)) l ++ [Cap isDigit 1 None]] bos s)
  = idAfter l s.
Proof.
  induction s as [|c t IH]; intros bos.
  - pose proof (matchSeq_marker l bos []) as H.
    unfold searchFrom, matchAt, idAfter.
    destruct (matchSeq _ bos []) as [[len caps]|]; destruct (idHere l []); simpl in *;
      try discriminate; try reflexivity.
    now injection H as ->.
  - pose proof (matchSeq_marker l bos (c :: t)) as H.
    unfold searchFrom; fold searchFrom. unfold matchAt. unfold idAfter; fold idAfter.
    destruct (matchSeq _ bos (c :: t)) as [[len caps]|]; destruct (idHere l (c :: t));
      simpl in H; try discriminate.
    + now injection H as ->.
    + apply IH.
Qed.

(** The third pattern: the whole text is a run of digits. *)
Lemma searchFrom_whole_inner s : searchFrom whole false s = None.
Proof. induction s as [|c t IH]; [reflexivity | exact IH]. Qed.

Lemma exec_whole s :
  exec whole s = if numeric s then Some [s; s] else None.
Proof.
  unfold exec, whole.
  destruct s as [|c t]; [reflexivity|].
  unfold searchFrom; fold searchFrom. unfold matchAt, matchSeq, numeric.
  fold whole. rewrite searchFrom_whole_inner.
  destruct (forallb isDigit (c :: t)) eqn:Hall.
  - rewrite (run_all _ _ Hall).
    rewrite (backtrack_first _ _ _ (O, [])).
    + rewrite Nat.add_0_r, firstn_all. reflexivity.
    + simpl; lia.
    + now rewrite skipn_all.
  - pose proof (run_not_all _ _ Hall) as Hlt.
    rewrite backtrack_none; [reflexivity|].
    intros k Hk.
    destruct (skipn k (c :: t)) eqn:E; [|reflexivity].
    apply (f_equal (@length N)) in E. rewrite length_skipn in E.
    simpl length in *. lia.
Qed.

(** The function, by the leftmost places of the two markers. *)
Lemma extract_spec link :
  extractConversationId link =
  match idAfter (lit "conversation/") link with
  | Some id => Ok id
  | None =>
      match idAfter (lit "conversations/") link with
      | Some id => Ok id
      | None => if numeric link then Ok link else Throw (CouldNotExtractId link)
      end
  end.
Proof.
  unfold extractConversationId, patterns, firstMatch, exec.
  pose proof (searchFrom_marker (lit "conversation/") link true) as H1.
  pose proof (searchFrom_marker (lit "conversations/") link true) as H2.
  unfold chars.
  destruct (searchFrom _ true link) as [m1|]; simpl in H1; rewrite <- H1; [reflexivity|].
  destruct (searchFrom _ true link) as [m2|]; simpl in H2; rewrite <- H2; [reflexivity|].
  pose proof (exec_whole link) as H3. unfold exec, whole in H3. rewrite H3.
  destruct (numeric link); reflexivity.
Qed.

Lemma takeWhile_all p s : forallb p (takeWhile p s) = true.
Proof.
  induction s as [|c t IH]; [reflexivity|].
  simpl. destruct (p c) eqn:E; [simpl; now rewrite E | reflexivity].
Qed.

Lemma idHere_numeric m s id : idHere m s = Some id -> numeric id = true.
Proof.
  unfold idHere. destruct (stripPrefix m s) as [r|]; [|discriminate].
  pose proof (takeWhile_all isDigit r) as H.
  destruct (takeWhile isDigit r); [discriminate|].
  intros [= <-]. exact H.
Qed.

Lemma idAfter_numeric m s id : idAfter m s = Some id -> numeric id = true.
Proof.
  induction s as [|c t IH]; unfold idAfter; fold idAfter.
  - destruct (idHere m []) eqn:E; [|discriminate].
    intros [= <-]. eapply idHere_numeric; eauto.
  - destruct (idHere m (c :: t)) eqn:E; [|exact IH].
    intros [= <-]. eapply idHere_numeric; eauto.
Qed.

(** A text that has not the first code unit of the marker has not the marker. *)
Lemma idAfter_without a m x : forall y,
  forallb (fun c => negb (N.eqb c a)) x = true ->
  idAfter (a :: m) (x ++ y) = idAfter (a :: m) y.
Proof.
  induction x as [|c x IH]; intros y H; [reflexivity|].
  simpl in H. apply andb_prop in H as [Hc Hx].
  change ((c :: x) ++ y) with (c :: (x ++ y)).
  unfold idAfter; fold idAfter. unfold idHere. simpl stripPrefix.
  destruct (N.eqb c a); [discriminate Hc|]. now apply IH.
Qed.

Lemma numeric_without a s :
  isDigit a = false -> numeric s = true -> forallb (fun c => negb (N.eqb c a)) s = true.
Proof.
  intros Ha Hs. assert (H : forallb isDigit s = true) by (destruct s; [discriminate | exact Hs]).
  clear Hs. induction s as [|c t IH]; [reflexivity|].
  simpl in *. apply andb_prop in H as [Hc Ht]. rewrite (IH Ht), andb_true_r.
  destruct (N.eqb_spec c a); [subst; congruence | reflexivity].
Qed.

Lemma stripPrefix_app m : forall r, stripPrefix m (m ++ r) = Some r.
Proof.
  induction m as [|a m IH]; intros r; [reflexivity|].
  simpl. now rewrite N.eqb_refl.
Qed.

Lemma stripPrefix_some m : forall s r, stripPrefix m s = Some r -> s = m ++ r.
Proof.
  induction m as [|a m IH]; intros s r; simpl.
  - now intros [= ->].
  - destruct s as [|b t]; [discriminate|].
    destruct (N.eqb_spec b a); [|discriminate].
    intros H. apply IH in H. now subst.
Qed.

(** Where the code unit after the marker would fall on a code unit
    that is not a digit, there is no identifier. *)
Lemma idHere_noDigit m x y :
  (length m < length x)%nat -> noDigit x = true -> idHere m (x ++ y) = None.
Proof.
  intros Hlen Hx. unfold idHere.
  destruct (stripPrefix m (x ++ y)) as [r|] eqn:E; [|reflexivity].
  apply stripPrefix_some in E.
  assert (Hr : r = skipn (length m) x ++ y).
  { apply (f_equal (skipn (length m))) in E.
    rewrite skipn_app in E. rewrite (skipn_app (length m) m) in E.
    rewrite skipn_all, Nat.sub_diag in E. simpl in E.
    replace (length m - length x)%nat with O in E by lia. now simpl in E. }
  subst r.
  destruct (skipn (length m) x) as [|c t] eqn:Es.
  - apply (f_equal (@length N)) in Es. rewrite length_skipn in Es. simpl in Es. lia.
  - assert (Hc : isDigit c = false).
    { unfold noDigit in Hx. rewrite forallb_forall in Hx.
      assert (In c x) as Hin.
      { rewrite <- (firstn_skipn (length m) x), Es. apply in_or_app. right. now left. }
      apply Hx in Hin. now destruct (isDigit c). }
    simpl. now rewrite Hc.
Qed.

Lemma noDigit_app x y : noDigit (x ++ y) = noDigit x && noDigit y.
Proof. apply forallb_app. Qed.

Lemma idAfter_noDigit m x : forall y,
  m <> [] -> noDigit x = true -> noDigit m = true ->
  idAfter m (x ++ m ++ y) = idAfter m (m ++ y).
Proof.
  induction x as [|c x IH]; intros y Hm Hx Hmm; [reflexivity|].
  change ((c :: x) ++ m ++ y) with (c :: (x ++ m ++ y)).
  unfold idAfter; fold idAfter.
  replace (c :: x ++ m ++ y) with ((c :: x ++ m) ++ y)
    by (simpl; now rewrite <- app_assoc).
  rewrite idHere_noDigit.
  - simpl in Hx. apply andb_prop in Hx as [_ Hx]. now apply IH.
  - simpl. rewrite length_app. lia.
  - change (c :: x ++ m) with ((c :: x) ++ m). rewrite noDigit_app, Hx, Hmm. reflexivity.
Qed.

Lemma takeWhile_id id rest :
  forallb isDigit id = true -> startsWithDigit rest = false ->
  takeWhile isDigit (id ++ rest) = id.
Proof.
  induction id as [|c id IH]; intros Hid Hrest.
  - destruct rest as [|c t]; [reflexivity|]. simpl in *. now rewrite Hrest.
  - simpl in *. apply andb_prop in Hid as [Hc Hid]. rewrite Hc. f_equal. now apply IH.
Qed.

Lemma idAfter_here m id rest :
  numeric id = true -> startsWithDigit rest = false ->
  idAfter m (m ++ id ++ rest) = Some id.
Proof.
  intros Hid Hrest.
  assert (H : idHere m (m ++ id ++ rest) = Some id).
  { unfold idHere. rewrite stripPrefix_app, takeWhile_id; auto.
    - destruct id; [discriminate | reflexivity].
    - destruct id; [discriminate | exact Hid]. }
  destruct (m ++ id ++ rest); unfold idAfter; fold idAfter; now rewrite H.
Qed.

Lemma idAfter_url m pre id rest :
  m <> [] -> noDigit m = true -> noDigit pre = true ->
  numeric id = true -> startsWithDigit rest = false ->
  idAfter m (pre ++ m ++ id ++ rest) = Some id.
Proof.
  intros. rewrite idAfter_noDigit by assumption. now apply idAfter_here.
Qed.

(** The first marker does not stand in a text that has the second one
    where the first would be, when it stands nowhere later. *)
Lemma idAfter_plural pre id rest :
  noDigit pre = true -> numeric id = true ->
  idAfter (lit "conversation/") rest = None ->
  idAfter (lit "conversation/") (pre ++ lit "conversations/" ++ id ++ rest) = None.
Proof.
  intros Hpre Hid Hrest.
  rewrite <- (app_nil_l (lit "conversations/" ++ id ++ rest)).
  assert (Hskip : forall x y, noDigit x = true ->
            idAfter (lit "conversation/") (x ++ lit "conversations/" ++ y)
            = idAfter (lit "conversation/") (lit "conversations/" ++ y)).
  { induction x as [|c x IH]; intros y Hx; [reflexivity|].
    change ((c :: x) ++ lit "conversations/" ++ y)
      with (c :: (x ++ lit "conversations/" ++ y)).
    unfold idAfter; fold idAfter.
    replace (c :: x ++ lit "conversations/" ++ y)
      with ((c :: x ++ lit "conversations/") ++ y)
      by (simpl; now rewrite <- app_assoc).
    rewrite idHere_noDigit.
    - simpl in Hx. apply andb_prop in Hx as [_ Hx]. now apply IH.
    - simpl. rewrite length_app. simpl. lia.
    - change (c :: x ++ lit "conversations/") with ((c :: x) ++ lit "conversations/").
      rewrite noDigit_app, Hx. reflexivity. }
  rewrite app_nil_l, Hskip by assumption.
  change (lit "conversations/" ++ id ++ rest)
    with (99 :: (lit "onversations/" ++ id ++ rest)).
  unfold idAfter; fold idAfter.
  change (99 :: lit "onversations/" ++ id ++ rest)
    with (lit "conversations/" ++ (id ++ rest)).
  rewrite idHere_noDigit by (simpl; try reflexivity; lia).
  rewrite app_assoc.
  change (lit "conversation/") with (99 :: lit "onversation/").
  rewrite idAfter_without; [exact Hrest|].
  rewrite forallb_app. rewrite (numeric_without 99 id) by (auto; reflexivity).
  reflexivity.
Qed.

Lemma idAfter_of_numeric m s :
  numeric s = true -> idAfter (99 :: m) s = None.
Proof.
  intros Hs. rewrite <- (app_nil_r s).
  rewrite idAfter_without by (apply numeric_without; [reflexivity | exact Hs]).
  reflexivity.
Qed.

Lemma extract_numeric s : numeric s = true -> extractConversationId s = Ok s.
Proof.
  intros Hs. rewrite extract_spec.
  change (lit "conversation/") with (99 :: lit "onversation/").
  change (lit "conversations/") with (99 :: lit "onversations/").
  rewrite !idAfter_of_numeric by exact Hs. now rewrite Hs.
Qed.

Lemma extract_output link id : extractConversationId link = Ok id -> numeric id = true.
Proof.
  rewrite extract_spec.
  destruct (idAfter (lit "conversation/") link) eqn:E1.
  - intros [= <-]. eapply idAfter_numeric; eauto.
  - destruct (idAfter (lit "conversations/") link) eqn:E2.
    + intros [= <-]. eapply idAfter_numeric; eauto.
    + destruct (numeric link) eqn:E3; [|discriminate]. now intros [= <-].
Qed.

End LinkFacts.

(** ** File sizes *)

Module SizeFacts.
Import Js Markdown SizeSpec.

Lemma unlit s : string_of_list_ascii (List.map ascii_of_N (lit s)) = s.
Proof.
  unfold lit. rewrite List.map_map.
  rewrite (List.map_ext _ (fun a => a)) by (intros a; apply ascii_N_embedding).
  rewrite List.map_id. apply string_of_list_ascii_of_string.
Qed.

Lemma lit_digits d : forallb isDigit (lit (NilEmpty.string_of_uint d)) = true.
Proof. induction d; unfold lit in *; simpl; auto. Qed.

Lemma lit_nonempty d : d <> Decimal.Nil -> lit (NilEmpty.string_of_uint d) <> [].
Proof. destruct d; unfold lit; simpl; congruence. Qed.

(** The digits of a natural number. *)
Lemma ofZ_uint z : (0 <= z)%Z ->
  exists d, d <> Decimal.Nil /\ ofZ z = lit (NilEmpty.string_of_uint d) /\ Z.of_uint d = z.
Proof.
  intros Hz. destruct z as [|p|p]; [| |lia].
  - exists (Decimal.D0 Decimal.Nil). repeat split; congruence.
  - exists (Pos.to_uint p). split; [apply Unsigned.to_uint_nonnil|].
    split.
    + unfold ofZ, Z.to_int, NilZero.string_of_int, NilZero.string_of_uint.
      pose proof (Unsigned.to_uint_nonnil p) as Hp.
      destruct (Pos.to_uint p); [congruence | reflexivity ..].
    + pose proof (DecimalZ.of_to (Z.pos p)) as H. exact H.
Qed.

Lemma ofZ_digits z : (0 <= z)%Z -> numeric (ofZ z) = true.
Proof.
  intros Hz. destruct (ofZ_uint z Hz) as (d & Hd & -> & _).
  pose proof (lit_digits d). pose proof (lit_nonempty d Hd).
  unfold numeric. destruct (lit _); congruence.
Qed.

Lemma ofZ_value z : (0 <= z)%Z -> decimalValue (ofZ z) = Some z.
Proof.
  intros Hz. destruct (ofZ_uint z Hz) as (d & Hd & -> & Hv).
  unfold decimalValue. rewrite lit_digits, unlit, NilEmpty.usu. simpl. now rewrite Hv.
Qed.




End SizeFacts.

(** ** Thread statistics *)

Module StatsFacts.
Import Js Api Markdown StatsSpec.

Section WithRuntime.
Context {rt : Runtime}.



















End WithRuntime.
End StatsFacts.

(** ** The token store *)

Module OAuthFacts.
Import Js Json Sys Io OAuth TokenSpec.

Lemma streq_refl k : streq k k = true.
Proof. unfold streq. now apply bool_decide_eq_true. Qed.

Lemma streq_ne k k' : k <> k' -> streq k k' = false.
Proof. unfold streq. intros H. now apply bool_decide_eq_false. Qed.

Lemma get_set_eq k v o : get k (set k v o) = Some v.
Proof.
  induction o as [|[k' v'] o IH]; simpl.
  - now rewrite streq_refl.
  - destruct (streq k' k) eqn:E; simpl; [now rewrite streq_refl | now rewrite E].
Qed.

Lemma get_set_ne k k' v o : k <> k' -> get k' (set k v o) = get k' o.
Proof.
  intros Hne. induction o as [|[k0 v0] o IH]; simpl.
  - now rewrite streq_ne.
  - destruct (streq k0 k) eqn:E; simpl.
    + apply bool_decide_eq_true in E. subst k0. now rewrite streq_ne.
    + now rewrite IH.
Qed.

Lemma get_reparse k o :
  get k (List.map (fun kv => (fst kv, reparse (snd kv))) o) = option_map reparse (get k o).
Proof.
  induction o as [|[k' v'] o IH]; simpl; [reflexivity|].
  destruct (streq k' k); [reflexivity | exact IH].
Qed.

Lemma reparse_number v z : reparse v = VNum (Int z) -> v = VNum (Int z).
Proof. destruct v as [| | [|] | | |]; simpl; congruence. Qed.

Lemma asNumber_reparse o z :
  asNumber (option_map reparse o) = Some z -> o = Some (VNum (Int z)).
Proof.
  destruct o as [v|]; simpl; [|discriminate].
  destruct (reparse v) as [| | [|] | | |] eqn:E; try discriminate.
  intros [= ->]. now apply reparse_number in E as ->.
Qed.

Lemma parse_fields data t :
  TokenSchema_parse data = Some t ->
  exists o, data = VObj o
    /\ get (lit "access_token") o = Some (VStr (access_token t))
    /\ get (lit "refresh_token") o = Some (VStr (refresh_token t))
    /\ get (lit "token_type") o = Some (VStr (token_type t))
    /\ get (lit "expires_in") o = Some (VNum (Int (expires_in t)))
    /\ get (lit "expires_at") o = Some (VNum (Int (expires_at t))).
Proof.
  unfold TokenSchema_parse. destruct data as [| | | | |o]; try discriminate.
  destruct (get (lit "access_token") o) as [[| | | a | |]|] eqn:E1; try discriminate.
  destruct (get (lit "refresh_token") o) as [[| | | r | |]|] eqn:E2; try discriminate.
  destruct (get (lit "token_type") o) as [[| | | ty | |]|] eqn:E3; try discriminate.
  destruct (get (lit "expires_in") o) as [[| | [i|] | | |]|] eqn:E4; try discriminate.
  destruct (get (lit "expires_at") o) as [[| | [e|] | | |]|] eqn:E5; try discriminate.
  simpl. intros [= <-]. exists o. simpl. repeat split; assumption.
Qed.

Lemma parse_missing o k :
  In k fields -> get k o = None -> TokenSchema_parse (VObj o) = None.
Proof.
  unfold fields, TokenSchema_parse.
  intros [<- | [<- | [<- | [<- | [<- | []]]]]] ->; simpl; try reflexivity;
    repeat match goal with |- context [asString ?x] => destruct (asString x) end;
    repeat match goal with |- context [asNumber ?x] => destruct (asNumber x) end;
    reflexivity.
Qed.

Section WithRuntime.
Context {rt : Runtime}.

(** What is stored satisfies the equation of the expiry. *)
Lemma withExpiry_parse data w td w' r :
  withExpiry data w = (Ok td, w') ->
  TokenSchema_parse (reparse td) = Some r ->
  w' = w /\ expires_at r = (now w + expires_in r * 1000)%Z.
Proof.
  unfold withExpiry, bind, dateNow, ret, throw.
  destruct (member data (lit "expires_in")) as [expires_in_|] eqn:Em; [|discriminate].
  intros [= <- <-] Hp. split; [reflexivity|].
  unfold TokenSchema_parse in Hp. simpl reparse in Hp. cbv beta iota in Hp.
  rewrite !get_reparse in Hp.
  rewrite get_set_eq in Hp. rewrite !get_set_ne in Hp by discriminate.
  destruct (asString _); [|discriminate].
  destruct (asString _); [|discriminate].
  destruct (asString _); [|discriminate].
  destruct (asNumber (option_map reparse (get (lit "expires_in") (spread data)))) as [i|] eqn:Ei;
    [|discriminate].
  apply asNumber_reparse in Ei.
  destruct data as [| | | | |o]; simpl in Em, Ei; try discriminate;
    injection Em as <-; try (simpl in Hp; discriminate).
  rewrite Ei in Hp. simpl in Hp. now injection Hp as <-.
Qed.

Lemma saved_expiry data w0 td w1 :
  (do tokenData <- withExpiry data ; await saveTokens tokenData ; ret tokenData) w0
  = (Ok td, w1) ->
  exists v, tokenFile w1 = Some (Parsed v) /\ now w1 = now w0
    /\ requests w1 = requests w0
    /\ forall r, TokenSchema_parse v = Some r ->
                 expires_at r = (now w0 + expires_in r * 1000)%Z.
Proof.
  unfold bind at 1.
  destruct (withExpiry data w0) as [[tokenData|e] w2] eqn:E; [|discriminate].
  unfold bind, saveTokens, ret. intros [= <- <-]. simpl.
  eexists. split; [reflexivity|].
  assert (w2 = w0) as ->.
  { revert E. unfold withExpiry, bind, dateNow, ret, throw.
    destruct (member data (lit "expires_in")); [|discriminate]. now intros [= _ <-]. }
  split; [reflexivity|]. split; [reflexivity|].
  intros r Hr. eapply withExpiry_parse in Hr as [_ Hr]; eauto.
Qed.

End WithRuntime.
End OAuthFacts.

(** ** The download loops *)

Module RunFacts.
Import Js Json Sys Io Api OAuth Client Markdown Commands RunSpec.

Section WithRuntime.
Context {rt : Runtime} (oauth : OAuthManager) (cid dir : str).

Lemma attempts_app l1 : forall l2 w,
  attempts oauth cid dir (l1 ++ l2) w =
  let '(log1, w1) := attempts oauth cid dir l1 w in
  let '(log2, w2) := attempts oauth cid dir l2 w1 in
  (log1 ++ log2, w2).
Proof.
  induction l1 as [|[t a] l1 IH]; intros l2 w; simpl.
  - now destruct (attempts oauth cid dir l2 w).
  - destruct (fetchAttachment oauth cid dir t a w) as [outcome w'].
    rewrite IH. destruct (attempts oauth cid dir l1 w') as [log1 w1].
    now destruct (attempts oauth cid dir l2 w1).
Qed.

(** The failure of an attachment is caught. *)
Lemma downloadOne_spec t acc a w :
  downloadOne oauth cid dir t acc a w =
  let '(outcome, w') := fetchAttachment oauth cid dir t a w in
  (Ok (indexOf [(t, a, outcome)] acc), w').
Proof.
  unfold downloadOne, tryCatch, bind, ret, indexOf.
  destruct (fetchAttachment oauth cid dir t a w) as [[entry|e] w']; reflexivity.
Qed.

Lemma downloadThread_spec t : forall atts acc w,
  forEach (downloadOne oauth cid dir t) atts acc w =
  let '(log, w') := attempts oauth cid dir (List.map (pair t) atts) w in
  (Ok (indexOf log acc), w').
Proof.
  induction atts as [|a atts IH]; intros acc w; [reflexivity|].
  simpl. unfold bind. rewrite downloadOne_spec.
  destruct (fetchAttachment oauth cid dir t a w) as [outcome w'].
  rewrite IH. now destruct (attempts oauth cid dir (List.map (pair t) atts) w').
Qed.

Lemma downloadAll_loop threads : forall acc w,
  forEach (downloadThread oauth cid dir) threads acc w =
  let '(log, w') := attempts oauth cid dir (pairs threads) w in
  (Ok (indexOf log acc), w').
Proof.
  induction threads as [|t threads IH]; intros acc w; [reflexivity|].
  simpl. unfold bind. unfold downloadThread at 1. rewrite downloadThread_spec.
  rewrite attempts_app.
  destruct (attempts oauth cid dir (List.map (pair t) (attachmentsOf t)) w) as [log1 w1].
  rewrite IH. destruct (attempts oauth cid dir (pairs threads) w1) as [log2 w2].
  unfold indexOf. now rewrite fold_left_app.
Qed.

(** Every attachment has its turn. *)
Lemma attempts_todo todo : forall w,
  List.map fst (fst (attempts oauth cid dir todo w)) = todo.
Proof.
  induction todo as [|[t a] todo IH]; intros w; [reflexivity|].
  simpl. destruct (fetchAttachment oauth cid dir t a w) as [outcome w'].
  specialize (IH w'). destruct (attempts oauth cid dir todo w') as [log w''].
  simpl in *. now rewrite IH.
Qed.

(** The key of a recorded entry is the key of its attachment. *)
Lemma fetchAttachment_key t a w entry w' :
  fetchAttachment oauth cid dir t a w = (Ok entry, w') ->
  fst entry = pathKey (thread_id t) (attachment_id a) /\ snd entry <> [].
Proof.
  unfold fetchAttachment, bind, ret.
  destruct (downloadAttachment oauth cid a w) as [[data|e] w1]; [|discriminate].
  destruct (writeFile _ _ w1) as [[[]|e] w2]; [|discriminate].
  intros [= <- <-]. split; [reflexivity | discriminate].
Qed.

Lemma fetchAttachment_no_link t a w :
  truthy (href a) = false ->
  fetchAttachment oauth cid dir t a w = (Throw (NoDownloadLink (filename a)), w).
Proof.
  intros H. unfold fetchAttachment, bind, downloadAttachment. now rewrite H.
Qed.

Lemma attempts_keys todo : forall w t a entry,
  In (t, a, Ok entry) (fst (attempts oauth cid dir todo w)) ->
  fst entry = pathKey (thread_id t) (attachment_id a) /\ snd entry <> [].
Proof.
  induction todo as [|[t0 a0] todo IH]; intros w t a entry; simpl; [contradiction|].
  destruct (fetchAttachment oauth cid dir t0 a0 w) as [outcome w'] eqn:E.
  specialize (IH w'). destruct (attempts oauth cid dir todo w') as [log w''].
  simpl in *. intros [[= <- <- ->] | Hin]; [eapply fetchAttachment_key; eauto | eauto].
Qed.

Lemma attempts_no_link todo : forall w t a outcome,
  In (t, a, outcome) (fst (attempts oauth cid dir todo w)) ->
  truthy (href a) = false -> outcome = Throw (NoDownloadLink (filename a)).
Proof.
  induction todo as [|[t0 a0] todo IH]; intros w t a outcome; simpl; [contradiction|].
  destruct (fetchAttachment oauth cid dir t0 a0 w) as [outcome0 w'] eqn:E.
  specialize (IH w'). destruct (attempts oauth cid dir todo w') as [log w''].
  simpl in *. intros [[= <- <- <-] | Hin] Hl; [|eauto].
  rewrite fetchAttachment_no_link in E by exact Hl. now injection E as <- _.
Qed.

Lemma indexOf_lookup log : forall acc k,
  indexOf log acc !! k = None <->
  acc !! k = None /\ forall t a entry, In (t, a, Ok entry) log -> fst entry <> k.
Proof.
  induction log as [|[[t0 a0] [entry0|e]] log IH]; intros acc k; simpl.
  - split; [intros H; split; [exact H | intros ? ? ? []] | now intros [H _]].
  - rewrite IH. rewrite lookup_insert_None. split.
    + intros [[Hacc Hne] Hlog]. split; [exact Hacc|].
      intros t a entry [[= _ _ <-] | Hin]; [congruence | eauto].
    + intros [Hacc Hlog]. split; [split; [exact Hacc|]|].
      * intros Heq. apply (Hlog t0 a0 entry0); [now left | exact Heq].
      * intros t a entry Hin. apply (Hlog t a entry). now right.
  - rewrite IH. split.
    + intros [Hacc Hlog]. split; [exact Hacc|].
      intros t a entry [Heq | Hin]; [discriminate Heq | eauto].
    + intros [Hacc Hlog]. split; [exact Hacc|]. intros t a entry Hin.
      apply (Hlog t a entry). now right.
Qed.

Lemma NoDup_map_eq {A B} (f : A -> B) (l : list A) x y :
  List.NoDup (List.map f l) -> In x l -> In y l -> f x = f y -> x = y.
Proof.
  induction l as [|a l IH]; simpl; [contradiction|].
  intros Hnd Hx Hy Hf. inversion Hnd as [|? ? Hnotin Hnd']; subst.
  destruct Hx as [-> | Hx], Hy as [-> | Hy]; auto.
  - exfalso. apply Hnotin. rewrite Hf. now apply in_map.
  - exfalso. apply Hnotin. rewrite <- Hf. now apply in_map.
Qed.

Lemma pairs_In threads t a :
  In (t, a) (pairs threads) <-> In t threads /\ In a (attachmentsOf t).
Proof.
  unfold pairs. rewrite in_flat_map. split.
  - intros (t' & Ht & Hin). apply in_map_iff in Hin as (a' & [= -> ->] & Ha). auto.
  - intros [Ht Ha]. exists t. split; [exact Ht|]. now apply in_map.
Qed.

Lemma countAttachments_pairs threads : countAttachments threads = length (pairs threads).
Proof.
  unfold countAttachments.
  assert (H : forall n, fold_left (fun total thread => (total + length (attachmentsOf thread))%nat)
                          threads n = (n + length (pairs threads))%nat).
  { induction threads as [|t threads IH]; intros n; simpl; [lia|].
    rewrite IH, length_app, length_map. lia. }
  apply H.
Qed.

(** The loops, guarded by the count, build the index of the outcomes. *)
Lemma download_loops threads w :
  (if (0 <? countAttachments threads)%nat
   then downloadAll oauth cid dir threads
   else ret ∅) w
  = (Ok (indexOf (fst (attempts oauth cid dir (pairs threads) w)) ∅),
     snd (attempts oauth cid dir (pairs threads) w)).
Proof.
  rewrite countAttachments_pairs.
  destruct (pairs threads) as [|p todo] eqn:E.
  - reflexivity.
  - change (0 <? length (p :: todo))%nat with true. cbv iota.
    unfold downloadAll. rewrite downloadAll_loop, E.
    now destruct (attempts oauth cid dir (p :: todo) w).
Qed.

(** The transcript has the entry of every attachment of every thread. *)
Lemma formatThread_attachment t paths a :
  In a (attachmentsOf t) -> In (attachmentLine paths t a) (formatThread t paths).
Proof.
  intros Ha. unfold formatThread.
  apply in_or_app. right. apply in_or_app. right. apply in_or_app. right.
  apply in_or_app. left.
  destruct (attachmentsOf t) as [|a0 atts] eqn:E; [contradiction|].
  apply in_or_app. right. apply in_or_app. left. now apply in_map.
Qed.

Lemma documentLines_thread conversation paths t line :
  In t (threadsOf conversation) -> In line (formatThread t paths) ->
  In line (documentLines conversation paths).
Proof.
  intros Ht Hl. unfold documentLines.
  do 5 (apply in_or_app; right).
  apply in_flat_map. exists t. split; [exact Ht|]. apply in_or_app. now left.
Qed.

Lemma attachmentLine_bare paths t a :
  paths !! pathKey (thread_id t) (attachment_id a) = None ->
  attachmentLine paths t a = bareLine a.
Proof. unfold attachmentLine. now intros ->. Qed.

Lemma metadata_count conversation downloadedAt total :
  exists meta,
    metadata conversation downloadedAt total = VObj meta
    /\ get (lit "attachmentCount") meta = Some (VNum (Int (Z.of_nat total))).
Proof.
  unfold metadata. eexists. split; [reflexivity|].
  destruct (closedAt conversation), (mailbox conversation); reflexivity.
Qed.

End WithRuntime.
End RunFacts.

(** ** Texts *)

Module TextFacts.
Import Js Regex RegexFacts TextSpec.

Lemma prefixIn_run p n : forall s, prefixIn p n s = (n <=? run p None s)%nat.
Proof.
  induction n as [|n IH]; intros s; [reflexivity|].
  destruct s as [|c t]; [reflexivity|].
  simpl. destruct (p c); [apply IH | reflexivity].
Qed.

(** A pattern of one class with a lower bound matches the whole run. *)
Lemma matchAt_atLeast n p bos s :
  matchAt [[atLeast n p]] bos s =
  if (n <=? run p None s)%nat then Some (run p None s, []) else None.
Proof.
  unfold matchAt, matchSeq, atLeast.
  destruct (Nat.leb_spec n (run p None s)) as [H|H].
  - rewrite (backtrack_first _ _ _ (O, [])) by (auto; lia).
    now rewrite Nat.add_0_r.
  - now rewrite backtrack_below by lia.
Qed.

(** A replacement whose pattern matches nowhere changes nothing. *)
Lemma replaceGo_nowhere re tpl : forall s bos,
  (forall b k, matchAt re b (skipn k s) = None) ->
  replaceGo re tpl bos O s = s.
Proof.
  induction s as [|c t IH]; intros bos H.
  - apply replaceGo_nil. exact (H bos O).
  - rewrite replaceGo_miss by exact (H bos O).
    f_equal. apply IH. intros b k. exact (H b (S k)).
Qed.

(** A pattern that begins with one code unit of a class absent from the
    text matches nowhere. *)
Lemma matchAt_head_absent p r alts bos s :
  startsIn p s = false -> matchAt ((one p :: r) :: alts) bos s = matchAt alts bos s.
Proof.
  intros H. unfold matchAt at 1. rewrite matchSeq_one.
  destruct s as [|c t]; [reflexivity|]. simpl in H. now rewrite H.
Qed.

Lemma startsIn_skipn p s : forallb (fun c => negb (p c)) s = true ->
  forall k, startsIn p (skipn k s) = false.
Proof.
  intros H k. destruct (skipn k s) as [|c t] eqn:E; [reflexivity|].
  simpl. rewrite forallb_forall in H.
  assert (Hin : In c s).
  { rewrite <- (firstn_skipn k s), E. apply in_or_app. right. now left. }
  apply H in Hin. now destruct (p c).
Qed.

Lemma replaceAll_head_absent p r tpl s :
  forallb (fun c => negb (p c)) s = true ->
  replaceAll [one p :: r] tpl s = s.
Proof.
  intros H. apply replaceGo_nowhere. intros b k.
  rewrite matchAt_head_absent by (now apply startsIn_skipn). reflexivity.
Qed.

Lemma hasRun_skipn p n : forall k s, hasRun p n s = false -> hasRun p n (skipn k s) = false.
Proof.
  induction k as [|k IH]; intros s H; [exact H|].
  destruct s as [|c t]; [exact H|].
  simpl. apply IH. simpl in H. now apply orb_false_elim in H as [_ H].
Qed.

Lemma hasRun_head p n s : hasRun p n s = false -> prefixIn p n s = false.
Proof. destruct s; simpl; intros H; now apply orb_false_elim in H as [H _]. Qed.

Lemma replaceAll_no_run n p tpl s :
  hasRun p n s = false -> replaceAll [[atLeast n p]] tpl s = s.
Proof.
  intros H. apply replaceGo_nowhere. intros b k.
  rewrite matchAt_atLeast, <- prefixIn_run.
  now rewrite (hasRun_head _ _ _ (hasRun_skipn p n k s H)).
Qed.

End TextFacts.

Module TrimFacts.
Import Js Regex RegexFacts TextSpec TextFacts.

Lemma run_app_all p a : forall b,
  forallb p a = true -> run p None (a ++ b) = (length a + run p None b)%nat.
Proof.
  induction a as [|c a IH]; intros b H; [reflexivity|].
  simpl in H. apply andb_prop in H as [Hc Ha].
  simpl. rewrite Hc. f_equal. now apply IH.
Qed.

Lemma hasRun_app_short p n a : forall b,
  forallb p a = true -> (length a + run p None b < n)%nat ->
  hasRun p n b = false -> hasRun p n (a ++ b) = false.
Proof.
  induction a as [|c a IH]; intros b Ha Hlen Hb; [exact Hb|].
  pose proof Ha as Ha'. simpl in Ha'. apply andb_prop in Ha' as [Hc Ht].
  change (hasRun p n ((c :: a) ++ b))
    with (prefixIn p n ((c :: a) ++ b) || hasRun p n (a ++ b)).
  rewrite prefixIn_run, run_app_all by exact Ha.
  rewrite IH by (auto; simpl in Hlen; lia).
  destruct (Nat.leb_spec n (length (c :: a) + run p None b)); [lia | reflexivity].
Qed.

(** Replacing every run of more than [m] code units of a class by [m]
    of them leaves no longer run. *)
Lemma squeeze_runs p m tpl :
  (forall matched, expand tpl matched [] = tpl) ->
  forallb p tpl = true -> length tpl = m ->
  forall s bos,
    let out := replaceGo [[atLeast (S m) p]] tpl bos O s in
    run p None out = Nat.min (run p None s) m /\ hasRun p (S m) out = false.
Proof.
  intros Hexp Htpl Hlen.
  induction s as [s IH] using (induction_ltof1 _ (@length N)); unfold ltof in IH.
  intros bos out. subst out.
  pose proof (matchAt_atLeast (S m) p bos s) as Hm.
  destruct (Nat.leb_spec (S m) (run p None s)) as [Hn|Hn].
  - destruct (run p None s) as [|k] eqn:Hrun; [lia|].
    rewrite (replaceGo_hit _ _ _ _ _ _ Hm), Hexp.
    pose proof (run_none_spec p s) as [_ Hnext]. simpl in Hnext. rewrite Hrun in Hnext.
    pose proof (run_le p None s) as Hle. rewrite Hrun in Hle.
    destruct (IH (skipn (S k) s) ltac:(rewrite length_skipn; lia) false) as [Hr Hh].
    assert (H0 : run p None (skipn (S k) s) = O).
    { destruct (skipn (S k) s) as [|d u]; [reflexivity|]. simpl. now rewrite Hnext. }
    rewrite H0 in Hr. simpl in Hr.
    split.
    + rewrite run_app_all by exact Htpl. lia.
    + apply hasRun_app_short; [exact Htpl | lia | exact Hh].
  - destruct s as [|c t].
    + rewrite replaceGo_nil by exact Hm. split; reflexivity.
    + rewrite replaceGo_miss by exact Hm.
      destruct (IH t ltac:(simpl; lia) false) as [Hr Hh].
      change (hasRun p (S m) (c :: replaceGo [[atLeast (S m) p]] tpl false 0 t))
        with (prefixIn p (S m) (c :: replaceGo [[atLeast (S m) p]] tpl false 0 t)
              || hasRun p (S m) (replaceGo [[atLeast (S m) p]] tpl false 0 t)).
      rewrite Hh, prefixIn_run, orb_false_r.
      simpl run in *. destruct (p c).
      * rewrite Hr. split; [lia|].
        destruct (Nat.leb_spec (S m) (S (Nat.min (run p None t) m))); [lia | reflexivity].
      * split; reflexivity.
Qed.

(** Runs in a part of a text. *)
Lemma prefixIn_iff p n : forall s,
  prefixIn p n s = true <->
  exists m b, s = m ++ b /\ length m = n /\ forallb p m = true.
Proof.
  induction n as [|n IH]; intros s.
  - split; [intros _; now exists [], s | reflexivity].
  - destruct s as [|c t]; simpl.
    + split; [discriminate|]. intros (m & b & E & Hl & _).
      destruct m; discriminate.
    + rewrite andb_true_iff, IH. split.
      * intros [Hc (m & b & -> & Hl & Hm)]. exists (c :: m), b.
        simpl. rewrite Hc, Hm, Hl. auto.
      * intros (m & b & E & Hl & Hm). destruct m as [|d m]; [discriminate|].
        injection E as <- ->. simpl in Hm. apply andb_prop in Hm as [Hd Hm].
        split; [exact Hd|]. exists m, b. simpl in Hl. auto.
Qed.

Lemma hasRun_iff p n : forall s,
  hasRun p n s = true <->
  exists a m b, s = a ++ m ++ b /\ length m = n /\ forallb p m = true.
Proof.
  induction s as [|c t IH].
  - simpl. rewrite orb_false_r, prefixIn_iff. split.
    + intros (m & b & E & H). now exists [], m, b.
    + intros (a & m & b & E & H). destruct a; [|discriminate]. now exists m, b.
  - change (hasRun p n (c :: t)) with (prefixIn p n (c :: t) || hasRun p n t).
    rewrite orb_true_iff, prefixIn_iff, IH. split.
    + intros [(m & b & E & H) | (a & m & b & -> & H)].
      * now exists [], m, b.
      * now exists (c :: a), m, b.
    + intros (a & m & b & E & H). destruct a as [|d a].
      * left. now exists m, b.
      * right. injection E as <- ->. now exists a, m, b.
Qed.

Lemma forallb_rev {A} (p : A -> bool) (l : list A) : forallb p (rev l) = forallb p l.
Proof.
  apply eq_true_iff_eq. rewrite !forallb_forall. split; intros H x Hx; apply H.
  - now apply in_rev in Hx.
  - now apply in_rev.
Qed.

Lemma hasRun_rev p n s : hasRun p n (rev s) = hasRun p n s.
Proof.
  apply eq_true_iff_eq. rewrite !hasRun_iff. split.
  - intros (a & m & b & E & Hl & Hm).
    exists (rev b), (rev m), (rev a).
    rewrite <- (rev_involutive s), E, !rev_app_distr, <- app_assoc.
    rewrite length_rev, forallb_rev. auto.
  - intros (a & m & b & -> & Hl & Hm).
    exists (rev b), (rev m), (rev a).
    rewrite !rev_app_distr, <- app_assoc.
    rewrite length_rev, forallb_rev. auto.
Qed.

Lemma hasRun_dropWhile p n q s : hasRun p n s = false -> hasRun p n (dropWhile q s) = false.
Proof. rewrite dropWhile_run. apply hasRun_skipn. Qed.

Lemma hasRun_trim p n s : hasRun p n s = false -> hasRun p n (trim s) = false.
Proof.
  intros H. unfold trim. rewrite hasRun_rev. apply hasRun_dropWhile.
  rewrite hasRun_rev. now apply hasRun_dropWhile.
Qed.

(** The two ends of a trimmed text. *)
Lemma dropWhile_startsIn p s : startsIn p (dropWhile p s) = false.
Proof.
  induction s as [|c t IH]; [reflexivity|].
  simpl. destruct (p c) eqn:E; [exact IH | exact E].
Qed.

Lemma dropWhile_snoc p c : forall l,
  p c = false -> dropWhile p (l ++ [c]) = dropWhile p l ++ [c].
Proof.
  induction l as [|d l IH]; intros Hc; simpl.
  - now rewrite Hc.
  - destruct (p d); [now apply IH | reflexivity].
Qed.

Lemma trim_ends s :
  startsIn isSpace (trim s) = false /\ endsIn isSpace (trim s) = false.
Proof.
  unfold trim, endsIn. rewrite rev_involutive. split; [|apply dropWhile_startsIn].
  pose proof (dropWhile_startsIn isSpace s) as H.
  destruct (dropWhile isSpace s) as [|c t]; [reflexivity|].
  simpl in H. simpl rev. rewrite dropWhile_snoc by exact H.
  rewrite rev_app_distr. exact H.
Qed.

End TrimFacts.

(** ** More on file names *)

Module NameFacts.
Import Js Regex RegexFacts Filename FilenameSpec FilenameFacts TextSpec TextFacts TrimFacts NameSpec.

Lemma filter_none {A} (keep : A -> bool) (l : list A) :
  (forall x, In x l -> keep x = false) -> List.filter keep l = [].
Proof.
  induction l as [|a l IH]; intros H; [reflexivity|].
  simpl. rewrite (H a) by now left. apply IH. intros x Hx. apply H. now right.
Qed.

(** *** Replacing the runs of a class *)

Section Class.
Variables (p : char -> bool) (n : nat) (tpl : str).
Hypothesis Hexp : forall matched, expand tpl matched [] = tpl.

Let re : regex := [[atLeast (S n) p]].

Lemma class_cases s bos :
  (exists k, run p None s = S k /\ (n <= k)%nat
     /\ replaceGo re tpl bos O s = tpl ++ replaceGo re tpl false O (skipn (S k) s)
     /\ forallb p (firstn (S k) s) = true /\ (S k <= length s)%nat)
  \/ (s = [] /\ replaceGo re tpl bos O s = [])
  \/ (exists c t, s = c :: t /\ (run p None s <= n)%nat
        /\ replaceGo re tpl bos O s = c :: replaceGo re tpl false O t).
Proof.
  pose proof (matchAt_atLeast (S n) p bos s) as Hm. fold re in Hm.
  destruct (Nat.leb_spec (S n) (run p None s)) as [Hn|Hn].
  - left. destruct (run p None s) as [|k] eqn:Hrun; [lia|].
    exists k. split; [reflexivity|]. split; [lia|].
    rewrite (replaceGo_hit _ _ _ _ _ _ Hm), Hexp. split; [reflexivity|].
    pose proof (run_none_spec p s) as [Hall _]. simpl in Hall. rewrite Hrun in Hall.
    pose proof (run_le p None s) as Hle. rewrite Hrun in Hle. auto.
  - right. destruct s as [|c t].
    + left. split; [reflexivity|]. now apply replaceGo_nil.
    + right. exists c, t. split; [reflexivity|]. split; [lia|]. now apply replaceGo_miss.
Qed.

(** What a List.filter keeps, when it keeps nothing of the class and nothing
    of the template. *)
Lemma class_filter (keep : char -> bool) :
  (forall c, p c = true -> keep c = false) -> List.filter keep tpl = [] ->
  forall s bos, List.filter keep (replaceGo re tpl bos O s) = List.filter keep s.
Proof.
  intros Hp Ht.
  induction s as [s IH] using (induction_ltof1 _ (@length N)); unfold ltof in IH.
  intros bos.
  destruct (class_cases s bos)
    as [(k & Hrun & Hk & -> & Hall & Hle) | [[-> ->] | (c & t & -> & Hrun & ->)]].
  - rewrite List.filter_app, Ht, IH by (rewrite length_skipn; lia). simpl.
    rewrite <- (firstn_skipn (S k) s) at 2. rewrite List.filter_app.
    replace (List.filter keep (firstn (S k) s)) with (@nil N); [reflexivity|].
    symmetry. apply filter_none.
    rewrite forallb_forall in Hall. intros x Hx. apply Hp. now apply Hall.
  - reflexivity.
  - simpl. now rewrite IH by (simpl; lia).
Qed.

(** The result is not longer than the text, when the template is not
    longer than the shortest match. *)
Lemma class_length :
  (length tpl <= S n)%nat ->
  forall s bos, (length (replaceGo re tpl bos O s) <= length s)%nat.
Proof.
  intros Ht.
  induction s as [s IH] using (induction_ltof1 _ (@length N)); unfold ltof in IH.
  intros bos.
  destruct (class_cases s bos)
    as [(k & Hrun & Hk & -> & Hall & Hle) | [[-> ->] | (c & t & -> & Hrun & ->)]].
  - rewrite length_app.
    specialize (IH (skipn (S k) s) ltac:(rewrite length_skipn; lia) false).
    rewrite length_skipn in IH. lia.
  - simpl; lia.
  - simpl. specialize (IH t ltac:(simpl; lia) false). lia.
Qed.

End Class.

Lemma class_gone p tpl :
  (forall matched, expand tpl matched [] = tpl) ->
  forallb (fun c => negb (p c)) tpl = true ->
  forall s bos,
    forallb (fun c => negb (p c)) (replaceGo [[atLeast 1 p]] tpl bos O s) = true.
Proof.
  intros Hexp Ht.
  induction s as [s IH] using (induction_ltof1 _ (@length N)); unfold ltof in IH.
  intros bos.
  destruct (class_cases p 0 tpl Hexp s bos)
    as [(k & Hrun & Hk & -> & Hall & Hle) | [[-> ->] | (c & t & -> & Hrun & ->)]].
  - rewrite forallb_app, Ht. apply IH. rewrite length_skipn; lia.
  - reflexivity.
  - simpl. rewrite IH by (simpl; lia). rewrite andb_true_r.
    simpl in Hrun. destruct (p c); [lia | reflexivity].
Qed.

(** *** The fourth replacement, as a trim *)

Lemma dropWhile_all p s : forallb p s = true -> dropWhile p s = [].
Proof.
  induction s as [|c t IH]; [reflexivity|].
  simpl. intros [Hc Ht]%andb_prop. rewrite Hc. auto.
Qed.

Lemma dropWhile_app_some p r : forall l,
  forallb p l = false -> dropWhile p (l ++ r) = dropWhile p l ++ r.
Proof.
  induction l as [|c l IH]; [discriminate|].
  simpl. destruct (p c); [exact IH | reflexivity].
Qed.

Lemma dropWhile_id p s : startsIn p s = false -> dropWhile p s = s.
Proof. destruct s as [|c t]; [reflexivity|]. simpl. now intros ->. Qed.

Lemma stripEnd_rev s : stripEnd s = rev (dropWhile us (rev s)).
Proof.
  induction s as [|c t IH]; [reflexivity|].
  unfold stripEnd; fold stripEnd. simpl rev.
  destruct (forallb us (c :: t)) eqn:Hall.
  - rewrite dropWhile_all; [reflexivity|].
    change (rev t ++ [c]) with (rev (c :: t)). now rewrite forallb_rev.
  - rewrite IH. simpl in Hall. destruct (us c) eqn:Hc; simpl in Hall.
    + rewrite dropWhile_app_some by (now rewrite forallb_rev).
      now rewrite rev_app_distr.
    + rewrite dropWhile_snoc by exact Hc. now rewrite rev_app_distr.
Qed.

Lemma stripEnd_id s : endsIn us s = false -> stripEnd s = s.
Proof.
  intros H. rewrite stripEnd_rev, dropWhile_id by exact H. apply rev_involutive.
Qed.

Lemma stripEnd_ends s : endsIn us (stripEnd s) = false.
Proof.
  rewrite stripEnd_rev. unfold endsIn. rewrite rev_involutive. apply dropWhile_startsIn.
Qed.

Lemma filter_dropWhile (keep p : char -> bool) s :
  (forall c, p c = true -> keep c = false) ->
  List.filter keep (dropWhile p s) = List.filter keep s.
Proof.
  intros Hp. induction s as [|c t IH]; [reflexivity|].
  simpl. destruct (p c) eqn:E; [|reflexivity]. now rewrite (Hp c E).
Qed.

Lemma filter_rev {A} (f : A -> bool) (l : list A) : List.filter f (rev l) = rev (List.filter f l).
Proof.
  induction l as [|a l IH]; [reflexivity|].
  simpl. rewrite List.filter_app, IH. simpl. destruct (f a); simpl; [reflexivity|].
  now rewrite app_nil_r.
Qed.

Lemma filter_stripEnd (keep : char -> bool) s :
  (forall c, us c = true -> keep c = false) ->
  List.filter keep (stripEnd s) = List.filter keep s.
Proof.
  intros Hp. rewrite stripEnd_rev, filter_rev, filter_dropWhile by exact Hp.
  now rewrite filter_rev, rev_involutive.
Qed.

Lemma length_dropWhile p s : (length (dropWhile p s) <= length s)%nat.
Proof. rewrite dropWhile_run, length_skipn. lia. Qed.

Lemma length_stripEnd s : (length (stripEnd s) <= length s)%nat.
Proof.
  rewrite stripEnd_rev, length_rev. rewrite <- (length_rev s). apply length_dropWhile.
Qed.

(** *** Runs and classes *)

Lemma hasRun_absent p n s :
  forallb (fun c => negb (p c)) s = true -> hasRun p (S n) s = false.
Proof.
  induction s as [|c t IH]; [reflexivity|].
  simpl. intros [Hc Ht]%andb_prop. rewrite (IH Ht).
  destruct (p c); [discriminate | reflexivity].
Qed.

Lemma single_hasRun s : single s = negb (hasRun us 2 s).
Proof.
  induction s as [|c t IH]; [reflexivity|].
  change (single (c :: t))
    with (negb (us c && match t with d :: _ => us d | [] => false end) && single t).
  change (hasRun us 2 (c :: t)) with (prefixIn us 2 (c :: t) || hasRun us 2 t).
  rewrite IH, negb_orb. f_equal. f_equal. simpl.
  destruct t as [|d u]; [reflexivity|]. now rewrite andb_true_r.
Qed.

(** *** The four replacements together *)

Lemma kept_not c : kept c = negb (unsafeChar c) && negb (isSpace c) && negb (us c).
Proof. unfold kept. now rewrite !negb_orb. Qed.

Lemma us_underscore : us underscore = true.
Proof. reflexivity. Qed.

Lemma map_safe s :
  forallb (fun c => negb (unsafeChar c)) s = true ->
  List.map (fun c => if unsafeChar c then underscore else c) s = s.
Proof.
  induction s as [|c t IH]; [reflexivity|].
  simpl. intros [Hc Ht]%andb_prop. rewrite (IH Ht).
  now destruct (unsafeChar c).
Qed.

Lemma filter_map_safe s :
  List.filter kept (List.map (fun c => if unsafeChar c then underscore else c) s) = List.filter kept s.
Proof.
  induction s as [|c t IH]; [reflexivity|].
  simpl. rewrite IH. destruct (unsafeChar c) eqn:E; [|reflexivity].
  change (kept underscore) with false. unfold kept. now rewrite E.
Qed.

Lemma sanitize_steps filename :
  sanitizeFilename filename =
  stripEnd (dropWhile us
    (replaceGo collapse [underscore] true O
       (replaceGo [[atLeast 1 isSpace]] [underscore] true O
          (List.map (fun c => if unsafeChar c then underscore else c) filename)))).
Proof.
  unfold sanitizeFilename. fold us. fold ends. rewrite step4_spec.
  unfold replaceAll. now rewrite step1_spec.
Qed.

Lemma sanitize_content filename :
  List.filter kept (sanitizeFilename filename) = List.filter kept filename.
Proof.
  assert (Hus : forall c, us c = true -> kept c = false)
    by (intros c H; unfold kept; now rewrite H, !orb_true_r).
  assert (Hsp : forall c, isSpace c = true -> kept c = false)
    by (intros c H; unfold kept; now rewrite H, !orb_true_r).
  rewrite sanitize_steps, filter_stripEnd, filter_dropWhile by exact Hus.
  unfold collapse.
  rewrite (class_filter us 1 [underscore]) by (auto; reflexivity).
  rewrite (class_filter isSpace 0 [underscore]) by (auto; reflexivity).
  apply filter_map_safe.
Qed.

Lemma sanitize_length filename :
  (length (sanitizeFilename filename) <= length filename)%nat.
Proof.
  rewrite sanitize_steps.
  etransitivity; [apply length_stripEnd|].
  etransitivity; [apply length_dropWhile|].
  unfold collapse.
  etransitivity; [apply (class_length us 1 [underscore]); [reflexivity | simpl; lia]|].
  etransitivity; [apply (class_length isSpace 0 [underscore]); [reflexivity | simpl; lia]|].
  now rewrite length_map.
Qed.

Lemma sanitize_no_space filename :
  forallb (fun c => negb (isSpace c)) (sanitizeFilename filename) = true.
Proof.
  unfold sanitizeFilename, replaceAll.
  apply forallb_forall. apply List.Forall_forall.
  do 2 (apply (replaceGo_Forall (fun c => negb (isSpace c) = true)); [repeat constructor|]).
  apply List.Forall_forall. apply forallb_forall.
  apply (class_gone isSpace [underscore]); reflexivity.
Qed.

Lemma sanitize_single filename :
  hasRun us 2 (sanitizeFilename filename) = false
  /\ startsIn us (sanitizeFilename filename) = false
  /\ endsIn us (sanitizeFilename filename) = false.
Proof.
  rewrite sanitize_steps.
  match goal with |- context [dropWhile us ?x] => set (text := x) end.
  destruct (step3_single
              (replaceGo [[atLeast 1 isSpace]] [underscore] true O
                 (List.map (fun c => if unsafeChar c then underscore else c) filename)) true)
    as [Hs _].
  fold text in Hs.
  split; [|split].
  - apply negb_true_iff. rewrite <- single_hasRun.
    now apply single_stripEnd, single_dropWhile.
  - apply (stripEnd_start (dropWhile us text)), dropWhile_start.
  - apply stripEnd_ends.
Qed.

(** A name that needs no replacement is left as it is. *)
Lemma sanitize_fixed s :
  forallb (fun c => negb (unsafeChar c)) s = true ->
  forallb (fun c => negb (isSpace c)) s = true ->
  hasRun us 2 s = false -> startsIn us s = false -> endsIn us s = false ->
  sanitizeFilename s = s.
Proof.
  intros Hsafe Hsp Hrun Hstart Hend.
  rewrite sanitize_steps, map_safe by exact Hsafe.
  change (replaceGo [[atLeast 1 isSpace]] [underscore] true 0 s)
    with (replaceAll [[atLeast 1 isSpace]] [underscore] s).
  rewrite replaceAll_no_run by (now apply hasRun_absent).
  change (replaceGo collapse [underscore] true 0 s)
    with (replaceAll [[atLeast 2 us]] [underscore] s).
  rewrite replaceAll_no_run by exact Hrun.
  rewrite dropWhile_id by exact Hstart. now apply stripEnd_id.
Qed.

Lemma sanitize_idempotent filename :
  sanitizeFilename (sanitizeFilename filename) = sanitizeFilename filename.
Proof.
  destruct (sanitize_single filename) as (H1 & H2 & H3).
  apply sanitize_fixed; auto using sanitize_no_space.
  pose proof (sanitize_safe filename) as H. 
  apply forallb_forall. rewrite List.Forall_forall in H. intros c Hc.
  apply H in Hc. unfold safe in Hc. now rewrite Hc.
Qed.

Lemma sanitize_empty filename :
  sanitizeFilename filename = [] <-> List.filter kept filename = [].
Proof.
  split.
  - intros H. now rewrite <- sanitize_content, H.
  - intros H. rewrite <- sanitize_content in H.
    destruct (sanitize_single filename) as (_ & Hstart & _).
    pose proof (sanitize_no_space filename) as Hsp.
    pose proof (sanitize_safe filename) as Hsafe.
    destruct (sanitizeFilename filename) as [|c t]; [reflexivity|].
    exfalso. simpl in *. inversion Hsafe as [|? ? Hc _]; subst. unfold safe in Hc.
    apply andb_prop in Hsp as [Hs _].
    rewrite kept_not, Hc, Hstart in H. apply negb_true_iff in Hs. rewrite Hs in H.
    discriminate.
Qed.

End NameFacts.

(** ** Tags *)

Module TagFacts.
Import Js Regex RegexFacts FilenameFacts TextSpec TextFacts TrimFacts NameFacts TagSpec.

Lemma existsb_none (s : str) :
  forallb (neqc 62) s = true -> existsb (eqc 62) s = false.
Proof.
  induction s as [|c t IH]; [reflexivity|].
  simpl. intros [Hc Ht]%andb_prop. rewrite (IH Ht).
  unfold neqc in Hc. unfold eqc. now destruct (N.eqb c 62).
Qed.

(** Where the pattern of a tag matches. *)
Lemma matchAt_tag bos s :
  matchAt tag bos s =
  match s with
  | c :: t =>
      let r := run (neqc 62) None t in
      if eqc 60 c && (1 <=? r)%nat && startsIn (eqc 62) (skipn r t)
      then Some (S (r + 1), [])
      else None
  | [] => None
  end.
Proof.
  unfold tag, matchAt. rewrite matchSeq_one.
  destruct s as [|c t]; [reflexivity|]. cbv zeta.
  destruct (eqc 60 c); [|reflexivity].
  set (r := run (neqc 62) None t).
  change (true && (1 <=? r)%nat && startsIn (eqc 62) (skipn r t))
    with ((1 <=? r)%nat && startsIn (eqc 62) (skipn r t)).
  change (matchSeq [plus (neqc 62); one (eqc 62)] false t)
    with (match backtrack (fun k => matchSeq [one (eqc 62)] (false && Nat.eqb k 0) (skipn k t))
                  1 r with
          | Some (k, (len, caps)) => Some ((k + len)%nat, caps)
          | None => None
          end).
  destruct (Nat.leb_spec 1 r) as [Hr|Hr];
    [change (true && startsIn (eqc 62) (skipn r t)) with (startsIn (eqc 62) (skipn r t))
    |change (false && startsIn (eqc 62) (skipn r t)) with false].
  - destruct (startsIn (eqc 62) (skipn r t)) eqn:Hs.
    + rewrite (backtrack_first _ _ _ (1%nat, [])); [reflexivity | exact Hr|].
      rewrite matchSeq_one. destruct (skipn r t) as [|d u]; [discriminate|].
      simpl in Hs. now rewrite Hs.
    + rewrite backtrack_none; [reflexivity|].
      intros k Hk. rewrite matchSeq_one.
      destruct (skipn k t) as [|d u] eqn:Ek; [reflexivity|].
      destruct (Nat.eq_dec k r) as [->|Hne].
      * rewrite Ek in Hs. simpl in Hs. now rewrite Hs.
      * pose proof (run_none_spec (neqc 62) t) as [Hall _]. fold r in Hall.
        assert (Hin : In d (firstn r t)).
        { assert (Hlen : length (firstn k t) = k).
          { apply firstn_length_le. apply (f_equal (@length N)) in Ek.
            rewrite length_skipn in Ek. simpl in Ek. lia. }
          rewrite <- (firstn_skipn k t), Ek, firstn_app, Hlen.
          apply in_or_app. right.
          destruct (r - k)%nat eqn:E'; [lia|]. now left. }
        rewrite forallb_forall in Hall. apply Hall in Hin.
        unfold neqc in Hin. unfold eqc. now destruct (N.eqb d 62).
  - now rewrite backtrack_below by lia.
Qed.

(** After the tags are removed, no tag is left. *)
Lemma strip_tags : forall s bos, hasTag (replaceGo tag [] bos O s) = false.
Proof.
  induction s as [s IH] using (induction_ltof1 _ (@length N)); unfold ltof in IH.
  intros bos. pose proof (matchAt_tag bos s) as Hm.
  destruct s as [|c t]; [now rewrite replaceGo_nil|].
  cbv zeta in Hm. set (r := run (neqc 62) None t) in Hm.
  destruct (eqc 60 c && (1 <=? r)%nat && startsIn (eqc 62) (skipn r t)) eqn:Hc.
  - rewrite (replaceGo_hit _ _ _ _ _ _ Hm). simpl expand. simpl app.
    apply IH. rewrite length_skipn. simpl. lia.
  - rewrite replaceGo_miss by exact Hm.
    change (hasTag (c :: replaceGo tag [] false 0 t))
      with (tagAt (c :: replaceGo tag [] false 0 t) || hasTag (replaceGo tag [] false 0 t)).
    rewrite IH by (simpl; lia). rewrite orb_false_r.
    destruct (eqc 60 c) eqn:Elt;
      [|unfold tagAt; destruct (replaceGo tag [] false 0 t); [reflexivity | now rewrite Elt]].
    rewrite andb_true_l in Hc.
    destruct t as [|d u]; [rewrite replaceGo_nil by reflexivity; reflexivity|].
    destruct (neqc 62 d) eqn:Ed.
    + (* a run without its end *)
      assert (Hr : (1 <=? r)%nat = true)
        by (apply Nat.leb_le; subst r; simpl; rewrite Ed; lia).
      rewrite Hr, andb_true_l in Hc.
      pose proof (run_none_spec (neqc 62) (d :: u)) as [Hall Hnext]. fold r in Hall, Hnext.
      assert (Hend : skipn r (d :: u) = []).
      { destruct (skipn r (d :: u)) as [|x y]; [reflexivity|].
        exfalso. simpl in Hc, Hnext. unfold neqc in Hnext. unfold eqc in Hc.
        rewrite Hc in Hnext. discriminate. }
      assert (Hno : forallb (neqc 62) (d :: u) = true).
      { rewrite <- (firstn_skipn r (d :: u)), Hend, app_nil_r. exact Hall. }
      assert (Hout : Forall (fun x => neqc 62 x = true) (replaceGo tag [] false 0 (d :: u))).
      { apply replaceGo_Forall; [constructor|].
        apply List.Forall_forall. now apply forallb_forall. }
      unfold tagAt. destruct (replaceGo tag [] false 0 (d :: u)) as [|x z]; [reflexivity|].
      inversion Hout as [|? ? _ Hz]; subst.
      rewrite existsb_none; [now rewrite !andb_false_r|].
      apply forallb_forall. now apply List.Forall_forall.
    + (* the greater-than sign follows at once *)
      rewrite replaceGo_miss.
      * unfold tagAt. rewrite Ed. now rewrite andb_false_r.
      * rewrite matchAt_tag. cbv zeta.
        unfold neqc in Ed. apply negb_false_iff in Ed. apply N.eqb_eq in Ed. subst d.
        reflexivity.
Qed.

(** Parts of a text without a tag. *)
Lemma hasTag_tail c t : hasTag (c :: t) = false -> hasTag t = false.
Proof. simpl. intros H. now apply orb_false_elim in H as [_ H]. Qed.

Lemma hasTag_skipn : forall k s, hasTag s = false -> hasTag (skipn k s) = false.
Proof.
  induction k as [|k IH]; intros s H; [exact H|].
  destruct s as [|c t]; [exact H|]. simpl skipn. apply IH. eapply hasTag_tail; eauto.
Qed.

Lemma existsb_app_l (a b : str) : existsb (eqc 62) a = true -> existsb (eqc 62) (a ++ b) = true.
Proof. intros H. rewrite existsb_app, H. reflexivity. Qed.

Lemma tagAt_app a b : tagAt a = true -> tagAt (a ++ b) = true.
Proof.
  destruct a as [|c [|d t]]; try discriminate.
  simpl. intros H. apply andb_prop in H as [H1 H2]. rewrite H1. now rewrite existsb_app_l.
Qed.

Lemma hasTag_app a : forall b, hasTag (a ++ b) = false -> hasTag a = false.
Proof.
  induction a as [|c a IH]; intros b H; [reflexivity|].
  change (hasTag ((c :: a) ++ b)) with (tagAt ((c :: a) ++ b) || hasTag (a ++ b)) in H.
  apply orb_false_elim in H as [H1 H2].
  change (hasTag (c :: a)) with (tagAt (c :: a) || hasTag a).
  rewrite (IH b H2), orb_false_r.
  destruct (tagAt (c :: a)) eqn:E; [|reflexivity].
  apply (tagAt_app _ b) in E. congruence.
Qed.

Lemma rev_dropWhile_prefix p (s : str) :
  exists rest, s = rev (dropWhile p (rev s)) ++ rest.
Proof.
  exists (rev (firstn (run p None (rev s)) (rev s))).
  rewrite dropWhile_run, <- rev_app_distr, firstn_skipn. now rewrite rev_involutive.
Qed.

Lemma hasTag_trim s : hasTag s = false -> hasTag (trim s) = false.
Proof.
  intros H. unfold trim.
  destruct (rev_dropWhile_prefix isSpace (dropWhile isSpace s)) as [rest E].
  apply (hasTag_app _ rest). rewrite <- E, dropWhile_run. now apply hasTag_skipn.
Qed.

(** Squeezing the runs of a class that holds neither sign brings no tag. *)
Lemma hasTag_squeeze p n tpl :
  (forall matched, expand tpl matched [] = tpl) ->
  (forall c, p c = true -> eqc 60 c = false /\ eqc 62 c = false) ->
  forallb p tpl = true ->
  forall s bos, hasTag s = false ->
    hasTag (replaceGo [[atLeast (S n) p]] tpl bos O s) = false.
Proof.
  intros Hexp Hp Htpl.
  assert (Hpre : forall a b, forallb p a = true -> hasTag b = false -> hasTag (a ++ b) = false).
  { induction a as [|c a IHa]; intros b Ha Hb; [exact Hb|].
    simpl in Ha. apply andb_prop in Ha as [Hc Ha].
    change (hasTag ((c :: a) ++ b)) with (tagAt ((c :: a) ++ b) || hasTag (a ++ b)).
    rewrite (IHa b Ha Hb), orb_false_r. unfold tagAt. simpl app.
    destruct (a ++ b); [reflexivity|]. now rewrite (proj1 (Hp c Hc)). }
  induction s as [s IH] using (induction_ltof1 _ (@length N)); unfold ltof in IH.
  intros bos Hs.
  destruct (class_cases p n tpl Hexp s bos)
    as [(k & Hrun & Hk & -> & Hall & Hle) | [[-> ->] | (c & t & -> & Hrun & ->)]].
  - apply Hpre; [exact Htpl|]. apply IH; [rewrite length_skipn; lia|].
    now apply hasTag_skipn.
  - reflexivity.
  - pose proof (hasTag_tail _ _ Hs) as Ht.
    specialize (IH t ltac:(simpl; lia) false Ht).
    change (hasTag (c :: replaceGo [[atLeast (S n) p]] tpl false 0 t))
      with (tagAt (c :: replaceGo [[atLeast (S n) p]] tpl false 0 t)
            || hasTag (replaceGo [[atLeast (S n) p]] tpl false 0 t)).
    rewrite IH, orb_false_r.
    change (hasTag (c :: t)) with (tagAt (c :: t) || hasTag t) in Hs.
    apply orb_false_elim in Hs as [Hat _].
    destruct (eqc 60 c) eqn:Elt;
      [|unfold tagAt; destruct (replaceGo _ tpl false 0 t); [reflexivity | now rewrite Elt]].
    (* after a less-than sign: the greater-than sign at once, or none *)
    destruct t as [|d u];
      [destruct (class_cases p n tpl Hexp [] false)
         as [(k & Hk & _) | [[_ ->] | (? & ? & [=] & _)]]; [discriminate Hk | reflexivity]|].
    unfold tagAt in Hat. rewrite Elt in Hat. simpl in Hat.
    destruct (neqc 62 d) eqn:Ed; simpl in Hat.
    + (* no greater-than sign after *)
      assert (Hno : Forall (fun x => eqc 62 x = false) (d :: u)).
      { constructor.
        - unfold neqc in Ed. unfold eqc. now destruct (N.eqb d 62).
        - apply List.Forall_forall. intros x Hx.
          destruct (eqc 62 x) eqn:Ex; [|reflexivity].
          assert (existsb (eqc 62) u = true) by (apply existsb_exists; eauto). congruence. }
      assert (Hout : Forall (fun x => eqc 62 x = false)
                       (replaceGo [[atLeast (S n) p]] tpl false 0 (d :: u))).
      { apply replaceGo_Forall; [|exact Hno].
        apply List.Forall_forall. intros x Hx. rewrite forallb_forall in Htpl.
        exact (proj2 (Hp x (Htpl x Hx))). }
      unfold tagAt. destruct (replaceGo _ tpl false 0 (d :: u)) as [|x z]; [reflexivity|].
      inversion Hout as [|? ? _ Hz]; subst.
      assert (E : existsb (eqc 62) z = false).
      { destruct (existsb (eqc 62) z) eqn:E; [|reflexivity].
        apply existsb_exists in E as (q & Hq & Hq').
        rewrite List.Forall_forall in Hz. rewrite Hz in Hq' by exact Hq. discriminate. }
      rewrite E. now rewrite !andb_false_r.
    + (* the greater-than sign follows at once *)
      assert (Hd : p d = false).
      { destruct (p d) eqn:E; [|reflexivity].
        destruct (Hp d E) as [_ H]. unfold neqc in Ed. unfold eqc in H.
        rewrite H in Ed. discriminate. }
      destruct (class_cases p n tpl Hexp (d :: u) false)
        as [(k & Hk & _) | [[[=] _] | (c' & t' & [= <- <-] & _ & ->)]].
      * simpl in Hk. rewrite Hd in Hk. discriminate.
      * unfold tagAt. rewrite Ed. now rewrite andb_false_r.
Qed.

End TagFacts.

(** ** HTML fragments *)

Module HtmlFacts.
Import Js Regex RegexFacts FilenameFacts Html TextSpec TagSpec.
Import TextFacts TrimFacts NameFacts TagFacts.

Lemma cleanHtml_plain_trim s :
  forallb (fun c => negb (eqc 60 c)) s = true ->
  forallb (fun c => negb (eqc 38 c)) s = true ->
  hasRun (eqc 10) 3 s = false ->
  cleanHtml s = trim s.
Proof.
  intros Hlt Hamp Hrun. unfold cleanHtml.
  repeat match goal with
  | |- context [replaceAll ?re ?tpl s] =>
      replace (replaceAll re tpl s) with s
        by (symmetry; first [ apply (replaceAll_head_absent (eqc 60)); exact Hlt
                            | apply (replaceAll_head_absent (eqc 38)); exact Hamp
                            | apply replaceAll_no_run; exact Hrun ])
  end.
  reflexivity.
Qed.

Lemma cleanHtml_shape html :
  hasRun (eqc 10) 3 (cleanHtml html) = false
  /\ startsIn isSpace (cleanHtml html) = false
  /\ endsIn isSpace (cleanHtml html) = false.
Proof.
  unfold cleanHtml.
  match goal with |- context [trim ?x] => set (text := x) end.
  split; [|apply trim_ends].
  apply hasRun_trim. subst text. unfold replaceAll at 1.
  apply (squeeze_runs (eqc 10) 2 (nl ++ nl)); reflexivity.
Qed.

Lemma cleanHtml_no_tag html :
  forallb (fun c => negb (eqc 38 c)) html = true -> hasTag (cleanHtml html) = false.
Proof.
  intros Hamp. unfold cleanHtml.
  match goal with
  | |- context [replaceAll [[one (eqc 60); plus (neqc 62); one (eqc 62)]] [] ?x] =>
      set (marked := x)
  end.
  set (stripped := replaceAll [[one (eqc 60); plus (neqc 62); one (eqc 62)]] [] marked).
  assert (Hm : forallb (fun c => negb (eqc 38 c)) stripped = true).
  { apply forallb_forall. apply List.Forall_forall.
    subst stripped marked. unfold replaceAll.
    repeat (apply (replaceGo_Forall (fun c => negb (eqc 38 c) = true));
            [repeat constructor|]).
    apply List.Forall_forall. now apply forallb_forall. }
  repeat match goal with
  | |- context [replaceAll ?re ?tpl stripped] =>
      replace (replaceAll re tpl stripped) with stripped
        by (symmetry; apply (replaceAll_head_absent (eqc 38)); exact Hm)
  end.
  apply hasTag_trim. unfold replaceAll at 1.
  apply (hasTag_squeeze (eqc 10) 2 (nl ++ nl)); try reflexivity.
  - intros c Hc. unfold eqc in *. apply N.eqb_eq in Hc. subst c. split; reflexivity.
  - apply strip_tags.
Qed.

End HtmlFacts.

(** ** Counting the threads *)

Module CountFacts.
Import Js Api Markdown Commands StatsSpec RunSpec RunFacts StatsFacts CountSpec.

Section WithRuntime.
Context {rt : Runtime}.

Lemma fold_counts l : forall c,
  let c' := fold_left countThread l c in
  c_customerMessages c' = (c_customerMessages c + length (List.filter customerMessage l))%nat
  /\ c_supportReplies c' = (c_supportReplies c + length (List.filter supportReply l))%nat
  /\ c_internalNotes c' = (c_internalNotes c + length (List.filter isNote l))%nat
  /\ c_totalAttachments c' = (c_totalAttachments c + length (pairs l))%nat.
Proof.
  induction l as [|t l IH]; intros c; simpl; [repeat split; lia|].
  destruct (IH (countThread c t)) as (H1 & H2 & H3 & H4).
  rewrite H1, H2, H3, H4, length_app, length_map.
  unfold countThread, customerMessage, supportReply.
  destruct (isNote t), (isCustomerThread t), (isReplyType t); simpl; repeat split; lia.
Qed.

Lemma classes_partition l :
  (length (List.filter customerMessage l) + length (List.filter supportReply l)
   + length (List.filter isNote l) + length (List.filter uncounted l))%nat = length l.
Proof.
  induction l as [|t l IH]; [reflexivity|].
  simpl. unfold customerMessage, supportReply, uncounted in *.
  destruct (isNote t), (isCustomerThread t), (isReplyType t); simpl; lia.
Qed.

Lemma responseTimeText_NaN : responseTimeText NaN = lit "NaN minutes".
Proof. reflexivity. Qed.


End WithRuntime.

(** [formatPerson] *)
Lemma join_two (a b : option str) :
  join (lit " ") (filterBoolean [a; b]) =
  match truthy a, truthy b with
  | true, true => default [] a ++ lit " " ++ default [] b
  | true, false => default [] a
  | false, true => default [] b
  | false, false => []
  end.
Proof.
  unfold filterBoolean. simpl.
  destruct (truthy a), (truthy b); simpl; auto using app_nil_r.
Qed.

Lemma truthy_default o : truthy o = true -> default [] o <> [].
Proof. destruct o as [[|c t]|]; simpl; congruence. Qed.

End CountFacts.

(** ** More on the token store *)

Module StoreFacts.
Import Js Json Sys Io OAuth TokenSpec OAuthFacts RunSpec GrantSpec.

Lemma asString_reparse o : asString (option_map reparse o) = asString o.
Proof. destruct o as [[| | [|] | | |]|]; reflexivity. Qed.

Lemma asNumber_reparse_eq o : asNumber (option_map reparse o) = asNumber o.
Proof. destruct o as [[| | [|] | | |]|]; reflexivity. Qed.

(** Writing a value out and reading it back does not change what the
    schema makes of it. *)
Lemma parse_reparse v : TokenSchema_parse (reparse v) = TokenSchema_parse v.
Proof.
  destruct v as [| | [|] | | |o]; try reflexivity.
  unfold TokenSchema_parse. simpl reparse. cbv beta iota.
  now rewrite !get_reparse, !asString_reparse, !asNumber_reparse_eq.
Qed.

Lemma loadTokens_world w : snd (loadTokens w) = w /\ exists r, fst (loadTokens w) = Ok r.
Proof.
  unfold loadTokens. destruct (tokenFile w) as [[| |v]|]; simpl; eauto.
Qed.

Lemma loadTokens_some w tokens w' :
  loadTokens w = (Ok (Some tokens), w') ->
  w' = w /\ exists v, tokenFile w = Some (Parsed v).
Proof.
  unfold loadTokens. destruct (tokenFile w) as [[| |v]|]; try discriminate.
  intros [= _ <-]. eauto.
Qed.

Section WithRuntime.
Context {rt : Runtime} (self : OAuthManager).

(** The three steps after an answer: the expiry, the store, the value. *)
Lemma store_outcome data w r w' :
  (do tokenData <- withExpiry data ; await saveTokens tokenData ; ret tokenData) w = (r, w') ->
  match r with
  | Ok td => w' = snd (saveTokens td w)
  | Throw e => w' = w /\ e = TypeError
  end.
Proof.
  unfold withExpiry, bind, dateNow, ret, throw, saveTokens.
  destruct (member data (lit "expires_in")); intros [= <- <-]; auto.
Qed.

Lemma store_object o w :
  (do tokenData <- withExpiry (VObj o) ; await saveTokens tokenData ; ret tokenData) w
  = let td := VObj (set (lit "expires_at")
                      (VNum (nadd (Int (now w))
                               (nmul (toNumber (get (lit "expires_in") o)) (Int 1000))))
                      o) in
    (Ok td, snd (saveTokens td w)).
Proof. reflexivity. Qed.

Lemma parse_grant o issued :
  TokenSchema_parse
    (VObj (set (lit "expires_at")
             (VNum (nadd (Int issued) (nmul (toNumber (get (lit "expires_in") o)) (Int 1000))))
             o))
  = grantRecord o issued.
Proof.
  unfold TokenSchema_parse, grantRecord.
  rewrite get_set_eq, !get_set_ne by discriminate.
  destruct (asString (get (lit "access_token") o)); [|reflexivity].
  destruct (asString (get (lit "refresh_token") o)); [|reflexivity].
  destruct (asString (get (lit "token_type") o)); [|reflexivity].
  destruct (get (lit "expires_in") o) as [[| | [i|] | | |]|]; reflexivity.
Qed.

(** An exchange, by the answer of the endpoint. *)
Lemma exchange_cases code w :
  let response := server (requests w) (exchangeRequest self code) in
  let w1 := snd (fetch (exchangeRequest self code) w) in
  exchangeCodeForToken self code w =
  if ok response then
    match json response with
    | Some data =>
        (do tokenData <- withExpiry data ; await saveTokens tokenData ; ret tokenData) w1
    | None => (Throw BadResponseBody, w1)
    end
  else (Throw (ExchangeFailed (text response)), w1).
Proof.
  intros response w1. unfold exchangeCodeForToken. unfold bind at 1.
  unfold fetch at 1. fold response.
  destruct (ok response); simpl; [|reflexivity].
  unfold bind at 1, responseJson. destruct (json response); reflexivity.
Qed.

(** A refresh, by the stored record and the answer of the endpoint. *)
Lemma refresh_cases w :
  refreshAccessToken self w =
  match fst (loadTokens w) with
  | Ok (Some tokens) =>
      match refresh_token tokens with
      | [] => (Throw NoRefreshToken, w)
      | _ :: _ =>
          let call := refreshRequest self (refresh_token tokens) in
          let response := server (requests w) call in
          let w1 := snd (fetch call w) in
          if ok response then
            match json response with
            | Some data =>
                (do tokenData <- withExpiry data ; await saveTokens tokenData ; ret tokenData) w1
            | None => (Throw BadResponseBody, w1)
            end
          else (Throw (RefreshFailed (text response)), w1)
      end
  | _ => (Throw NoRefreshToken, w)
  end.
Proof.
  unfold refreshAccessToken. unfold bind at 1.
  destruct (loadTokens_world w) as [Hw [r Hr]].
  destruct (loadTokens w) as [res w0]. simpl in Hw, Hr. subst w0 res. simpl fst.
  destruct r as [tokens|]; [|reflexivity].
  destruct (refresh_token tokens) as [|c t]; [reflexivity|].
  unfold bind at 1. unfold fetch at 1.
  destruct (ok (server (requests w) _)); simpl; [|reflexivity].
  unfold bind at 1, responseJson.
  destruct (json (server (requests w) _)); reflexivity.
Qed.

(** What a refresh leaves behind. *)
Lemma refresh_world w r w' :
  refreshAccessToken self w = (r, w') ->
  written w' = written w
  /\ (w' = w
      \/ exists tokens,
           loadTokens w = (Ok (Some tokens), w) /\ refresh_token tokens <> []
           /\ requests w' = requests w ++ [refreshRequest self (refresh_token tokens)])
  /\ match r with
     | Ok _ => exists v, tokenFile w' = Some (Parsed v)
     | Throw _ => tokenFile w' = tokenFile w
     end.
Proof.
  rewrite refresh_cases.
  destruct (loadTokens_world w) as [Hw [res Hr]].
  destruct (loadTokens w) as [res0 w0] eqn:El. simpl in Hw, Hr. subst w0 res0. simpl fst.
  destruct res as [tokens|]; [|intros [= <- <-]; auto].
  destruct (refresh_token tokens) as [|c t] eqn:Et; [intros [= <- <-]; auto|].
  cbv zeta.
  assert (Hright : forall w2, written w2 = written w -> requests w2 = requests w ++ [refreshRequest self (c :: t)] ->
            w2 = w \/ exists tokens0, (Ok (Some tokens), w) = (Ok (Some tokens0), w)
                        /\ refresh_token tokens0 <> []
                        /\ requests w2 = requests w ++ [refreshRequest self (refresh_token tokens0)]).
  { intros w2 _ H. right. exists tokens. rewrite Et. split; [reflexivity|]. split; [discriminate | exact H]. }
  destruct (ok _).
  - destruct (json _) as [data|].
    + intros H. apply store_outcome in H. destruct r as [td|e].
      * subst w'. simpl. split; [reflexivity|]. split; [now apply Hright | eauto].
      * destruct H as [-> _]. simpl. split; [reflexivity|]. split; [now apply Hright | reflexivity].
    + intros [= <- <-]. simpl. split; [reflexivity|]. split; [now apply Hright | reflexivity].
  - intros [= <- <-]. simpl. split; [reflexivity|]. split; [now apply Hright | reflexivity].
Qed.

Lemma getValidToken_cases w :
  getValidToken self w =
  match fst (loadTokens w) with
  | Ok (Some tokens) =>
      if (expires_at tokens - 60000 <=? now w)%Z then
        match refreshAccessToken self w with
        | (Ok (VObj o), w') => (Ok (get (lit "access_token") o), w')
        | (Ok _, w') => (Ok None, w')
        | (Throw e, w') => (Throw e, w')
        end
      else (Ok (Some (VStr (access_token tokens))), w)
  | _ => (Throw NoTokensFound, w)
  end.
Proof.
  unfold getValidToken. unfold bind at 1.
  destruct (loadTokens_world w) as [Hw [res Hr]].
  destruct (loadTokens w) as [res0 w0] eqn:El. simpl in Hw, Hr. subst w0 res0. simpl fst.
  destruct res as [tokens|]; [|reflexivity].
  unfold bind at 1, dateNow.
  destruct (expires_at tokens - 60000 <=? now w)%Z; [|reflexivity].
  unfold bind. destruct (refreshAccessToken self w) as [[[| | | | |o]|e] w']; reflexivity.
Qed.

(** What asking for a token leaves behind. *)
Lemma getValidToken_world w r w' :
  getValidToken self w = (r, w') ->
  written w' = written w
  /\ (w' = w
      \/ exists tokens,
           loadTokens w = (Ok (Some tokens), w) /\ refresh_token tokens <> []
           /\ (expires_at tokens - 60000 <= now w)%Z
           /\ requests w' = requests w ++ [refreshRequest self (refresh_token tokens)])
  /\ match r with
     | Ok _ => exists v, tokenFile w' = Some (Parsed v)
     | Throw _ => tokenFile w' = tokenFile w
     end.
Proof.
  rewrite getValidToken_cases.
  destruct (loadTokens_world w) as [Hw [res Hr]].
  destruct (loadTokens w) as [res0 w0] eqn:El. simpl in Hw, Hr. subst w0 res0. simpl fst.
  destruct res as [tokens|]; [|intros [= <- <-]; auto].
  destruct (Z.leb_spec (expires_at tokens - 60000) (now w)) as [Hdue|Hfresh].
  - destruct (refreshAccessToken self w) as [r1 w1] eqn:Er.
    apply refresh_world in Er as (Hwr & Hreq & Hfile).
    assert (Hreq' : w1 = w \/ exists tokens0,
              (Ok (Some tokens), w) = (Ok (Some tokens0), w) /\ refresh_token tokens0 <> []
              /\ (expires_at tokens0 - 60000 <= now w)%Z
              /\ requests w1 = requests w ++ [refreshRequest self (refresh_token tokens0)]).
    { rewrite El in Hreq.
      destruct Hreq as [-> | (tokens0 & [= <-] & Hne & Hreq)]; [now left|].
      right. exists tokens. auto. }
    destruct r1 as [[| | | | |o]|e]; intros [= <- <-]; auto.
  - intros [= <- <-]. split; [reflexivity|]. split; [now left|].
    apply loadTokens_some in El as [_ H]. exact H.
Qed.

(** The three steps succeed on every answer but [null]. *)
Lemma store_succeeds data w :
  data <> VNull ->
  exists td w',
    (do tokenData <- withExpiry data ; await saveTokens tokenData ; ret tokenData) w = (Ok td, w').
Proof.
  intros Hd. unfold withExpiry, bind, dateNow, ret, throw, saveTokens.
  destruct data; try congruence; simpl; eauto.
Qed.

(** What the three steps after an answer leave in the token file. *)
Lemma store_holds data w td w' :
  (do tokenData <- withExpiry data ; await saveTokens tokenData ; ret tokenData) w = (Ok td, w') ->
  now w' = now w /\ holdsGrant data w'.
Proof.
  unfold bind at 1.
  destruct (withExpiry data w) as [[tokenData|e] w1] eqn:E; [|discriminate].
  assert (E' := E). revert E'. unfold withExpiry, bind, dateNow, ret, throw.
  destruct (member data (lit "expires_in")) as [expires_in_|] eqn:Em; [|discriminate].
  intros [= Htd <-]. unfold bind, saveTokens, ret. intros [= <- <-].
  split; [reflexivity|]. unfold holdsGrant. cbn [tokenFile now].
  exists (List.map (fun kv => (fst kv, reparse (snd kv)))
            (set (lit "expires_at")
               (VNum (nadd (Int (now w)) (nmul (toNumber expires_in_) (Int 1000))))
               (spread data))).
  split; [now rewrite <- Htd|]. split; [|split].
  - intros answer i -> Hi _. simpl in Em. injection Em as <-.
    rewrite !get_reparse, get_set_eq, get_set_ne by discriminate.
    simpl spread. rewrite Hi. simpl. auto.
  - intros answer -> _. simpl in Em. injection Em as <-.
    change (VObj (List.map (fun kv => (fst kv, reparse (snd kv)))
                    (set (lit "expires_at")
                       (VNum (nadd (Int (now w))
                                (nmul (toNumber (get (lit "expires_in") answer)) (Int 1000))))
                       (spread (VObj answer)))))
      with (reparse (VObj (set (lit "expires_at")
                             (VNum (nadd (Int (now w))
                                      (nmul (toNumber (get (lit "expires_in") answer))
                                         (Int 1000))))
                             answer))).
    rewrite parse_reparse. apply parse_grant.
  - intros r Hp _.
    apply (withExpiry_parse data w tokenData w r E). now rewrite <- Htd.
Qed.

End WithRuntime.
End StoreFacts.

(** ** The client *)

Module ClientFacts.
Import Js Json Sys Io Api OAuth Client OAuthFacts StoreFacts CallSpec.

Section WithRuntime.
Context {rt : Runtime} (oauth : OAuthManager).

Lemma request_cases endpoint w :
  request oauth endpoint w =
  match getValidToken oauth w with
  | (Ok token, w1) =>
      let response := server (requests w1) (apiRequest token endpoint) in
      (if ok response then Ok response else Throw (ApiError (text response)),
       snd (fetch (apiRequest token endpoint) w1))
  | (Throw e, w1) => (Throw e, w1)
  end.
Proof.
  unfold request. unfold bind at 1.
  destruct (getValidToken oauth w) as [[token|e] w1]; [|reflexivity].
  unfold bind, fetch, apiRequest. cbv zeta.
  destruct (ok (server (requests w1) _)); reflexivity.
Qed.

Lemma getConversation_cases cid w :
  getConversation oauth cid w =
  match request oauth (lit "/conversations/" ++ cid ++ lit "?embed=threads") w with
  | (Ok response, w') =>
      (match conversation response with
       | Some c => Ok c
       | None => Throw BadResponseBody
       end, w')
  | (Throw e, w') => (Throw e, w')
  end.
Proof.
  unfold getConversation. unfold bind at 1.
  destruct (request oauth _ w) as [[response|e] w']; [|reflexivity].
  destruct (conversation response); reflexivity.
Qed.

(** A request writes no file. *)
Lemma request_written endpoint w r w' :
  request oauth endpoint w = (r, w') -> written w' = written w.
Proof.
  rewrite request_cases.
  destruct (getValidToken oauth w) as [[token|e] w1] eqn:E;
    apply getValidToken_world in E as [Hw _]; intros [= _ <-]; exact Hw.
Qed.

Lemma getConversation_written cid w r w' :
  getConversation oauth cid w = (r, w') -> written w' = written w.
Proof.
  rewrite getConversation_cases.
  destruct (request oauth _ w) as [[response|e] w1] eqn:E;
    apply request_written in E; now intros [= _ <-].
Qed.

Lemma authenticate_unfold w :
  authenticate oauth w =
  match getValidToken oauth w with
  | (Ok _, w1) => (Ok tt, w1)
  | (Throw _, w1) =>
      (do code <- startAuthServer ;
       await exchangeCodeForToken oauth code ;
       ret tt) w1
  end.
Proof.
  unfold authenticate, tryCatch. unfold bind at 1.
  destruct (getValidToken oauth w) as [[token|e] w1]; reflexivity.
Qed.

Lemma downloadAttachment_cases cid a w :
  downloadAttachment oauth cid a w =
  if truthy (href a) then
    match getValidToken oauth w with
    | (Ok token, w1) =>
        let call := dataRequest token (default [] (href a)) in
        let response := server (requests w1) call in
        (if ok response then Ok (bytes response)
         else Throw (DownloadFailed (filename a) (statusText response)),
         snd (fetch call w1))
    | (Throw e, w1) => (Throw e, w1)
    end
  else (Throw (NoDownloadLink (filename a)), w).
Proof.
  unfold downloadAttachment. destruct (truthy (href a)); [|reflexivity].
  change (negb true) with false. cbv beta iota. unfold bind at 1.
  destruct (getValidToken oauth w) as [[token|e] w1]; [|reflexivity].
  unfold bind, fetch, dataRequest. cbv zeta.
  destruct (ok (server (requests w1) _)); reflexivity.
Qed.

(** A download writes no file. *)
Lemma downloadAttachment_written cid a w r w' :
  downloadAttachment oauth cid a w = (r, w') -> written w' = written w.
Proof.
  rewrite downloadAttachment_cases.
  destruct (truthy (href a)); [|now intros [= _ <-]].
  destruct (getValidToken oauth w) as [[token|e] w1] eqn:E;
    apply getValidToken_world in E as [Hw _]; intros [= _ <-]; exact Hw.
Qed.

End WithRuntime.
End ClientFacts.

(** ** The files of the attachments *)

Module FileFacts.
Import Js Regex Json Sys Io Api OAuth Client Markdown Commands RunSpec RunFacts.
Import OAuthFacts StoreFacts ClientFacts FileSpec SizeFacts.

(** *** The decimal form of an identifier *)

Lemma ofZ_negative p : ofZ (Z.neg p) = 45 :: ofZ (Z.pos p).
Proof.
  unfold ofZ, Z.to_int, NilZero.string_of_int, NilZero.string_of_uint.
  pose proof (Unsigned.to_uint_nonnil p) as Hp.
  destruct (Pos.to_uint p); [congruence | reflexivity ..].
Qed.

Lemma ofZ_injective x y : ofZ x = ofZ y -> x = y.
Proof.
  assert (Hpos : forall a b, (0 <= a)%Z -> (0 <= b)%Z -> ofZ a = ofZ b -> a = b).
  { intros a b Ha Hb E. apply (f_equal decimalValue) in E.
    rewrite !ofZ_value in E by assumption. congruence. }
  assert (Hmix : forall a p, (0 <= a)%Z -> ofZ a <> ofZ (Z.neg p)).
  { intros a p Ha E. pose proof (ofZ_digits a Ha) as Hd.
    rewrite E, ofZ_negative in Hd. discriminate Hd. }
  destruct x as [|p|p], y as [|q|q]; intros E;
    try (apply Hpos; [lia | lia | exact E]);
    try (exfalso; eapply Hmix; [|exact E]; lia);
    try (exfalso; eapply Hmix; [|exact (eq_sym E)]; lia).
  rewrite !ofZ_negative in E. apply (f_equal (@tl N)) in E. simpl in E.
  apply Hpos in E; [|lia|lia]. congruence.
Qed.

(** The digits of an identifier, after its sign. *)
Lemma ofZ_shape z :
  exists sign ds, ofZ z = sign ++ ds /\ (sign = [] \/ sign = [45]) /\ numeric ds = true.
Proof.
  destruct z as [|p|p].
  - exists [], (ofZ 0). split; [reflexivity|]. split; [now left | reflexivity].
  - exists [], (ofZ (Z.pos p)). split; [reflexivity|]. split; [now left|].
    apply ofZ_digits. lia.
  - exists [45], (ofZ (Z.pos p)). split; [apply ofZ_negative|]. split; [now right|].
    apply ofZ_digits. lia.
Qed.

(** Two texts of digits before a separator that is not a digit. *)
Lemma digits_split x : forall y c r r',
  forallb isDigit x = true -> forallb isDigit y = true -> isDigit c = false ->
  x ++ c :: r = y ++ c :: r' -> x = y /\ r = r'.
Proof.
  induction x as [|a x IH]; intros y c r r' Hx Hy Hc E.
  - destruct y as [|b y]; [now injection E|].
    injection E as -> _. simpl in Hy. rewrite Hc in Hy. discriminate.
  - destruct y as [|b y].
    + injection E as -> _. simpl in Hx. rewrite Hc in Hx. discriminate.
    + injection E as -> E. simpl in Hx, Hy.
      apply andb_prop in Hx as [_ Hx]. apply andb_prop in Hy as [_ Hy].
      destruct (IH y c r r' Hx Hy Hc E) as [-> ->]. auto.
Qed.

Lemma numeric_all s : numeric s = true -> forallb isDigit s = true /\ s <> [].
Proof. destruct s; [discriminate|]. intros H. split; [exact H | discriminate]. Qed.

(** An identifier before a separator that is neither a digit nor the sign. *)
Lemma ofZ_split x y c r r' :
  isDigit c = false ->
  ofZ x ++ c :: r = ofZ y ++ c :: r' -> x = y /\ r = r'.
Proof.
  intros Hc E.
  destruct (ofZ_shape x) as (sx & dx & Ex & Hsx & Hdx).
  destruct (ofZ_shape y) as (sy & dy & Ey & Hsy & Hdy).
  apply numeric_all in Hdx as [Hdx Hnx]. apply numeric_all in Hdy as [Hdy Hny].
  assert (Heq : ofZ x = ofZ y /\ r = r').
  { rewrite Ex, Ey in E |- *. rewrite <- !app_assoc in E.
    destruct Hsx as [-> | ->], Hsy as [-> | ->]; simpl in E |- *.
    - destruct (digits_split _ _ _ _ _ Hdx Hdy Hc E) as [-> ->]. auto.
    - exfalso. destruct dx as [|a dx]; [congruence|].
      injection E as -> _. simpl in Hdx. discriminate.
    - exfalso. destruct dy as [|a dy]; [congruence|].
      injection E as <- _. simpl in Hdy. discriminate.
    - apply (f_equal (@tl N)) in E. simpl in E.
      destruct (digits_split _ _ _ _ _ Hdx Hdy Hc E) as [-> ->]. auto. }
  destruct Heq as [Heq ->]. split; [now apply ofZ_injective | reflexivity].
Qed.

Lemma pathKey_injective t a t' a' :
  pathKey t a = pathKey t' a' -> t = t' /\ a = a'.
Proof.
  unfold pathKey. change (lit "-" ++ ?x) with (45 :: x). intros E.
  apply ofZ_split in E as [-> E]; [|reflexivity].
  split; [reflexivity | now apply ofZ_injective].
Qed.

Lemma uniqueName_injective t a t' a' :
  uniqueName t a = uniqueName t' a' ->
  thread_id t = thread_id t' /\ attachment_id a = attachment_id a'
  /\ sanitizeFilename (filename a) = sanitizeFilename (filename a').
Proof.
  unfold uniqueName. change (lit "_" ++ ?x) with (95 :: x). intros E.
  apply ofZ_split in E as [E1 E]; [|reflexivity].
  apply ofZ_split in E as [E2 E]; [|reflexivity]. auto.
Qed.

Section WithRuntime.
Context {rt : Runtime} (oauth : OAuthManager) (cid dir : str).

(** *** One attachment *)

Lemma fetchAttachment_outcome t a w r w' :
  fetchAttachment oauth cid dir t a w = (r, w') ->
  match r with
  | Ok entry =>
      entry = (pathKey (thread_id t) (attachment_id a), lit "./attachments/" ++ uniqueName t a)
      /\ exists data,
           written w' = written w ++ [(pathJoin dir (uniqueName t a), Binary data)]
  | Throw _ => written w' = written w
  end.
Proof.
  unfold fetchAttachment. unfold bind at 1.
  destruct (downloadAttachment oauth cid a w) as [[data|e] w1] eqn:E;
    apply downloadAttachment_written in E; [|now intros [= <- <-]].
  unfold bind, writeFile. fold (uniqueName t a).
  destruct (writable (pathJoin dir (uniqueName t a))); intros [= <- <-]; simpl.
  - split; [reflexivity|]. exists data. now rewrite E.
  - exact E.
Qed.

(** *** The attachments in turn *)

Lemma attempts_files todo : forall w,
  exists files,
    written (snd (attempts oauth cid dir todo w)) = written w ++ files
    /\ (forall t a entry,
          In (t, a, Ok entry) (fst (attempts oauth cid dir todo w)) ->
          entry = (pathKey (thread_id t) (attachment_id a),
                   lit "./attachments/" ++ uniqueName t a)
          /\ exists data, In (pathJoin dir (uniqueName t a), Binary data) files)
    /\ (forall path data,
          In (path, data) files ->
          exists t a entry bytes,
            In (t, a, Ok entry) (fst (attempts oauth cid dir todo w))
            /\ path = pathJoin dir (uniqueName t a) /\ data = Binary bytes).
Proof.
  induction todo as [|[t0 a0] todo IH]; intros w.
  - exists []. simpl. rewrite app_nil_r. split; [reflexivity|].
    split; [intros ? ? ? [] | intros ? ? []].
  - simpl. destruct (fetchAttachment oauth cid dir t0 a0 w) as [r w1] eqn:E.
    apply fetchAttachment_outcome in E.
    destruct (IH w1) as (files & Hw & Hin & Hout).
    destruct (attempts oauth cid dir todo w1) as [log w2]. simpl in *.
    destruct r as [entry0|e].
    + destruct E as [-> [data Hd]].
      exists ((pathJoin dir (uniqueName t0 a0), Binary data) :: files).
      split; [rewrite Hw, Hd, <- app_assoc; reflexivity|]. split.
      * intros t a entry [[= <- <- <-] | H].
        { split; [reflexivity|]. exists data. now left. }
        { destruct (Hin t a entry H) as [-> [d Hd']]. split; [reflexivity|].
          exists d. now right. }
      * intros path c [[= <- <-] | H].
        { exists t0, a0, (pathKey (thread_id t0) (attachment_id a0),
                          lit "./attachments/" ++ uniqueName t0 a0), data. auto. }
        { destruct (Hout path c H) as (t & a & entry & bs & H1 & H2 & H3).
          exists t, a, entry, bs. auto. }
    + exists files. split; [now rewrite Hw, E|]. split.
      * intros t a entry [[=] | H]. auto.
      * intros path c H. destruct (Hout path c H) as (t & a & entry & bs & H1 & H2 & H3).
        exists t, a, entry, bs. auto.
Qed.

(** *** The index *)

Lemma indexOf_some log : forall acc k p,
  indexOf log acc !! k = Some p ->
  acc !! k = Some p \/ exists t a, In (t, a, Ok (k, p)) log.
Proof.
  induction log as [|[[t0 a0] [[k0 p0]|e]] log IH]; intros acc k p; simpl.
  - auto.
  - intros H. apply IH in H as [H | (t & a & H)]; [|right; eauto].
    apply lookup_insert_Some in H as [[<- <-] | [_ H]]; [right; eauto | now left].
  - intros H. apply IH in H as [H | (t & a & H)]; [now left | right; eauto].
Qed.

Lemma indexOf_unique log : forall acc k p,
  (forall t a entry, In (t, a, Ok entry) log -> fst entry = k -> snd entry = p) ->
  (acc !! k = Some p \/ exists t a, In (t, a, Ok (k, p)) log) ->
  indexOf log acc !! k = Some p.
Proof.
  induction log as [|[[t0 a0] [[k0 p0]|e]] log IH]; intros acc k p Hall H; simpl.
  - destruct H as [H | (t & a & [])]. exact H.
  - apply IH; [intros t a entry Hin; apply (Hall t a entry); now right|].
    destruct (decide (k0 = k)) as [->|Hne].
    + left. assert (p0 = p) as ->
        by (apply (Hall t0 a0 (k, p0)); [now left | reflexivity]).
      simpl. apply lookup_insert_Some. now left.
    + destruct H as [H | (t & a & [[= _ _ -> _] | H])]; [|congruence|right; eauto].
      left. now rewrite lookup_insert_ne.
  - apply IH; [intros t a entry Hin; apply (Hall t a entry); now right|].
    destruct H as [H | (t & a & [[=] | H])]; [now left | right; eauto].
Qed.

Lemma downloadAll_attempts threads w :
  downloadAll oauth cid dir threads w
  = (Ok (indexOf (fst (attempts oauth cid dir (pairs threads) w)) ∅),
     snd (attempts oauth cid dir (pairs threads) w)).
Proof.
  unfold downloadAll. rewrite downloadAll_loop.
  now destruct (attempts oauth cid dir (pairs threads) w).
Qed.

Lemma attachmentLine_link paths t a p :
  paths !! pathKey (thread_id t) (attachment_id a) = Some p -> p <> [] ->
  attachmentLine paths t a = linkLine a p.
Proof.
  unfold attachmentLine, linkLine. intros -> Hp.
  destruct p; [congruence | reflexivity].
Qed.

End WithRuntime.
End FileFacts.

(** ** The lines of the transcript *)

Module TranscriptFacts.
Import Js Json Sys Io Api OAuth Client Markdown Commands.
Import RunSpec FileSpec TranscriptSpec RunFacts FileFacts.

Lemma startsWith_app part rest : startsWith part (part ++ rest) = true.
Proof.
  induction part as [|a p IH]; [reflexivity|].
  simpl. now rewrite N.eqb_refl.
Qed.

Lemma includes_start part text : startsWith part text = true -> includes part text = true.
Proof. intros H. destruct text; simpl; now rewrite H. Qed.

Lemma includes_app part before after : includes part (before ++ part ++ after) = true.
Proof.
  induction before as [|b before IH].
  - change ([] ++ part ++ after) with (part ++ after).
    apply includes_start, startsWith_app.
  - simpl. rewrite IH. apply orb_true_r.
Qed.

Lemma join_cons sep x l : l <> [] -> join sep (x :: l) = x ++ sep ++ join sep l.
Proof. destruct l; [congruence | reflexivity]. Qed.

Lemma join_app sep l1 : forall l2, l1 <> [] -> l2 <> [] ->
  join sep (l1 ++ l2) = join sep l1 ++ sep ++ join sep l2.
Proof.
  induction l1 as [|x l1 IH]; intros l2 H1 H2; [congruence|].
  destruct l1 as [|y l1].
  - simpl app. now rewrite join_cons.
  - change ((x :: y :: l1) ++ l2) with (x :: (y :: l1) ++ l2).
    rewrite join_cons by discriminate. rewrite IH by (auto; discriminate).
    rewrite (join_cons sep x (y :: l1)) by discriminate.
    now rewrite <- !app_assoc.
Qed.

(** An inner line of a document is a line of its text. *)
Lemma hasLine_join l x : inside x l -> hasLine (join nl l) x = true.
Proof.
  intros (l1 & l2 & -> & H1 & H2). unfold hasLine.
  rewrite join_app by (auto; discriminate). rewrite join_cons by exact H2.
  replace (join nl l1 ++ nl ++ x ++ nl ++ join nl l2)
    with (join nl l1 ++ (nl ++ x ++ nl) ++ join nl l2)
    by (now rewrite <- !app_assoc).
  apply includes_app.
Qed.

Section Inside.
Context {A : Type}.

Lemma inside_between (x : A) p m r :
  In x m -> p <> [] -> r <> [] -> inside x (p ++ m ++ r).
Proof.
  intros Hin Hp Hr. apply in_split in Hin as (m1 & m2 & ->).
  exists (p ++ m1), (m2 ++ r). split; [now rewrite <- !app_assoc|].
  split; [destruct p; [congruence | discriminate] | destruct m2; [exact Hr | discriminate]].
Qed.

Lemma inside_app_l (x : A) l r : inside x l -> inside x (l ++ r).
Proof.
  intros (l1 & l2 & -> & H1 & H2). exists l1, (l2 ++ r).
  split; [now rewrite <- app_assoc|]. split; [exact H1|].
  destruct l2; [congruence | discriminate].
Qed.

Lemma inside_app_r (x : A) p l : inside x l -> inside x (p ++ l).
Proof.
  intros (l1 & l2 & -> & H1 & H2). exists (p ++ l1), l2.
  split; [now rewrite <- app_assoc|]. split; [|exact H2].
  destruct p; [exact H1 | discriminate].
Qed.

Lemma inside_flat_map {B} (f : B -> list A) l b (x : A) :
  In b l -> inside x (f b) -> inside x (flat_map f l).
Proof.
  intros Hin Hx. apply in_split in Hin as (l1 & l2 & ->).
  rewrite flat_map_app. simpl. now apply inside_app_r, inside_app_l.
Qed.

End Inside.

Section WithRuntime.
Context {rt : Runtime} (oauth : OAuthManager).

(** The entry of an attachment is an inner line of its thread, and of
    the document. *)
Lemma formatThread_inside t paths a :
  In a (attachmentsOf t) -> inside (attachmentLine paths t a) (formatThread t paths).
Proof.
  intros Ha. unfold formatThread.
  apply inside_app_r, inside_app_r, inside_app_r, inside_app_l.
  destruct (attachmentsOf t) as [|a0 atts] eqn:E; [contradiction|].
  apply inside_between; [now apply in_map | discriminate | discriminate].
Qed.

Lemma documentLines_inside conversation paths t line :
  In t (threadsOf conversation) -> inside line (formatThread t paths) ->
  inside line (documentLines conversation paths).
Proof.
  intros Ht Hl. unfold documentLines.
  do 5 apply inside_app_r.
  apply (inside_flat_map _ _ t); [exact Ht|]. now apply inside_app_l.
Qed.

Lemma transcript_attachment conversation paths t a :
  In t (threadsOf conversation) -> In a (attachmentsOf t) ->
  hasLine (conversationToMarkdown conversation paths) (attachmentLine paths t a) = true.
Proof.
  intros Ht Ha. unfold conversationToMarkdown. apply hasLine_join.
  eapply documentLines_inside; [exact Ht|]. now apply formatThread_inside.
Qed.

(** A run that has the conversation and can write its two files. *)
Lemma downloadConversation_completes link output w w1 w2 cid conversation :
  authenticate oauth w = (Ok tt, w1) ->
  extractConversationId link = Ok cid ->
  getConversation oauth cid w1 = (Ok conversation, w2) ->
  let outputDir := pathJoin output cid in
  let attachmentsDir := pathJoin outputDir (lit "attachments") in
  let markdownPath := pathJoin outputDir (lit "conversation_" ++ cid ++ lit ".md") in
  let metadataPath := pathJoin outputDir (lit "metadata.json") in
  writable markdownPath = true -> writable metadataPath = true ->
  let todo := pairs (threadsOf conversation) in
  let log := fst (attempts oauth cid attachmentsDir todo w2) in
  let w3 := snd (attempts oauth cid attachmentsDir todo w2) in
  downloadConversation oauth link output w
  = (Ok tt,
     {| now := now w3; tokenFile := tokenFile w3; requests := requests w3;
        written := written w3
          ++ [ (markdownPath, Text (conversationToMarkdown conversation (indexOf log ∅)));
               (metadataPath,
                JsonText (metadata conversation (now w3)
                            (countAttachments (threadsOf conversation)))) ] |}).
Proof.
  intros Hauth Hid Hconv outputDir attachmentsDir markdownPath metadataPath
    Hmd Hmeta todo log w3.
  unfold downloadConversation, bind at 1. rewrite Hauth.
  unfold bind at 1, lift. rewrite Hid.
  unfold bind at 1. rewrite Hconv.
  unfold bind at 1. fold outputDir attachmentsDir.
  rewrite download_loops. fold todo log w3.
  unfold bind at 1, writeFile at 1. fold markdownPath. rewrite Hmd.
  unfold bind, dateNow, writeFile. fold metadataPath. rewrite Hmeta. simpl.
  now rewrite <- app_assoc.
Qed.

End WithRuntime.
End TranscriptFacts.

(** ** Encoded values *)

Module UrlFacts.
Import Js Authorization UrlSpec.

Lemma byte_cases (P : N -> Prop) :
  List.Forall P (List.map N.of_nat (seq 0 256)) -> forall b, b < 256 -> P b.
Proof.
  intros H b Hb. rewrite List.Forall_forall in H. apply H.
  apply in_map_iff. exists (N.to_nat b). split; [apply N2Nat.id|].
  apply in_seq. lia.
Qed.

Lemma encodeByte_safe b : b < 256 -> forallb urlSafe (encodeByte b) = true.
Proof.
  revert b. apply byte_cases. apply List.Forall_forall. apply forallb_forall.
  vm_compute. reflexivity.
Qed.

Lemma utf8_bytes p : p < 1114112 -> List.Forall (fun b => b < 256) (utf8 p).
Proof.
  intros Hp. unfold utf8.
  assert (H64 : forall x, 128 + x mod 64 < 256)
    by (intros x; pose proof (N.mod_upper_bound x 64); lia).
  destruct (N.ltb_spec p 128); [repeat constructor; lia|].
  destruct (N.ltb_spec p 2048).
  { repeat constructor; auto.
    assert (p / 64 < 32) by (apply N.Div0.div_lt_upper_bound; lia). lia. }
  destruct (N.ltb_spec p 65536).
  { repeat constructor; auto.
    assert (p / 4096 < 16) by (apply N.Div0.div_lt_upper_bound; lia). lia. }
  repeat constructor; auto.
  assert (p / 262144 < 5) by (apply N.Div0.div_lt_upper_bound; lia). lia.
Qed.

Lemma codePoints_range s :
  codeUnits s = true -> List.Forall (fun p => p < 1114112) (codePoints s).
Proof.
  induction s as [s IH] using (induction_ltof1 _ (@length N)); unfold ltof in IH.
  intros Hs. destruct s as [|c t]; [constructor|].
  unfold codeUnits in Hs. simpl in Hs. apply andb_prop in Hs as [Hc Ht].
  apply N.ltb_lt in Hc.
  assert (IHt : List.Forall (fun p => p < 1114112) (codePoints t))
    by (apply IH; [simpl; lia | exact Ht]).
  unfold codePoints; fold codePoints.
  destruct (isHigh c) eqn:Eh.
  - destruct t as [|d u]; [repeat constructor; lia|].
    destruct (isLow d) eqn:El; [|constructor; [lia | exact IHt]].
    simpl in Ht. apply andb_prop in Ht as [Hd Hu]. apply N.ltb_lt in Hd.
    constructor.
    + unfold isHigh in Eh. unfold isLow in El.
      apply andb_prop in Eh as [E1 E2]. apply andb_prop in El as [E3 E4].
      apply N.leb_le in E1, E2, E3, E4. lia.
    + apply IH; [simpl; lia | exact Hu].
  - destruct (isLow c); constructor; auto; lia.
Qed.

(** An encoded value holds only the code units left as they are, the
    percent sign and the plus sign. *)
Lemma formEncode_safe s : codeUnits s = true -> forallb urlSafe (formEncode s) = true.
Proof.
  intros Hs. unfold formEncode. apply forallb_forall. intros c Hc.
  apply in_flat_map in Hc as (b & Hb & Hc).
  apply in_flat_map in Hb as (p & Hp & Hb).
  pose proof (codePoints_range s Hs) as Hr. rewrite List.Forall_forall in Hr.
  pose proof (utf8_bytes p (Hr p Hp)) as Hu. rewrite List.Forall_forall in Hu.
  pose proof (encodeByte_safe b (Hu b Hb)) as He. rewrite forallb_forall in He. auto.
Qed.

(** Letters and digits are written as they are. *)
Lemma formEncode_alnum s : forallb isAlnum s = true -> formEncode s = s.
Proof.
  induction s as [|c t IH]; [reflexivity|].
  simpl. intros [Hc Ht]%andb_prop. specialize (IH Ht).
  assert (Hrange : 48 <= c /\ c <= 122).
  { unfold isAlnum, isDigit in Hc.
    repeat match type of Hc with
           | (_ || _ = true) => apply orb_prop in Hc as [Hc | Hc]
           end; apply andb_prop in Hc as [H1 H2]; apply N.leb_le in H1, H2; lia. }
  unfold formEncode in *. unfold codePoints; fold codePoints.
  assert (Eh : isHigh c = false)
    by (unfold isHigh; destruct (N.leb_spec 55296 c); [lia | reflexivity]).
  assert (El : isLow c = false)
    by (unfold isLow; destruct (N.leb_spec 56320 c); [lia | reflexivity]).
  rewrite Eh, El.
  change (flat_map utf8 (c :: codePoints t)) with (utf8 c ++ flat_map utf8 (codePoints t)).
  unfold utf8 at 1. destruct (N.ltb_spec c 128); [|lia].
  change (flat_map encodeByte ([c] ++ flat_map utf8 (codePoints t)))
    with (encodeByte c ++ flat_map encodeByte (flat_map utf8 (codePoints t))).
  rewrite IH. unfold encodeByte, formSafe. rewrite Hc. simpl.
  destruct (N.eqb_spec c 32); [lia | reflexivity].
Qed.

End UrlFacts.

(** ** The port *)

Module PortFacts.
Import Js Regex RegexFacts Numeral Setup.

Lemma exec_digits s :
  exec [[Bol; plus isDigit; Eol]] s = if numeric s then Some [s] else None.
Proof.
  assert (Hin : forall t, searchFrom [[Bol; plus isDigit; Eol]] false t = None)
    by (induction t as [|c t IH]; [reflexivity | exact IH]).
  unfold exec. destruct s as [|c t]; [reflexivity|].
  unfold searchFrom; fold searchFrom. rewrite Hin.
  unfold matchAt, matchSeq, plus, numeric.
  destruct (forallb isDigit (c :: t)) eqn:Hall.
  - rewrite (run_all _ _ Hall).
    rewrite (backtrack_first _ _ _ (O, [])).
    + rewrite Nat.add_0_r, firstn_all. reflexivity.
    + simpl; lia.
    + now rewrite skipn_all.
  - pose proof (run_not_all _ _ Hall) as Hlt.
    rewrite backtrack_none; [reflexivity|].
    intros k Hk.
    destruct (skipn k (c :: t)) eqn:E; [|reflexivity].
    apply (f_equal (@length N)) in E. rewrite length_skipn in E.
    simpl length in *. lia.
Qed.

Lemma digit_not_space c : isDigit c = true -> isSpace c = false.
Proof.
  unfold isDigit. intros [H1 H2]%andb_prop. apply N.leb_le in H1, H2.
  assert (H : c = 48 \/ c = 49 \/ c = 50 \/ c = 51 \/ c = 52 \/ c = 53 \/ c = 54
              \/ c = 55 \/ c = 56 \/ c = 57) by lia.
  repeat destruct H as [-> | H]; try reflexivity. now subst.
Qed.

(** [parseInt] on a text of digits. *)
Lemma parseInt10_numeric s : numeric s = true -> parseInt10 s = Int (digitsValue s).
Proof.
  destruct s as [|c t]; [discriminate|].
  unfold numeric. intros Hall. pose proof Hall as Hall'.
  simpl in Hall'. apply andb_prop in Hall' as [Hc _].
  unfold parseInt10. simpl dropWhile. rewrite (digit_not_space c Hc).
  assert (H45 : N.eqb c 45 = false).
  { unfold isDigit in Hc. apply andb_prop in Hc as [H1 _]. apply N.leb_le in H1.
    destruct (N.eqb_spec c 45); [lia | reflexivity]. }
  assert (H43 : N.eqb c 43 = false).
  { unfold isDigit in Hc. apply andb_prop in Hc as [H1 _]. apply N.leb_le in H1.
    destruct (N.eqb_spec c 43); [lia | reflexivity]. }
  rewrite H45, H43. rewrite (run_all _ _ Hall), firstn_all. reflexivity.
Qed.

End PortFacts.

(** * The claims *)

Section Claims.
Import Js Regex Json Sys Io Api OAuth Client Markdown Commands.
Import FilenameSpec LinkSpec SizeSpec StatsSpec TokenSpec RunSpec GrantSpec TranscriptSpec.
Import FilenameFacts LinkFacts SizeFacts StatsFacts OAuthFacts RunFacts StoreFacts.
Import TranscriptFacts.

(** C1 (the code departs from the claim).  [cleanHtml] turns the anchor
    [<a href=.https://example.com.>docs</a>] (the dots standing for the
    double quotes) into [[docs]($1)]: the replacement of the closing tag
    names a capture, and its pattern has none, so the two code units
    [$1] are kept and the address of the anchor is lost.  The result is
    not the Markdown link [[docs](https://example.com)]. *)
Theorem cleanHtml_anchor_loses_href :
  let anchor := lit "<a href=" ++ dquote ++ lit "https://example.com" ++ dquote
                ++ lit ">docs</a>" in
  cleanHtml anchor = lit "[docs]($1)"
  /\ cleanHtml anchor <> lit "[docs](https://example.com)".
Proof.
  intros anchor. split.
  - vm_compute. reflexivity.
  - vm_compute. discriminate.
Qed.

(** C2, as amended.  The threads of a conversation are those of the
    embedded resource when it is present, whatever the direct field
    holds; they are the direct field when the embedded resource is
    absent, and the empty sequence when both are absent.  The same holds
    of the attachments of a thread. *)
Theorem embedded_before_direct :
  (forall c e, conversation_embedded c = Some e -> threadsOf c = embedded_threads e)
  /\ (forall c l, conversation_embedded c = None -> threads c = Some l -> threadsOf c = l)
  /\ (forall c, conversation_embedded c = None -> threads c = None -> threadsOf c = [])
  /\ (forall t e, thread_embedded t = Some e -> attachmentsOf t = embedded_attachments e)
  /\ (forall t l, thread_embedded t = None -> attachments t = Some l -> attachmentsOf t = l)
  /\ (forall t, thread_embedded t = None -> attachments t = None -> attachmentsOf t = []).
Proof.
  unfold threadsOf, attachmentsOf, orElse.
  repeat split; intros; repeat match goal with H : _ = _ |- _ => rewrite H end; reflexivity.
Qed.

Lemma embedded_before_direct_witness :
  threadsOf Example.ticket = [Example.question; Example.answer]
  /\ threadsOf (Example.conversationOf (Some [Example.answer]) None) = [Example.answer]
  /\ threadsOf (Example.conversationOf None None) = []
  /\ attachmentsOf Example.question = [Example.invoice]
  /\ attachmentsOf (Example.thread 1 "customer" None "0" (Some [Example.invoice]) None)
     = [Example.invoice]
  /\ attachmentsOf Example.answer = [].
Proof.
  destruct embedded_before_direct as (H1 & H2 & H3 & H4 & H5 & H6).
  split; [exact (H1 Example.ticket _ eq_refl)|].
  split; [exact (H2 (Example.conversationOf (Some [Example.answer]) None) _ eq_refl eq_refl)|].
  split; [exact (H3 (Example.conversationOf None None) eq_refl eq_refl)|].
  split; [exact (H4 Example.question _ eq_refl)|].
  split; [exact (H5 (Example.thread 1 "customer" None "0" (Some [Example.invoice]) None)
                   _ eq_refl eq_refl)|].
  exact (H6 Example.answer eq_refl eq_refl).
Defined.

(** C2, as stated, fails: with both fields present the embedded one is
    used and not the direct one, for the threads of a conversation and
    for the attachments of a thread. *)
Lemma direct_field_not_preferred :
  let c := Example.conversationOf (Some [Example.question])
             (Some {| embedded_threads := [Example.answer] |}) in
  let t := Example.thread 1 "customer" None "0" (Some [Example.invoice])
             (Some {| embedded_attachments := [] |}) in
  threads c = Some [Example.question]
  /\ threadsOf c = [Example.answer]
  /\ threadsOf c <> [Example.question]
  /\ attachments t = Some [Example.invoice]
  /\ attachmentsOf t = []
  /\ attachmentsOf t <> [Example.invoice].
Proof. repeat split; discriminate. Qed.

(** C3, as amended.  For a stored record that [loadTokens] accepts:
    before the last minute of its life, [getValidToken] returns the
    cached access token and leaves the world as it was (no call, nothing
    stored); from then on, when the record has a refresh token and the
    token endpoint answers the refresh with success and a JSON object,
    it makes exactly one call, the refresh, stores the answer with the
    expiry computed at that time, and returns the access token of the
    answer. *)
Theorem getValidToken_spec {rt : Runtime} (self : OAuthManager) (w : World)
    (tokens : TokenData) :
  loadTokens w = (Ok (Some tokens), w) ->
  ((now w < expires_at tokens - 60000)%Z ->
     getValidToken self w = (Ok (Some (VStr (access_token tokens))), w))
  /\ ((expires_at tokens - 60000 <= now w)%Z ->
      refresh_token tokens <> [] ->
      let call := refreshRequest self (refresh_token tokens) in
      let response := server (requests w) call in
      ok response = true ->
      forall o, json response = Some (VObj o) ->
      let issued := (now w + elapsed response)%Z in
      let refreshed :=
        VObj (set (lit "expires_at")
                (VNum (nadd (Int issued)
                         (nmul (toNumber (get (lit "expires_in") o)) (Int 1000))))
                o) in
      getValidToken self w
      = (Ok (get (lit "access_token") o),
         {| now := issued;
            tokenFile := Some (Parsed (reparse refreshed));
            requests := requests w ++ [call];
            written := written w |})).
Proof.
  intros Hload. split.
  - intros Hfresh. unfold getValidToken, bind. rewrite Hload.
    unfold dateNow. destruct (Z.leb_spec (expires_at tokens - 60000) (now w)); [lia|].
    reflexivity.
  - intros Hdue Hrefresh call response Hok o Hjson issued refreshed.
    unfold getValidToken, bind. rewrite Hload.
    unfold dateNow. destruct (Z.leb_spec (expires_at tokens - 60000) (now w)); [|lia].
    unfold refreshAccessToken, bind. rewrite Hload.
    destruct (refresh_token tokens) as [|c t] eqn:Er; [congruence|].
    unfold fetch. fold call. fold response. rewrite Hok. simpl negb. cbv iota.
    unfold responseJson. rewrite Hjson. unfold ret at 1.
    unfold withExpiry, bind, dateNow, member, ret, saveTokens. simpl.
    rewrite get_set_ne by discriminate. reflexivity.
Qed.

Lemma getValidToken_spec_witness :
  getValidToken (rt := Example.runtime) Example.manager
    (Example.worldAt 5000 (Some (Parsed (Example.record "keep" 100000000))))
  = (Ok (Some (VStr (lit "cached"))),
     Example.worldAt 5000 (Some (Parsed (Example.record "keep" 100000000))))
  /\ fst (getValidToken (rt := Example.runtime) Example.manager
            (Example.worldAt 5000 (Some (Parsed (Example.record "keep" 60000)))))
     = Ok (Some (VStr (lit "fresh"))).
Proof.
  split.
  - apply (proj1 (getValidToken_spec (rt := Example.runtime) Example.manager
                    (Example.worldAt 5000 (Some (Parsed (Example.record "keep" 100000000))))
                    {| access_token := lit "cached"; refresh_token := lit "keep";
                       token_type := lit "bearer"; expires_in := 172800;
                       expires_at := 100000000 |} eq_refl)).
    simpl. lia.
  - rewrite (proj2 (getValidToken_spec (rt := Example.runtime) Example.manager
                      (Example.worldAt 5000 (Some (Parsed (Example.record "keep" 60000))))
                      {| access_token := lit "cached"; refresh_token := lit "keep";
                         token_type := lit "bearer"; expires_in := 172800;
                         expires_at := 60000 |} eq_refl)
               ltac:(simpl; lia) ltac:(discriminate) eq_refl
               [ (lit "access_token", VStr (lit "fresh"));
                 (lit "refresh_token", VStr (lit "again"));
                 (lit "token_type", VStr (lit "bearer"));
                 (lit "expires_in", VNum (Int 172800)) ] eq_refl).
    reflexivity.
Defined.

(** C3, as stated, fails: a record that is due and whose refresh token
    is empty is accepted by the store, and [getValidToken] then makes no
    call, stores nothing and returns no token. *)
Lemma due_without_refresh_token :
  let w := Example.worldAt 5000 (Some (Parsed (Example.record "" 60000))) in
  (exists tokens, loadTokens w = (Ok (Some tokens), w)
                  /\ (expires_at tokens - 60000 <= now w)%Z)
  /\ getValidToken (rt := Example.runtime) Example.manager w = (Throw NoRefreshToken, w)
  /\ requests w = [].
Proof.
  intros w. split; [|split; reflexivity].
  eexists. split; [reflexivity|]. simpl. lia.
Qed.




(** C5, as amended.  When the conversation has been fetched and the
    transcript and the metadata can be written, [downloadConversation]
    completes whatever happens to the attachments, and writes the
    transcript and the metadata after the files of the attachments.
    Each attachment has its turn, in the order of the loops, from the
    world that the ones before it left; an attachment without a
    download link fails; a key is absent from the path index exactly
    when every attachment with that key failed; the entry of such an
    attachment is its bare file name with its size, and the transcript
    that is written has this line (so it is for every failed attachment
    when no two attachments have the same key); and the metadata counts
    every attachment. *)
Theorem attachment_failures_are_skipped {rt : Runtime} (oauth : OAuthManager)
    (link output : str) (w w1 w2 : World) (cid : str) (conversation : Conversation) :
  authenticate oauth w = (Ok tt, w1) ->
  extractConversationId link = Ok cid ->
  getConversation oauth cid w1 = (Ok conversation, w2) ->
  let outputDir := pathJoin output cid in
  let attachmentsDir := pathJoin outputDir (lit "attachments") in
  let markdownPath := pathJoin outputDir (lit "conversation_" ++ cid ++ lit ".md") in
  let metadataPath := pathJoin outputDir (lit "metadata.json") in
  writable markdownPath = true -> writable metadataPath = true ->
  let todo := pairs (threadsOf conversation) in
  let log := fst (attempts oauth cid attachmentsDir todo w2) in
  let w3 := snd (attempts oauth cid attachmentsDir todo w2) in
  exists attachmentPaths meta,
    let transcript := conversationToMarkdown conversation attachmentPaths in
    downloadConversation oauth link output w
    = (Ok tt,
       {| now := now w3; tokenFile := tokenFile w3; requests := requests w3;
          written := written w3
            ++ [ (markdownPath, Text transcript); (metadataPath, JsonText (VObj meta)) ] |})
    /\ List.map fst log = todo
    /\ (forall t a outcome,
          In (t, a, outcome) log -> truthy (href a) = false -> failed outcome)
    /\ (forall k,
          attachmentPaths !! k = None <->
          forall t a outcome,
            In (t, a, outcome) log -> pathKey (thread_id t) (attachment_id a) = k ->
            failed outcome)
    /\ (forall t a,
          In (t, a) todo ->
          (forall t' a' outcome,
             In (t', a', outcome) log ->
             pathKey (thread_id t') (attachment_id a')
             = pathKey (thread_id t) (attachment_id a) ->
             failed outcome) ->
          attachmentPaths !! pathKey (thread_id t) (attachment_id a) = None
          /\ attachmentLine attachmentPaths t a = bareLine a
          /\ hasLine transcript (bareLine a) = true)
    /\ (List.NoDup (List.map keyOf todo) ->
        forall t a outcome,
          In (t, a, outcome) log -> failed outcome ->
          attachmentPaths !! keyOf (t, a) = None
          /\ attachmentLine attachmentPaths t a = bareLine a
          /\ hasLine transcript (bareLine a) = true)
    /\ get (lit "attachmentCount") meta = Some (VNum (Int (Z.of_nat (length todo)))).
Proof.
  intros Hauth Hid Hconv outputDir attachmentsDir markdownPath metadataPath
    Hmd Hmeta todo log w3.
  set (paths := indexOf log ∅).
  destruct (metadata_count conversation (now w3) (countAttachments (threadsOf conversation)))
    as (meta & Hm & Hcount).
  exists paths, meta. cbv zeta.
  assert (Hindex : forall k,
            paths !! k = None <->
            forall t a outcome,
              In (t, a, outcome) log -> pathKey (thread_id t) (attachment_id a) = k ->
              failed outcome).
  { intros k. unfold paths. rewrite indexOf_lookup. split.
    - intros [_ H] t a [entry|e] Hin Hk; [|exact I].
      destruct (attempts_keys oauth cid attachmentsDir todo w2 t a entry Hin) as [Hkey _].
      apply (H t a entry Hin). congruence.
    - intros H. split; [apply lookup_empty|].
      intros t a entry Hin Hk.
      destruct (attempts_keys oauth cid attachmentsDir todo w2 t a entry Hin) as [Hkey _].
      apply (H t a (Ok entry) Hin). congruence. }
  split.
  { rewrite <- Hm.
    exact (downloadConversation_completes oauth link output w w1 w2 cid conversation
             Hauth Hid Hconv Hmd Hmeta). }
  split; [apply attempts_todo|].
  split.
  { intros t a outcome Hin Hl.
    rewrite (attempts_no_link oauth cid attachmentsDir todo w2 t a outcome Hin Hl). exact I. }
  split; [exact Hindex|].
  assert (Hbare : forall t a,
            In (t, a) todo ->
            (forall t' a' outcome,
               In (t', a', outcome) log ->
               pathKey (thread_id t') (attachment_id a')
               = pathKey (thread_id t) (attachment_id a) ->
               failed outcome) ->
            paths !! pathKey (thread_id t) (attachment_id a) = None
            /\ attachmentLine paths t a = bareLine a
            /\ hasLine (conversationToMarkdown conversation paths) (bareLine a) = true).
  { intros t a Hin Hfail.
    assert (Hnone : paths !! pathKey (thread_id t) (attachment_id a) = None)
      by (apply Hindex; exact Hfail).
    split; [exact Hnone|].
    split; [now apply attachmentLine_bare|].
    apply pairs_In in Hin as [Ht Ha].
    rewrite <- (attachmentLine_bare paths t a Hnone).
    now apply transcript_attachment. }
  split; [exact Hbare|].
  split.
  { intros Hnd t a outcome Hin Hfail.
    pose proof (attempts_todo oauth cid attachmentsDir todo w2) as Htodo.
    fold log in Htodo.
    apply Hbare.
    - rewrite <- Htodo. now apply (in_map fst) in Hin.
    - intros t' a' outcome' Hin' Hkey.
      rewrite <- Htodo, List.map_map in Hnd.
      assert (E : (t', a', outcome') = (t, a, outcome))
        by (exact (NoDup_map_eq _ _ _ _ Hnd Hin' Hin Hkey)).
      now injection E as _ _ ->. }
  rewrite Hcount. now rewrite countAttachments_pairs.
Qed.

Lemma attachment_failures_are_skipped_witness :
  let w := Example.worldAt 5000 (Some (Parsed (Example.record "keep" 100000000))) in
  let link := lit "https://secure.helpscout.net/conversation/123456789/thread/1" in
  exists transcript meta,
    In (lit "out/123456789/conversation_123456789.md", Text transcript)
       (written (snd (downloadConversation (rt := Example.runtime) Example.manager
                        link (lit "out") w)))
    /\ fst (downloadConversation (rt := Example.runtime) Example.manager link (lit "out") w)
       = Ok tt
    /\ hasLine transcript (lit "- My File: v2?.pdf (1.5 KB)") = true
    /\ get (lit "attachmentCount") meta = Some (VNum (Int 1)).
Proof.
  intros w link.
  pose (w1 := snd (authenticate (rt := Example.runtime) Example.manager w)).
  pose (w2 := snd (getConversation (rt := Example.runtime) Example.manager
                     (lit "123456789") w1)).
  destruct (attachment_failures_are_skipped (rt := Example.runtime) Example.manager
              link (lit "out") w w1 w2 (lit "123456789") Example.ticket)
    as (attachmentPaths & meta & Hrun & Htodo & Hlink & _ & Hbare & _ & Hcount);
    try (vm_compute; reflexivity).
  exists (conversationToMarkdown (rt := Example.runtime) Example.ticket attachmentPaths), meta.
  rewrite Hrun.
  split; [apply in_or_app; right; now left|].
  split; [reflexivity|].
  destruct (Hbare Example.question Example.invoice) as (_ & _ & Hline).
  - vm_compute. tauto.
  - intros t' a' outcome Hin _. apply (Hlink t' a' outcome Hin).
    assert (Ha : In (t', a') [(Example.question, Example.invoice)]).
    { change [(Example.question, Example.invoice)]
        with (pairs (threadsOf Example.ticket)).
      rewrite <- Htodo. now apply (in_map fst) in Hin. }
    destruct Ha as [[= <- <-] | []]. reflexivity.
  - split; [exact Hline | exact Hcount].
Defined.

(** C5, as stated, fails: a thread lists two attachments under one
    identifier, the first of them without a download link.  The run
    completes; the download of the first attachment fails in every
    world; its key is in the path index all the same, with the file of
    the second; and the transcript that is written shows it as a link
    to that file, and not as its bare file name. *)
Lemma failed_attachment_is_linked :
  let out := downloadConversation (rt := Sample.servingOf Sample.revised) Example.manager
               (lit "123456789") (lit "out") (Sample.signedIn 5000) in
  let w2 := snd (getConversation (rt := Sample.servingOf Sample.revised) Example.manager
                   (lit "123456789") (Sample.signedIn 5000)) in
  fst out = Ok tt
  /\ (forall w,
        fst (fetchAttachment (rt := Sample.servingOf Sample.revised) Example.manager
               (lit "123456789") (lit "out/123456789/attachments")
               Sample.revision Sample.draft w)
        = Throw (NoDownloadLink (lit "draft.pdf")))
  /\ (exists attachmentPaths,
        fst (downloadAll (rt := Sample.servingOf Sample.revised) Example.manager
               (lit "123456789") (lit "out/123456789/attachments")
               (threadsOf Sample.revised) w2)
        = Ok attachmentPaths
        /\ attachmentPaths !! keyOf (Sample.revision, Sample.draft)
           = Some (lit "./attachments/1_7_final.pdf"))
  /\ exists transcript,
       In (lit "out/123456789/conversation_123456789.md", Text transcript) (written (snd out))
       /\ hasLine transcript (lit "- [draft.pdf](./attachments/1_7_final.pdf) (1.5 KB)") = true
       /\ hasLine transcript (lit "- draft.pdf (1.5 KB)") = false.
Proof.
  intros out w2. split; [vm_compute; reflexivity|]. split; [|split].
  - intros w. now rewrite fetchAttachment_no_link.
  - eexists. split; [reflexivity|]. vm_compute. reflexivity.
  - eexists. split; [vm_compute; right; left; reflexivity|].
    split; vm_compute; reflexivity.
Qed.

(** C6: [extractConversationId] returns a text of digits as it is, so
    it returns its own results unchanged; it returns the identifier of
    the example; from a reference in which [conversation/] or
    [conversations/] stands before the identifier it returns that
    identifier, the first pattern deciding before the second and the
    second before the third; and it throws when none matches. *)
Theorem extractConversationId_spec :
  (forall s, numeric s = true -> extractConversationId s = Ok s)
  /\ (forall link id,
        extractConversationId link = Ok id -> extractConversationId id = Ok id)
  /\ extractConversationId (lit "https://host/conversation/123456789/thread/1")
     = Ok (lit "123456789")
  /\ (forall pre id rest,
        noDigit pre = true -> numeric id = true -> startsWithDigit rest = false ->
        extractConversationId (pre ++ lit "conversation/" ++ id ++ rest) = Ok id)
  /\ (forall pre id rest,
        noDigit pre = true -> numeric id = true -> startsWithDigit rest = false ->
        idAfter (lit "conversation/") rest = None ->
        extractConversationId (pre ++ lit "conversations/" ++ id ++ rest) = Ok id)
  /\ (forall link,
        extractConversationId link =
        match idAfter (lit "conversation/") link with
        | Some id => Ok id
        | None =>
            match idAfter (lit "conversations/") link with
            | Some id => Ok id
            | None => if numeric link then Ok link else Throw (CouldNotExtractId link)
            end
        end)
  /\ (forall link,
        idAfter (lit "conversation/") link = None ->
        idAfter (lit "conversations/") link = None ->
        numeric link = false ->
        extractConversationId link = Throw (CouldNotExtractId link)).
Proof.
  split; [exact extract_numeric|].
  split; [intros link id H; apply extract_numeric; eapply extract_output; eauto|].
  split; [vm_compute; reflexivity|].
  split.
  { intros pre id rest Hpre Hid Hrest. rewrite extract_spec.
    rewrite idAfter_url; auto; discriminate. }
  split.
  { intros pre id rest Hpre Hid Hrest Hlater. rewrite extract_spec.
    rewrite idAfter_plural by assumption.
    rewrite idAfter_url; auto; discriminate. }
  split; [exact extract_spec|].
  intros link H1 H2 H3. now rewrite extract_spec, H1, H2, H3.
Qed.

Lemma extractConversationId_spec_witness :
  extractConversationId (lit "42") = Ok (lit "42")
  /\ extractConversationId (lit "42") = Ok (lit "42")
  /\ extractConversationId (lit "https://secure.helpscout.net/" ++ lit "conversation/"
                            ++ lit "42" ++ lit "/")
     = Ok (lit "42")
  /\ extractConversationId (lit "https://api.helpscout.net/v" ++ lit "conversations/"
                            ++ lit "42" ++ lit "?embed=threads")
     = Ok (lit "42")
  /\ extractConversationId (lit "mailbox/7") = Throw (CouldNotExtractId (lit "mailbox/7")).
Proof.
  destruct extractConversationId_spec as (Hnum & Hidem & _ & Hone & Htwo & _ & Hnone).
  split; [apply Hnum; reflexivity|].
  split; [apply (Hidem (lit "https://host/conversation/42")); vm_compute; reflexivity|].
  split; [apply Hone; reflexivity|].
  split; [apply Htwo; reflexivity|].
  apply Hnone; reflexivity.
Defined.

(** C7.  When the token endpoint answers an exchange of the
    authorization code, or a refresh, with success and a JSON value
    other than [null], the call succeeds and stores the answer at the
    time it came: the token file holds an object with the lifetime
    [expires_in] of the answer and with
    [expires_at = issued_at + expires_in * 1000], where [issued_at] is
    the clock at that time; [TokenSchema] reads the file as the record
    of the answer with that expiry; and every record that the file is
    read as satisfies the equation.  An exchange or a refresh succeeds
    in no other way.  (The numbers are those of the program as long as
    the sum stays within 2^53, where doubles are exact.) *)
Theorem expires_at_invariant {rt : Runtime} (self : OAuthManager) :
  (forall code w,
     let response := server (requests w) (exchangeRequest self code) in
     let issued := (now w + elapsed response)%Z in
     (forall data,
        ok response = true -> json response = Some data -> data <> VNull ->
        exists td w',
          exchangeCodeForToken self code w = (Ok td, w')
          /\ now w' = issued /\ holdsGrant data w')
     /\ (forall td w',
           exchangeCodeForToken self code w = (Ok td, w') ->
           now w' = issued
           /\ exists data, ok response = true /\ json response = Some data
                           /\ holdsGrant data w'))
  /\ (forall w tokens,
        loadTokens w = (Ok (Some tokens), w) ->
        let response := server (requests w) (refreshRequest self (refresh_token tokens)) in
        let issued := (now w + elapsed response)%Z in
        (forall data,
           refresh_token tokens <> [] ->
           ok response = true -> json response = Some data -> data <> VNull ->
           exists td w',
             refreshAccessToken self w = (Ok td, w')
             /\ now w' = issued /\ holdsGrant data w')
        /\ (forall td w',
              refreshAccessToken self w = (Ok td, w') ->
              now w' = issued
              /\ exists data, ok response = true /\ json response = Some data
                              /\ holdsGrant data w')).
Proof.
  split.
  - intros code w response issued. rewrite exchange_cases. fold response. cbv zeta. split.
    + intros data -> -> Hd.
      destruct (store_succeeds data (snd (fetch (exchangeRequest self code) w)) Hd)
        as (td & w' & H).
      exists td, w'. split; [exact H|].
      apply store_holds in H as [Hnow H]. split; [exact Hnow | exact H].
    + intros td w'. destruct (ok response); [|discriminate].
      destruct (json response) as [data|]; [|discriminate].
      intros H. apply store_holds in H as [Hnow H].
      split; [exact Hnow|]. eauto.
  - intros w tokens Hload. cbv zeta. rewrite refresh_cases, Hload.
    cbv beta iota zeta delta [fst].
    destruct (refresh_token tokens) as [|c t] eqn:Et.
    + split; [intros data H; congruence | intros td w' H; discriminate H].
    + cbv zeta. split.
      * intros data _ -> -> Hd.
        destruct (store_succeeds data (snd (fetch (refreshRequest self (c :: t)) w)) Hd)
          as (td & w' & H).
        exists td, w'. split; [exact H|].
        apply store_holds in H as [Hnow H]. split; [exact Hnow | exact H].
      * intros td w'. destruct (ok _); [|discriminate].
        destruct (json _) as [data|]; [|discriminate].
        intros H. apply store_holds in H as [Hnow H].
        split; [exact Hnow|]. eauto.
Qed.

Lemma expires_at_invariant_witness :
  exists td w' o,
    exchangeCodeForToken (rt := Example.runtime) Example.manager (lit "code")
      (Example.worldAt 5000 None)
    = (Ok td, w')
    /\ now w' = 5025%Z
    /\ tokenFile w' = Some (Parsed (VObj o))
    /\ get (lit "expires_at") o = Some (VNum (Int (5025 + 172800 * 1000)))
    /\ TokenSchema_parse (VObj o)
       = Some {| access_token := lit "fresh"; refresh_token := lit "again";
                 token_type := lit "bearer"; expires_in := 172800;
                 expires_at := 172805025 |}.
Proof.
  destruct (proj1 (proj1 (expires_at_invariant (rt := Example.runtime) Example.manager)
                     (lit "code") (Example.worldAt 5000 None))
              Example.grant eq_refl eq_refl ltac:(discriminate))
    as (td & w' & Hrun & Hnow & o & Hfile & Hfields & Hrecord & _).
  exists td, w', o. split; [exact Hrun|]. split; [exact Hnow|]. split; [exact Hfile|].
  simpl in Hnow. rewrite Hnow in Hfields, Hrecord. split.
  - exact (proj2 (Hfields _ 172800%Z eq_refl eq_refl eq_refl)).
  - exact (Hrecord _ eq_refl eq_refl).
Defined.

(** C8.  For every file name, and for [My File: v2?.pdf], the sanitized
    name has none of the nine unsafe characters, has no two underscores
    side by side, and neither starts nor ends with an underscore. *)
Theorem sanitizeFilename_clean (filename : str) :
  let r := sanitizeFilename filename in
  (forall c, In c r -> unsafeChar c = false)
  /\ (forall a b, r <> a ++ [underscore; underscore] ++ b)
  /\ (forall b, r <> underscore :: b)
  /\ (forall a, r <> a ++ [underscore])
  /\ sanitizeFilename (lit "My File: v2?.pdf") = lit "My_File_v2_.pdf".
Proof.
  intros r. subst r. unfold sanitizeFilename.
  set (s3 := replaceAll [[atLeast 2 (eqc underscore)]] _ _).
  fold ends us. rewrite step4_spec.
  assert (H3 : single s3 = true)
    by (apply (step3_single _ true)).
  split; [|split; [|split; [|split]]].
  - intros c Hc. pose proof (sanitize_safe filename) as Hs.
    unfold sanitizeFilename in Hs. fold s3 in Hs.
    fold ends us in Hs.
    rewrite step4_spec in Hs.
    rewrite List.Forall_forall in Hs. exact (Hs c Hc).
  - apply single_no_pair, single_stripEnd,
      single_dropWhile, H3.
  - apply start_no_head, stripEnd_start,
      dropWhile_start.
  - apply stripEnd_last.
  - vm_compute. reflexivity.
Qed.

Lemma sanitizeFilename_clean_witness :
  unsafeChar 95 = false
  /\ sanitizeFilename (lit "<a>") <> lit "_a_".
Proof.
  destruct (sanitizeFilename_clean (lit "<a>")) as (Hsafe & _ & Hstart & _).
  split.
  - apply (proj1 (sanitizeFilename_clean (lit "My File: v2?.pdf")) 95).
    vm_compute. tauto.
  - intros E. apply (Hstart (lit "a_")). exact E.
Defined.



(** C10.  [loadTokens] always returns, and leaves the world as it was.
    It returns [null] when the file is missing, when it cannot be read,
    when it does not parse, and when it parses to an object without one
    of the five fields, and
    [getValidToken] then throws the error of the missing tokens.  A
    record that it returns was read from an object that has the five
    fields, the three tokens as strings and the two times as numbers. *)
Theorem loadTokens_validated (w : World) :
  exists r, loadTokens w = (Ok r, w)
    /\ (tokenFile w = None -> r = None)
    /\ (tokenFile w = Some Unreadable -> r = None)
    /\ (tokenFile w = Some Unparsable -> r = None)
    /\ (forall o k, tokenFile w = Some (Parsed (VObj o)) ->
                    In k fields -> get k o = None -> r = None)
    /\ (forall (rt : Runtime) self,
          r = None -> getValidToken self w = (Throw NoTokensFound, w))
    /\ (forall t, r = Some t ->
          exists o, tokenFile w = Some (Parsed (VObj o))
            /\ get (lit "access_token") o = Some (VStr (access_token t))
            /\ get (lit "refresh_token") o = Some (VStr (refresh_token t))
            /\ get (lit "token_type") o = Some (VStr (token_type t))
            /\ get (lit "expires_in") o = Some (VNum (Int (expires_in t)))
            /\ get (lit "expires_at") o = Some (VNum (Int (expires_at t)))).
Proof.
  assert (Hload : exists r, loadTokens w = (Ok r, w)
                    /\ r = match tokenFile w with
                           | Some (Parsed data) => TokenSchema_parse data
                           | _ => None
                           end).
  { unfold loadTokens. destruct (tokenFile w) as [[| |data]|]; eauto. }
  destruct Hload as (r & Hl & Hr). exists r.
  split; [exact Hl|].
  split; [intros E; now rewrite E in Hr|].
  split; [intros E; now rewrite E in Hr|].
  split; [intros E; now rewrite E in Hr|].
  split; [intros o k E Hk Hg; rewrite E in Hr; rewrite Hr; eapply parse_missing; eauto|].
  split.
  - intros rt self ->. unfold getValidToken, bind. now rewrite Hl.
  - intros t ->. destruct (tokenFile w) as [[| |data]|]; try discriminate.
    symmetry in Hr. destruct (parse_fields _ _ Hr) as (o & -> & H). eauto.
Qed.

Lemma loadTokens_validated_witness :
  exists r,
    loadTokens (Example.worldAt 5000 (Some (Parsed (VObj [(lit "access_token", VStr (lit "cached"))]))))
    = (Ok r, Example.worldAt 5000 (Some (Parsed (VObj [(lit "access_token", VStr (lit "cached"))]))))
    /\ r = None
    /\ getValidToken (rt := Example.runtime) Example.manager
         (Example.worldAt 5000 (Some (Parsed (VObj [(lit "access_token", VStr (lit "cached"))]))))
       = (Throw NoTokensFound,
          Example.worldAt 5000 (Some (Parsed (VObj [(lit "access_token", VStr (lit "cached"))])))).
Proof.
  destruct (loadTokens_validated
              (Example.worldAt 5000 (Some (Parsed (VObj [(lit "access_token", VStr (lit "cached"))])))))
    as (r & Hl & _ & _ & _ & Hmiss & Hget & _).
  exists r.
  assert (Hr : r = None).
  { apply (Hmiss _ (lit "expires_at") eq_refl); [|reflexivity].
    unfold fields. simpl. tauto. }
  split; [exact Hl|]. split; [exact Hr|]. apply Hget, Hr.
Defined.

End Claims.

(** * Further properties *)

(** ** Texts, file names and the transcript *)

Section Text.
Import Js Regex Json Sys Io Api OAuth Client Markdown Commands.
Import FilenameSpec StatsSpec RunSpec TextSpec NameSpec CountSpec.
Import RegexFacts FilenameFacts StatsFacts RunFacts.
Import TextFacts TrimFacts HtmlFacts NameFacts CountFacts TagSpec TagFacts.

(** X1.  [cleanHtml] on a text without markup: when the text holds no
    less-than sign, no ampersand and no three line feeds in a row, the
    result is the text without the white space at its two ends. *)
Theorem cleanHtml_plain_text (text : str) :
  forallb (fun c => negb (eqc 60 c) && negb (eqc 38 c)) text = true ->
  hasRun (eqc 10) 3 text = false ->
  cleanHtml text = trim text.
Proof.
  intros Hall Hrun. apply cleanHtml_plain_trim; [| |exact Hrun];
    apply forallb_forall; intros c Hc;
    rewrite forallb_forall in Hall; apply Hall in Hc;
    apply andb_prop in Hc as [H1 H2]; assumption.
Qed.

Lemma cleanHtml_plain_text_witness :
  cleanHtml (lit "  Thanks, it works now. ") = lit "Thanks, it works now.".
Proof.
  exact (cleanHtml_plain_text (lit "  Thanks, it works now. ") eq_refl eq_refl).
Defined.

(** X2.  The result of [cleanHtml] never holds three line feeds in a row,
    and neither begins nor ends with white space. *)
Theorem cleanHtml_normal_form (html : str) :
  hasRun (eqc 10) 3 (cleanHtml html) = false
  /\ startsIn isSpace (cleanHtml html) = false
  /\ endsIn isSpace (cleanHtml html) = false.
Proof. apply cleanHtml_shape. Qed.

(** X3.  When the HTML holds no ampersand, the result of [cleanHtml] holds
    no tag: no less-than sign that is followed, after one code unit or
    more other than the greater-than sign, by a greater-than sign. *)
Theorem cleanHtml_strips_tags (html : str) :
  forallb (fun c => negb (eqc 38 c)) html = true ->
  hasTag (cleanHtml html) = false.
Proof. apply cleanHtml_no_tag. Qed.

Lemma cleanHtml_strips_tags_witness :
  hasTag (lit "<span class=x>Hi</span> <img src=y> there") = true
  /\ hasTag (cleanHtml (lit "<span class=x>Hi</span> <img src=y> there")) = false.
Proof.
  split; [reflexivity|].
  exact (cleanHtml_strips_tags (lit "<span class=x>Hi</span> <img src=y> there") eq_refl).
Defined.

(** X4.  [sanitizeFilename] applied to its own result changes nothing; and
    it leaves as it is any name without unsafe character, without white
    space, without two underscores side by side and without an
    underscore at either end. *)
Theorem sanitizeFilename_idempotent :
  (forall filename,
     sanitizeFilename (sanitizeFilename filename) = sanitizeFilename filename)
  /\ (forall name,
        forallb (fun c => negb (unsafeChar c) && negb (isSpace c)) name = true ->
        hasRun us 2 name = false -> startsIn us name = false -> endsIn us name = false ->
        sanitizeFilename name = name).
Proof.
  split; [exact sanitize_idempotent|].
  intros name Hall Hrun Hstart Hend.
  apply sanitize_fixed; auto;
    apply forallb_forall; intros c Hc;
    rewrite forallb_forall in Hall; apply Hall in Hc;
    apply andb_prop in Hc as [H1 H2]; assumption.
Qed.

Lemma sanitizeFilename_idempotent_witness :
  sanitizeFilename (sanitizeFilename (lit "My File: v2?.pdf"))
  = sanitizeFilename (lit "My File: v2?.pdf")
  /\ sanitizeFilename (lit "report_2024.final.pdf") = lit "report_2024.final.pdf".
Proof.
  split.
  - exact (proj1 sanitizeFilename_idempotent (lit "My File: v2?.pdf")).
  - exact (proj2 sanitizeFilename_idempotent (lit "report_2024.final.pdf")
             eq_refl eq_refl eq_refl eq_refl).
Defined.

(** X5.  [sanitizeFilename] keeps, in their order, the code units that are
    neither unsafe nor white space nor underscores; its result is never
    longer than the name; and it is empty exactly when the name holds
    no such code unit. *)
Theorem sanitizeFilename_keeps_content (filename : str) :
  List.filter kept (sanitizeFilename filename) = List.filter kept filename
  /\ (length (sanitizeFilename filename) <= length filename)%nat
  /\ (sanitizeFilename filename = [] <->
      forallb (fun c => negb (kept c)) filename = true).
Proof.
  split; [apply sanitize_content|]. split; [apply sanitize_length|].
  rewrite sanitize_empty. split.
  - intros H. apply forallb_forall. intros c Hc.
    destruct (kept c) eqn:E; [|reflexivity].
    assert (Hin : In c (List.filter kept filename)) by (apply filter_In; auto).
    rewrite H in Hin. contradiction.
  - intros H. apply filter_none. intros c Hc.
    rewrite forallb_forall in H. apply H in Hc. now destruct (kept c).
Qed.

Lemma sanitizeFilename_keeps_content_witness :
  List.filter kept (sanitizeFilename (lit "My File: v2?.pdf")) = lit "MyFilev2.pdf"
  /\ sanitizeFilename (lit "?? _ *") = [].
Proof.
  split.
  - exact (proj1 (sanitizeFilename_keeps_content (lit "My File: v2?.pdf"))).
  - exact (proj2 (proj2 (proj2 (sanitizeFilename_keeps_content (lit "?? _ *")))) eq_refl).
Defined.

(** X6.  The counts of [calculateThreadStatistics]: a note is an internal
    note whatever else it is, a thread that is not a note and has the
    type or the field of a customer is a customer message, and a thread
    that is neither and has the type [reply] or [message] is a support
    reply; every thread is in one class at most, and the attachments
    are counted as [downloadConversation] counts them. *)
Theorem thread_counts {rt : Runtime} (threads : list Thread) :
  let stats := calculateThreadStatistics threads in
  totalThreads stats = length threads
  /\ customerMessages stats = length (List.filter customerMessage threads)
  /\ supportReplies stats = length (List.filter supportReply threads)
  /\ internalNotes stats = length (List.filter isNote threads)
  /\ (customerMessages stats + supportReplies stats + internalNotes stats
      + length (List.filter uncounted threads))%nat = totalThreads stats
  /\ totalAttachments stats = countAttachments threads.
Proof.
  intros stats. subst stats. unfold calculateThreadStatistics. simpl.
  match goal with |- context [fold_left countThread threads ?c] =>
    destruct (fold_counts threads c) as (H1 & H2 & H3 & H4) end.
  simpl in H1, H2, H3, H4. rewrite H1, H2, H3, H4, countAttachments_pairs.
  repeat split; try reflexivity. apply classes_partition.
Qed.



(** X8.  [formatPerson] never gives an empty text.  With both names and an
    address it gives the names and the address in parentheses; a name
    that is missing or empty is left out, without a space in its place;
    without any name it gives the address, and [Unknown] when there is
    none either. *)
Theorem formatPerson_cases (person : Person) :
  formatPerson person <> []
  /\ (truthy (firstName person) = true -> truthy (lastName person) = true ->
      truthy (email person) = true ->
      formatPerson person
      = default [] (firstName person) ++ lit " " ++ default [] (lastName person)
        ++ lit " (" ++ default [] (email person) ++ lit ")")
  /\ (truthy (firstName person) = true -> truthy (lastName person) = false ->
      formatPerson person
      = if truthy (email person)
        then default [] (firstName person) ++ lit " (" ++ default [] (email person) ++ lit ")"
        else default [] (firstName person))
  /\ (truthy (firstName person) = false -> truthy (lastName person) = true ->
      formatPerson person
      = if truthy (email person)
        then default [] (lastName person) ++ lit " (" ++ default [] (email person) ++ lit ")"
        else default [] (lastName person))
  /\ (truthy (firstName person) = false -> truthy (lastName person) = false ->
      formatPerson person
      = if truthy (email person) then default [] (email person) else lit "Unknown").
Proof.
  destruct person as [[[|e1 e]|] [[|f1 f]|] [[|l1 l]|]];
    (split; [discriminate|]); repeat split; intros; try discriminate;
    unfold formatPerson; simpl; rewrite <- ?app_assoc; reflexivity.
Qed.

Lemma formatPerson_cases_witness :
  formatPerson {| email := Some (lit "ada@example.com"); firstName := Some (lit "Ada");
                  lastName := Some (lit "Lovelace") |}
  = lit "Ada Lovelace (ada@example.com)"
  /\ formatPerson {| email := None; firstName := Some []; lastName := Some (lit "Lovelace") |}
     = lit "Lovelace"
  /\ formatPerson {| email := Some []; firstName := None; lastName := None |} = lit "Unknown".
Proof.
  split; [|split].
  - exact (proj1 (proj2 (formatPerson_cases
             {| email := Some (lit "ada@example.com"); firstName := Some (lit "Ada");
                lastName := Some (lit "Lovelace") |}))
             eq_refl eq_refl eq_refl).
  - exact (proj1 (proj2 (proj2 (proj2 (formatPerson_cases
             {| email := None; firstName := Some []; lastName := Some (lit "Lovelace") |}))))
             eq_refl eq_refl).
  - exact (proj2 (proj2 (proj2 (proj2 (formatPerson_cases
             {| email := Some []; firstName := None; lastName := None |}))))
             eq_refl eq_refl).
Defined.

End Text.

(** ** The token store and the authentication *)

Section Tokens.
Import Js Regex Json Sys Io Api OAuth Client Markdown Commands.
Import RunSpec GrantSpec CallSpec.
Import OAuthFacts RunFacts StoreFacts ClientFacts.

(** X9.  What [saveTokens] stores, [loadTokens] reads back as the schema
    reads the value itself: writing a value out and parsing it again
    changes neither a record that the schema accepts nor the refusal of
    one that it does not.  Nothing else of the world changes. *)
Theorem saveTokens_then_loadTokens (tokens : value) (w : World) :
  let w' := snd (saveTokens tokens w) in
  fst (saveTokens tokens w) = Ok tt
  /\ loadTokens w' = (Ok (TokenSchema_parse tokens), w')
  /\ now w' = now w /\ requests w' = requests w /\ written w' = written w.
Proof.
  intros w'. subst w'. unfold saveTokens, loadTokens. simpl.
  rewrite parse_reparse. auto.
Qed.

(** X10.  An exchange that the token endpoint answers with success and a JSON
    object makes one call and stores the answer with its expiry; the
    record that [loadTokens] then reads has the four fields of the
    answer and the expiry computed from the time of the answer, and
    there is none when the answer lacks one of the four fields at its
    type: [getValidToken] then finds no tokens, although the exchange
    succeeded.  (The lifetime of the answer is such that the expiry
    stays within 2^53, where the doubles of the program are exact.) *)
Theorem exchange_then_loadTokens {rt : Runtime} (self : OAuthManager) (code : str)
    (w : World) (o : list (str * value)) :
  let call := exchangeRequest self code in
  let response := server (requests w) call in
  ok response = true -> json response = Some (VObj o) ->
  let issued := (now w + elapsed response)%Z in
  exactGrant o issued = true ->
  exists tokenData w',
    exchangeCodeForToken self code w = (Ok tokenData, w')
    /\ requests w' = requests w ++ [call] /\ now w' = issued
    /\ loadTokens w' = (Ok (grantRecord o issued), w')
    /\ (grantRecord o issued = None ->
        getValidToken self w' = (Throw NoTokensFound, w')).
Proof.
  intros call response Hok Hjson issued _.
  rewrite exchange_cases. fold call. fold response. rewrite Hok, Hjson.
  rewrite store_object. cbv zeta.
  eexists. eexists. split; [reflexivity|].
  split; [reflexivity|]. split; [reflexivity|].
  assert (Hload : forall td w0,
            loadTokens (snd (saveTokens td w0)) = (Ok (TokenSchema_parse td), snd (saveTokens td w0))).
  { intros td w0. unfold saveTokens, loadTokens. simpl. now rewrite parse_reparse. }
  rewrite Hload, parse_grant. split; [reflexivity|].
  intros Hnone. rewrite getValidToken_cases, Hload, parse_grant.
  simpl fst. fold call response issued. now rewrite Hnone.
Qed.

Lemma exchange_then_loadTokens_witness :
  let w := Example.worldAt 5000 None in
  exists tokenData w',
    exchangeCodeForToken (rt := Example.runtime) Example.manager (lit "code-1") w
    = (Ok tokenData, w')
    /\ loadTokens w'
       = (Ok (Some {| access_token := lit "fresh"; refresh_token := lit "again";
                      token_type := lit "bearer"; expires_in := 172800;
                      expires_at := 172805025 |}), w').
Proof.
  intros w.
  destruct (exchange_then_loadTokens (rt := Example.runtime) Example.manager (lit "code-1") w
              [ (lit "access_token", VStr (lit "fresh"));
                (lit "refresh_token", VStr (lit "again"));
                (lit "token_type", VStr (lit "bearer"));
                (lit "expires_in", VNum (Int 172800)) ] eq_refl eq_refl eq_refl)
    as (tokenData & w' & Hrun & _ & _ & Hload & _).
  exists tokenData, w'. split; [exact Hrun | exact Hload].
Defined.

(** X11.  An exchange or a refresh that fails leaves the token file as it
    was.  A failed exchange has made its one call; when the endpoint
    refuses, the error carries the text of its answer.  A failed
    refresh has made no call at all, or the one call of the refresh
    with the stored refresh token. *)
Theorem failed_grant_keeps_store {rt : Runtime} (self : OAuthManager) :
  (forall code w e w',
     exchangeCodeForToken self code w = (Throw e, w') ->
     let response := server (requests w) (exchangeRequest self code) in
     w' = snd (fetch (exchangeRequest self code) w)
     /\ tokenFile w' = tokenFile w
     /\ (ok response = false -> e = ExchangeFailed (text response)))
  /\ (forall w e w',
        refreshAccessToken self w = (Throw e, w') ->
        tokenFile w' = tokenFile w /\ written w' = written w
        /\ (w' = w
            \/ exists tokens,
                 loadTokens w = (Ok (Some tokens), w) /\ refresh_token tokens <> []
                 /\ requests w' = requests w ++ [refreshRequest self (refresh_token tokens)])).
Proof.
  split.
  - intros code w e w'. rewrite exchange_cases. cbv zeta.
    destruct (ok (server (requests w) (exchangeRequest self code))).
    + destruct (json _) as [data|].
      * intros H. apply store_outcome in H as [-> _].
        split; [reflexivity|]. split; [reflexivity | discriminate].
      * intros [= <- <-]. split; [reflexivity|]. split; [reflexivity | discriminate].
    + intros [= <- <-]. split; [reflexivity|]. split; reflexivity.
  - intros w e w' H. apply refresh_world in H as (Hw & Hreq & Hfile). auto.
Qed.

Lemma failed_grant_keeps_store_witness :
  let w := Sample.signedIn 5000 in
  exists w',
    exchangeCodeForToken (rt := Sample.refusing) Example.manager (lit "code-1") w
    = (Throw (ExchangeFailed (lit "denied")), w')
    /\ tokenFile w' = tokenFile w.
Proof.
  intros w. eexists. split; [reflexivity|].
  exact (proj1 (proj2 (proj1 (failed_grant_keeps_store (rt := Sample.refusing) Example.manager)
                         (lit "code-1") w _ _ eq_refl))).
Defined.

(** X12.  What [getValidToken] does to the world, whatever it returns: it
    writes no file; it makes no call, or the one call of the refresh
    with the stored refresh token, and this only for a record that is
    due; when it throws, the token file is as it was, and when it
    returns, there is a token file. *)
Theorem getValidToken_footprint {rt : Runtime} (self : OAuthManager) (w : World)
    (r : result (option value)) (w' : World) :
  getValidToken self w = (r, w') ->
  written w' = written w
  /\ (w' = w
      \/ exists tokens,
           loadTokens w = (Ok (Some tokens), w) /\ refresh_token tokens <> []
           /\ (expires_at tokens - 60000 <= now w)%Z
           /\ requests w' = requests w ++ [refreshRequest self (refresh_token tokens)])
  /\ (failed r -> tokenFile w' = tokenFile w)
  /\ (forall token, r = Ok token -> exists v, tokenFile w' = Some (Parsed v)).
Proof.
  intros H. apply getValidToken_world in H as (Hw & Hreq & Hfile).
  split; [exact Hw|]. split; [exact Hreq|]. split.
  - destruct r; [contradiction | intros _; exact Hfile].
  - intros token ->. exact Hfile.
Qed.

Lemma getValidToken_footprint_witness :
  let w := Example.worldAt 5000 (Some (Parsed (Example.record "keep" 60000))) in
  let w' := snd (getValidToken (rt := Example.runtime) Example.manager w) in
  written w' = written w
  /\ requests w' = [refreshRequest Example.manager (lit "keep")].
Proof.
  intros w w'.
  destruct (getValidToken_footprint (rt := Example.runtime) Example.manager w _ w' eq_refl)
    as (Hw & _ & _ & _).
  split; [exact Hw | reflexivity].
Defined.

(** X13.  [authenticate]: when [getValidToken] returns, nothing else is done;
    when it throws, whatever the error, the interactive authorization
    runs from the world it left, and the code is exchanged.  When
    [authenticate] returns, there is a token file. *)
Theorem authenticate_cases {rt : Runtime} (oauth : OAuthManager) (w : World) :
  (forall token w1,
     getValidToken oauth w = (Ok token, w1) -> authenticate oauth w = (Ok tt, w1))
  /\ (forall e w1,
        getValidToken oauth w = (Throw e, w1) ->
        authenticate oauth w
        = (do code <- startAuthServer ;
           await exchangeCodeForToken oauth code ;
           ret tt) w1)
  /\ (forall w', authenticate oauth w = (Ok tt, w') ->
        exists v, tokenFile w' = Some (Parsed v)).
Proof.
  rewrite authenticate_unfold.
  destruct (getValidToken oauth w) as [[token|e] w1] eqn:E.
  - split; [now intros ? ? [= <- <-]|]. split; [discriminate|].
    intros w' [= <-].
    apply getValidToken_world in E as (_ & _ & H). exact H.
  - split; [discriminate|]. split; [now intros ? ? [= <- <-]|].
    intros w'. unfold bind at 1.
    destruct (startAuthServer w1) as [[code|e1] w2]; [|discriminate].
    unfold bind at 1.
    destruct (exchangeCodeForToken oauth code w2) as [[td|e2] w3] eqn:Ex; [|discriminate].
    unfold ret. intros [= <-].
    rewrite exchange_cases in Ex. cbv zeta in Ex.
    destruct (ok _); [|discriminate]. destruct (json _) as [data|]; [|discriminate].
    apply store_outcome in Ex. subst w3. simpl. eauto.
Qed.

Lemma authenticate_cases_witness :
  authenticate (rt := Sample.serving) Example.manager (Sample.signedIn 5000)
  = (Ok tt, Sample.signedIn 5000)
  /\ exists v,
       tokenFile (snd (authenticate (rt := Sample.serving) Example.manager
                         (Example.worldAt 5000 None)))
       = Some (Parsed v).
Proof.
  split.
  - exact (proj1 (authenticate_cases (rt := Sample.serving) Example.manager
                    (Sample.signedIn 5000)) _ _ eq_refl).
  - exact (proj2 (proj2 (authenticate_cases (rt := Sample.serving) Example.manager
                           (Example.worldAt 5000 None))) _ eq_refl).
Defined.

End Tokens.

(** ** The client and the download *)

Section Calls.
Import Js Regex Json Sys Io Api OAuth Client Markdown Commands.
Import RunSpec GrantSpec CallSpec FileSpec TranscriptSpec.
Import OAuthFacts RunFacts StoreFacts ClientFacts FileFacts TranscriptFacts.

(** X14.  [request]: without stored tokens it throws and makes no call; with
    a record that is not due it makes one call, a GET of the address of
    the endpoint below the base address, with the stored access token
    as bearer, and it throws with the text of the answer when the
    answer is not a success.  Whatever happens, it writes no file and
    makes two calls at most, each to the token endpoint or to the
    address of the endpoint. *)
Theorem request_spec {rt : Runtime} (oauth : OAuthManager) (endpoint : str) (w : World) :
  (fst (loadTokens w) = Ok None -> request oauth endpoint w = (Throw NoTokensFound, w))
  /\ (forall tokens,
        loadTokens w = (Ok (Some tokens), w) -> (now w < expires_at tokens - 60000)%Z ->
        let call := apiRequest (Some (VStr (access_token tokens))) endpoint in
        let response := server (requests w) call in
        request oauth endpoint w
        = (if ok response then Ok response else Throw (ApiError (text response)),
           snd (fetch call w)))
  /\ (forall r w',
        request oauth endpoint w = (r, w') ->
        written w' = written w
        /\ exists calls,
             requests w' = requests w ++ calls /\ (length calls <= 2)%nat
             /\ List.Forall (fun call => url call = tokenUrl \/ url call = baseUrl ++ endpoint)
                  calls).
Proof.
  rewrite request_cases. split; [|split].
  - intros Hnone. rewrite getValidToken_cases, Hnone. reflexivity.
  - intros tokens Hload Hfresh call response.
    rewrite getValidToken_cases, Hload. simpl fst. cbv beta iota.
    destruct (Z.leb_spec (expires_at tokens - 60000) (now w)); [lia|]. reflexivity.
  - intros r w'.
    destruct (getValidToken oauth w) as [[token|e] w1] eqn:E;
      apply getValidToken_world in E as (Hw & Hreq & _).
    + cbv zeta. intros [= _ <-]. simpl. split; [exact Hw|].
      destruct Hreq as [-> | (tokens & _ & _ & _ & Hreq)].
      * exists [apiRequest token endpoint]. split; [reflexivity|]. split; [simpl; lia|].
        constructor; [now right | constructor].
      * exists [refreshRequest oauth (refresh_token tokens); apiRequest token endpoint].
        rewrite Hreq, <- app_assoc. split; [reflexivity|]. split; [simpl; lia|].
        constructor; [now left|]. constructor; [now right | constructor].
    + intros [= _ <-]. split; [exact Hw|].
      destruct Hreq as [-> | (tokens & _ & _ & _ & Hreq)].
      * exists []. rewrite app_nil_r. split; [reflexivity|]. split; [simpl; lia | constructor].
      * exists [refreshRequest oauth (refresh_token tokens)].
        split; [exact Hreq|]. split; [simpl; lia|]. constructor; [now left | constructor].
Qed.

Lemma request_spec_witness :
  request (rt := Example.runtime) Example.manager (lit "/conversations/7")
    (Example.worldAt 5000 None)
  = (Throw NoTokensFound, Example.worldAt 5000 None)
  /\ requests (snd (request (rt := Example.runtime) Example.manager (lit "/conversations/7")
                      (Sample.signedIn 5000)))
     = [apiRequest (Some (VStr (lit "cached"))) (lit "/conversations/7")].
Proof.
  split.
  - exact (proj1 (request_spec (rt := Example.runtime) Example.manager
                    (lit "/conversations/7") (Example.worldAt 5000 None)) eq_refl).
  - rewrite (proj1 (proj2 (request_spec (rt := Example.runtime) Example.manager
                             (lit "/conversations/7") (Sample.signedIn 5000)))
               {| access_token := lit "cached"; refresh_token := lit "keep";
                  token_type := lit "bearer"; expires_in := 172800;
                  expires_at := 100000000 |} eq_refl ltac:(simpl; lia)).
    reflexivity.
Defined.

(** X16.  [downloadAttachment]: an attachment without a download link makes
    it throw before any token is asked for, and the world is as it was;
    with a link and a token, it makes one call, a GET of the link with
    the token as bearer, gives the bytes of the answer, and throws with
    the name of the file and the status text when the answer is not a
    success.  It writes no file. *)
Theorem downloadAttachment_spec {rt : Runtime} (oauth : OAuthManager) (conversationId : str)
    (attachment : Attachment) (w : World) :
  (truthy (href attachment) = false ->
   downloadAttachment oauth conversationId attachment w
   = (Throw (NoDownloadLink (filename attachment)), w))
  /\ (forall address token w1,
        href attachment = Some address -> address <> [] ->
        getValidToken oauth w = (Ok token, w1) ->
        let call := dataRequest token address in
        let response := server (requests w1) call in
        downloadAttachment oauth conversationId attachment w
        = (if ok response then Ok (bytes response)
           else Throw (DownloadFailed (filename attachment) (statusText response)),
           snd (fetch call w1)))
  /\ (forall e w1,
        truthy (href attachment) = true -> getValidToken oauth w = (Throw e, w1) ->
        downloadAttachment oauth conversationId attachment w = (Throw e, w1))
  /\ (forall r w',
        downloadAttachment oauth conversationId attachment w = (r, w') ->
        written w' = written w).
Proof.
  split; [|split; [|split]].
  - intros H. now rewrite downloadAttachment_cases, H.
  - intros address token w1 Hhref Hne Htoken call response.
    rewrite downloadAttachment_cases, Hhref, Htoken.
    destruct address; [congruence | reflexivity].
  - intros e w1 Hhref Htoken. now rewrite downloadAttachment_cases, Hhref, Htoken.
  - intros r w'. apply downloadAttachment_written.
Qed.

Lemma downloadAttachment_spec_witness :
  downloadAttachment (rt := Sample.serving) Example.manager (lit "123456789")
    Example.invoice (Example.worldAt 5000 None)
  = (Throw (NoDownloadLink (lit "My File: v2?.pdf")), Example.worldAt 5000 None)
  /\ fst (downloadAttachment (rt := Sample.serving) Example.manager (lit "123456789")
            Sample.photo (Sample.signedIn 5000))
     = Ok [137; 80; 78; 71]
  /\ fst (downloadAttachment (rt := Sample.refusing) Example.manager (lit "123456789")
            Sample.photo (Sample.signedIn 5000))
     = Throw (DownloadFailed (lit "a photo.png") (lit "Forbidden")).
Proof.
  split; [|split].
  - exact (proj1 (downloadAttachment_spec (rt := Sample.serving) Example.manager
                    (lit "123456789") Example.invoice (Example.worldAt 5000 None)) eq_refl).
  - rewrite (proj1 (proj2 (downloadAttachment_spec (rt := Sample.serving) Example.manager
                             (lit "123456789") Sample.photo (Sample.signedIn 5000)))
               _ _ _ eq_refl ltac:(discriminate) eq_refl).
    reflexivity.
  - rewrite (proj1 (proj2 (downloadAttachment_spec (rt := Sample.refusing) Example.manager
                             (lit "123456789") Sample.photo (Sample.signedIn 5000)))
               _ _ _ eq_refl ltac:(discriminate) eq_refl).
    reflexivity.
Defined.

(** X17.  Two attachments share the key of the path index only when they have
    the same thread identifier and the same attachment identifier, and
    so it is for the names of their files: attachments that differ in
    an identifier are never written to the same file. *)
Theorem attachment_names_distinct :
  (forall threadId attachmentId threadId' attachmentId',
     pathKey threadId attachmentId = pathKey threadId' attachmentId' ->
     threadId = threadId' /\ attachmentId = attachmentId')
  /\ (forall thread attachment thread' attachment',
        uniqueName thread attachment = uniqueName thread' attachment' ->
        thread_id thread = thread_id thread'
        /\ attachment_id attachment = attachment_id attachment').
Proof.
  split; [exact pathKey_injective|].
  intros t a t' a' H. apply uniqueName_injective in H as (H1 & H2 & _). auto.
Qed.

Lemma attachment_names_distinct_witness :
  thread_id Example.question = thread_id Example.question
  /\ attachment_id Example.invoice = attachment_id Example.invoice.
Proof.
  exact (proj2 attachment_names_distinct Example.question Example.invoice
           Example.question Example.invoice eq_refl).
Defined.

(** X18.  Every entry of the path index that [downloadAll] returns belongs to
    an attachment of the threads: its key is the key of the attachment,
    its path is [./attachments/] and the name of the file, and a file
    of that name was written below the attachments directory.  The
    loops write nothing but such files, after the files that were
    there. *)
Theorem links_point_to_files {rt : Runtime} (oauth : OAuthManager)
    (conversationId attachmentsDir : str) (threads : list Thread) (w : World) :
  exists attachmentPaths w' files,
    downloadAll oauth conversationId attachmentsDir threads w = (Ok attachmentPaths, w')
    /\ written w' = written w ++ files
    /\ (forall key path,
          attachmentPaths !! key = Some path ->
          exists thread attachment data,
            In thread threads /\ In attachment (attachmentsOf thread)
            /\ key = pathKey (thread_id thread) (attachment_id attachment)
            /\ path = lit "./attachments/" ++ uniqueName thread attachment
            /\ In (pathJoin attachmentsDir (uniqueName thread attachment), Binary data) files)
    /\ (forall path data,
          In (path, data) files ->
          exists thread attachment bytes,
            In thread threads /\ In attachment (attachmentsOf thread)
            /\ path = pathJoin attachmentsDir (uniqueName thread attachment)
            /\ data = Binary bytes).
Proof.
  rewrite downloadAll_attempts.
  destruct (attempts_files oauth conversationId attachmentsDir (pairs threads) w)
    as (files & Hw & Hin & Hout).
  pose proof (attempts_todo oauth conversationId attachmentsDir (pairs threads) w) as Htodo.
  assert (Hpair : forall t a outcome,
            In (t, a, outcome) (fst (attempts oauth conversationId attachmentsDir
                                       (pairs threads) w)) ->
            In t threads /\ In a (attachmentsOf t)).
  { intros t a outcome H. apply pairs_In. rewrite <- Htodo.
    now apply (in_map fst) in H. }
  eexists. eexists. exists files. split; [reflexivity|]. split; [exact Hw|]. split.
  - intros key path Hlook.
    apply indexOf_some in Hlook as [Hlook | (t & a & Hlog)];
      [rewrite lookup_empty in Hlook; discriminate|].
    destruct (Hin t a _ Hlog) as [[= -> ->] [data Hdata]].
    destruct (Hpair t a _ Hlog) as [Ht Ha].
    exists t, a, data. auto.
  - intros path data Hfile.
    destruct (Hout path data Hfile) as (t & a & entry & bs & Hlog & -> & ->).
    destruct (Hpair t a _ Hlog) as [Ht Ha].
    exists t, a, bs. auto.
Qed.

Lemma links_point_to_files_witness :
  exists attachmentPaths w',
    downloadAll (rt := Sample.serving) Example.manager (lit "123456789")
      (lit "out/attachments") [Sample.report] (Sample.signedIn 5000)
    = (Ok attachmentPaths, w')
    /\ In (lit "out/attachments/3_8_a_photo.png", Binary [137; 80; 78; 71]) (written w').
Proof.
  destruct (links_point_to_files (rt := Sample.serving) Example.manager (lit "123456789")
              (lit "out/attachments") [Sample.report] (Sample.signedIn 5000))
    as (attachmentPaths & w' & files & Hrun & Hw & _ & _).
  exists attachmentPaths, w'. split; [exact Hrun|].
  assert (E : w' = snd (downloadAll (rt := Sample.serving) Example.manager (lit "123456789")
                          (lit "out/attachments") [Sample.report] (Sample.signedIn 5000)))
    by (now rewrite Hrun).
  rewrite E. vm_compute. now left.
Defined.

(** X19.  In a run that has the conversation and can write its two files,
    when no two attachments of the conversation have the same key:
    every attachment whose download and writing succeeded is in the
    path index under its key, with [./attachments/] and the name of its
    file; a file of that name is written below the attachments
    directory; and the transcript that is written has the entry of the
    attachment as a link to that path. *)
Theorem downloaded_attachments_are_linked {rt : Runtime} (oauth : OAuthManager)
    (link output : str) (w w1 w2 : World) (cid : str) (conversation : Conversation) :
  authenticate oauth w = (Ok tt, w1) ->
  extractConversationId link = Ok cid ->
  getConversation oauth cid w1 = (Ok conversation, w2) ->
  let outputDir := pathJoin output cid in
  let attachmentsDir := pathJoin outputDir (lit "attachments") in
  let markdownPath := pathJoin outputDir (lit "conversation_" ++ cid ++ lit ".md") in
  let metadataPath := pathJoin outputDir (lit "metadata.json") in
  writable markdownPath = true -> writable metadataPath = true ->
  let todo := pairs (threadsOf conversation) in
  let log := fst (attempts oauth cid attachmentsDir todo w2) in
  List.NoDup (List.map keyOf todo) ->
  exists attachmentPaths files meta w',
    let transcript := conversationToMarkdown conversation attachmentPaths in
    downloadConversation oauth link output w = (Ok tt, w')
    /\ written w' = written w2 ++ files ++ [(markdownPath, Text transcript); (metadataPath, meta)]
    /\ forall thread attachment entry,
         In (thread, attachment, Ok entry) log ->
         let path := lit "./attachments/" ++ uniqueName thread attachment in
         attachmentPaths !! keyOf (thread, attachment) = Some path
         /\ (exists data,
               In (pathJoin attachmentsDir (uniqueName thread attachment), Binary data) files)
         /\ hasLine transcript (linkLine attachment path) = true.
Proof.
  intros Hauth Hid Hconv outputDir attachmentsDir markdownPath metadataPath
    Hmd Hmeta todo log Hnd.
  destruct (attempts_files oauth cid attachmentsDir todo w2) as (files & Hw & Hin & _).
  fold log in Hin.
  pose proof (attempts_todo oauth cid attachmentsDir todo w2) as Htodo.
  fold log in Htodo.
  exists (indexOf log ∅), files. eexists. eexists. cbv zeta.
  split.
  { exact (downloadConversation_completes oauth link output w w1 w2 cid conversation
             Hauth Hid Hconv Hmd Hmeta). }
  split.
  { cbn [written]. unfold todo, attachmentsDir, outputDir in Hw.
    rewrite Hw, <- app_assoc. reflexivity. }
  intros t a entry Hlog.
  destruct (Hin t a entry Hlog) as [-> Hfile].
  set (path := lit "./attachments/" ++ uniqueName t a) in *.
  assert (Hlook : indexOf log ∅ !! keyOf (t, a) = Some path).
  { apply indexOf_unique; [|right; now exists t, a].
    intros t' a' entry' Hlog' Hkey.
    destruct (Hin t' a' entry' Hlog') as [-> _]. simpl in Hkey |- *.
    rewrite <- Htodo, List.map_map in Hnd.
    assert (E : (t', a', Ok (pathKey (thread_id t') (attachment_id a'),
                             lit "./attachments/" ++ uniqueName t' a'))
                = (t, a, Ok (pathKey (thread_id t) (attachment_id a), path)))
      by (exact (NoDup_map_eq _ _ _ _ Hnd Hlog' Hlog Hkey)).
    now injection E as -> -> _. }
  split; [exact Hlook|]. split; [exact Hfile|].
  assert (Hta : In (t, a) todo) by (rewrite <- Htodo; now apply (in_map fst) in Hlog).
  apply pairs_In in Hta as [Ht Ha].
  rewrite <- (attachmentLine_link (indexOf log ∅) t a path Hlook) by discriminate.
  now apply transcript_attachment.
Qed.

Lemma downloaded_attachments_are_linked_witness :
  let out := downloadConversation (rt := Sample.servingOf Sample.album) Example.manager
               (lit "123456789") (lit "out") (Sample.signedIn 5000) in
  exists transcript,
    fst out = Ok tt
    /\ In (lit "out/123456789/attachments/3_8_a_photo.png", Binary [137; 80; 78; 71])
          (written (snd out))
    /\ In (lit "out/123456789/conversation_123456789.md", Text transcript) (written (snd out))
    /\ hasLine transcript (lit "- [a photo.png](./attachments/3_8_a_photo.png) (2.0 KB)") = true.
Proof.
  intros out.
  assert (Hbin : In (lit "out/123456789/attachments/3_8_a_photo.png", Binary [137; 80; 78; 71])
                    (written (snd out))) by (vm_compute; now left).
  pose (w := Sample.signedIn 5000).
  pose (w2 := snd (getConversation (rt := Sample.servingOf Sample.album) Example.manager
                     (lit "123456789") w)).
  destruct (downloaded_attachments_are_linked (rt := Sample.servingOf Sample.album)
              Example.manager (lit "123456789") (lit "out") w w w2 (lit "123456789")
              Sample.album)
    as (attachmentPaths & files & meta & w' & Hrun & Hw & Hlinked);
    try (vm_compute; reflexivity).
  - vm_compute. repeat constructor. intros [].
  - destruct (Hlinked Sample.report Sample.photo
                (lit "3-8", lit "./attachments/3_8_a_photo.png"))
      as (_ & _ & Hline); [vm_compute; now left|].
    exists (conversationToMarkdown (rt := Sample.servingOf Sample.album) Sample.album
              attachmentPaths).
    split; [subst out; fold w; now rewrite Hrun|].
    split; [exact Hbin|]. split; [|exact Hline].
    subst out. fold w. rewrite Hrun. cbn [snd]. rewrite Hw.
    apply in_or_app. right. apply in_or_app. right. now left.
Defined.

(** X20.  How [downloadConversation] fails.  It fails as the authentication
    fails; after the authentication it fails on a reference without an
    identifier before any call for the conversation; when the
    conversation cannot be fetched it has written nothing; when the
    transcript cannot be written, neither the transcript nor the
    metadata is written; and when the metadata cannot be written, the
    transcript is the last file written. *)
Theorem downloadConversation_failures {rt : Runtime} (oauth : OAuthManager)
    (link output : str) (w : World) :
  (forall e w1,
     authenticate oauth w = (Throw e, w1) ->
     downloadConversation oauth link output w = (Throw e, w1))
  /\ (forall w1,
        authenticate oauth w = (Ok tt, w1) ->
        (forall e, extractConversationId link = Throw e ->
           downloadConversation oauth link output w = (Throw e, w1))
        /\ (forall cid e w2,
              extractConversationId link = Ok cid ->
              getConversation oauth cid w1 = (Throw e, w2) ->
              downloadConversation oauth link output w = (Throw e, w2)
              /\ written w2 = written w1)
        /\ (forall cid conversation w2,
              extractConversationId link = Ok cid ->
              getConversation oauth cid w1 = (Ok conversation, w2) ->
              let outputDir := pathJoin output cid in
              let attachmentsDir := pathJoin outputDir (lit "attachments") in
              let markdownPath :=
                pathJoin outputDir (lit "conversation_" ++ cid ++ lit ".md") in
              let metadataPath := pathJoin outputDir (lit "metadata.json") in
              let todo := pairs (threadsOf conversation) in
              let log := fst (attempts oauth cid attachmentsDir todo w2) in
              let w3 := snd (attempts oauth cid attachmentsDir todo w2) in
              (writable markdownPath = false ->
               downloadConversation oauth link output w
               = (Throw (WriteFailed markdownPath), w3))
              /\ (writable markdownPath = true -> writable metadataPath = false ->
                  downloadConversation oauth link output w
                  = (Throw (WriteFailed metadataPath),
                     {| now := now w3; tokenFile := tokenFile w3; requests := requests w3;
                        written := written w3
                          ++ [ (markdownPath,
                                Text (conversationToMarkdown conversation
                                        (indexOf log ∅))) ] |})))).
Proof.
  split.
  - intros e w1 H. unfold downloadConversation, bind at 1. now rewrite H.
  - intros w1 Hauth. split; [|split].
    + intros e He. unfold downloadConversation, bind at 1. rewrite Hauth.
      unfold bind at 1, lift. now rewrite He.
    + intros cid e w2 Hid Hconv.
      split; [|eapply getConversation_written; exact Hconv].
      unfold downloadConversation, bind at 1. rewrite Hauth.
      unfold bind at 1, lift. rewrite Hid.
      unfold bind at 1. now rewrite Hconv.
    + intros cid conversation w2 Hid Hconv outputDir attachmentsDir markdownPath
        metadataPath todo log w3.
      assert (Hrun : downloadConversation oauth link output w =
                (await writeFile markdownPath
                         (Text (conversationToMarkdown conversation (indexOf log ∅))) ;
                 do downloadedAt <- dateNow ;
                 writeFile metadataPath
                   (JsonText (metadata conversation downloadedAt
                                (countAttachments (threadsOf conversation))))) w3).
      { unfold downloadConversation, bind at 1. rewrite Hauth.
        unfold bind at 1, lift. rewrite Hid.
        unfold bind at 1. rewrite Hconv.
        unfold bind at 1. fold outputDir attachmentsDir.
        rewrite download_loops. reflexivity. }
      rewrite Hrun. split.
      * intros Hmd. unfold bind at 1, writeFile at 1. now rewrite Hmd.
      * intros Hmd Hmeta. unfold bind at 1, writeFile at 1. rewrite Hmd.
        unfold bind, dateNow, writeFile. now rewrite Hmeta.
Qed.

Lemma downloadConversation_failures_witness :
  downloadConversation (rt := Sample.refusing) Example.manager (lit "no identifier")
    (lit "out") (Sample.signedIn 5000)
  = (Throw (CouldNotExtractId (lit "no identifier")), Sample.signedIn 5000)
  /\ fst (downloadConversation (rt := Sample.refusing) Example.manager (lit "42")
            (lit "out") (Sample.signedIn 5000))
     = Throw (ApiError (lit "denied")).
Proof.
  split.
  - exact (proj1 (proj2 (downloadConversation_failures (rt := Sample.refusing)
                           Example.manager (lit "no identifier") (lit "out")
                           (Sample.signedIn 5000)) _ eq_refl) _ eq_refl).
  - rewrite (proj1 (proj1 (proj2 (proj2 (downloadConversation_failures (rt := Sample.refusing)
                      Example.manager (lit "42") (lit "out") (Sample.signedIn 5000))
                      _ eq_refl)) (lit "42") _ _ eq_refl eq_refl)).
    reflexivity.
Defined.

End Calls.

(** ** The authorization request and the setup *)

Section Setting.
Import Js Regex Json Sys Io Api OAuth Numeral Authorization Setup.
Import UrlSpec UrlFacts PortFacts OAuthFacts.

(** X21.  The address that [getAuthorizationUrl] builds has the four
    parameters [client_id], [state], [response_type] and
    [redirect_uri], in this order; and whatever the application
    identifier, the state and the redirect address hold, their encoded
    values hold only letters, digits, [*], [-], [.], [_], [%] and [+]:
    no value can end a parameter or begin another one.  A value of
    letters and digits is written as it is. *)
Theorem getAuthorizationUrl_spec (self : OAuthManager) (state : str) :
  getAuthorizationUrl self state
  = authorizeUrl ++ lit "?client_id=" ++ formEncode (appId self)
    ++ lit "&state=" ++ formEncode state
    ++ lit "&response_type=code&redirect_uri=" ++ formEncode (redirectUri self)
  /\ (codeUnits (appId self) = true -> codeUnits state = true ->
      codeUnits (redirectUri self) = true ->
      forallb urlSafe (formEncode (appId self)) = true
      /\ forallb urlSafe (formEncode state) = true
      /\ forallb urlSafe (formEncode (redirectUri self)) = true)
  /\ (forallb isAlnum state = true -> formEncode state = state).
Proof.
  split; [|split].
  - reflexivity.
  - intros H1 H2 H3. auto using formEncode_safe.
  - apply formEncode_alnum.
Qed.

Lemma getAuthorizationUrl_spec_witness :
  getAuthorizationUrl Example.manager (lit "a1 &b=2")
  = lit "https://secure.helpscout.net/authentication/authorizeClientApplication?client_id=app&state=a1+%26b%3D2&response_type=code&redirect_uri=http%3A%2F%2Flocalhost%3A3698%2Fauth"
  /\ forallb urlSafe (formEncode (lit "a1 &b=2")) = true
  /\ formEncode (lit "x7Yz") = lit "x7Yz".
Proof.
  destruct (getAuthorizationUrl_spec Example.manager (lit "a1 &b=2")) as (Hurl & Hsafe & _).
  split; [exact Hurl|]. split.
  - exact (proj1 (proj2 (Hsafe eq_refl eq_refl eq_refl))).
  - exact (proj2 (proj2 (getAuthorizationUrl_spec Example.manager (lit "x7Yz"))) eq_refl).
Defined.

(** X22.  The listener of [startAuthServer] resolves the promise with a code
    exactly for a request of the path [/auth] whose state is the
    expected one and whose code is not empty, and then replies 200.  A
    request of another path is answered 404 and leaves the promise as
    it is; on the path [/auth] a missing or different state rejects it
    with 400 whatever the code, and with the right state a missing or
    empty code rejects it with 400. *)
Theorem serve_accepts (state : str) (req : Callback) :
  (forall c,
     snd (serve state req) = Resolved c <->
     pathname req = lit "/auth" /\ returnedState req = Some state
     /\ code req = Some c /\ c <> [])
  /\ (forall c, snd (serve state req) = Resolved c -> fst (serve state req) = 200%Z)
  /\ (pathname req <> lit "/auth" -> serve state req = (404%Z, Pending))
  /\ (pathname req = lit "/auth" -> returnedState req <> Some state ->
      serve state req = (400%Z, Rejected StateMismatch))
  /\ (pathname req = lit "/auth" -> returnedState req = Some state ->
      truthy (code req) = false ->
      serve state req = (400%Z, Rejected NoCode)).
Proof.
  destruct req as [p c s]. unfold serve. cbn [pathname code returnedState].
  destruct (streq p (lit "/auth")) eqn:Ep;
    [apply bool_decide_eq_true in Ep | apply bool_decide_eq_false in Ep];
    [destruct s as [s|];
       [destruct (streq s state) eqn:Es;
          [apply bool_decide_eq_true in Es | apply bool_decide_eq_false in Es]|];
       destruct c as [[|c1 c]|] |];
    cbn [negb truthy default from_option id fst snd];
    (split;
     [intros c0; split;
        [intros H; inversion H; subst; repeat split; congruence
        |intros (H1 & H2 & H3 & H4); inversion H3; subst; congruence]|]);
    repeat split; intros; try reflexivity; try (exfalso; congruence).
Qed.

Lemma serve_accepts_witness :
  serve (lit "k3j9") {| pathname := lit "/auth"; code := Some (lit "c0de");
                        returnedState := Some (lit "k3j9") |}
  = (200%Z, Resolved (lit "c0de"))
  /\ serve (lit "k3j9") {| pathname := lit "/callback"; code := Some (lit "c0de");
                           returnedState := Some (lit "k3j9") |}
     = (404%Z, Pending)
  /\ serve (lit "k3j9") {| pathname := lit "/auth"; code := Some (lit "c0de");
                           returnedState := None |}
     = (400%Z, Rejected StateMismatch).
Proof.
  split; [|split].
  - destruct (serve_accepts (lit "k3j9")
                {| pathname := lit "/auth"; code := Some (lit "c0de");
                   returnedState := Some (lit "k3j9") |}) as (Hiff & Hok & _).
    specialize (Hiff (lit "c0de")). destruct Hiff as [_ Hiff].
    assert (Hcode : lit "c0de" <> []) by discriminate.
    assert (Hs := Hiff (conj eq_refl (conj eq_refl (conj eq_refl Hcode)))).
    assert (Hf := Hok _ Hs).
    destruct (serve _ _) as [status settled]. simpl in Hs, Hf. now subst.
  - apply (proj1 (proj2 (proj2 (serve_accepts (lit "k3j9")
             {| pathname := lit "/callback"; code := Some (lit "c0de");
                returnedState := Some (lit "k3j9") |})))).
    apply (bool_decide_eq_false_1 (lit "/callback" = lit "/auth")). vm_compute. reflexivity.
  - exact (proj1 (proj2 (proj2 (proj2 (serve_accepts (lit "k3j9")
             {| pathname := lit "/auth"; code := Some (lit "c0de");
                returnedState := None |})))) eq_refl ltac:(discriminate)).
Defined.

(** X23.  The constructor throws exactly when the application identifier or
    the application secret is missing or empty.  Otherwise the redirect
    address is [REDIRECT_URI] when it is set and not empty, and else
    [http://localhost:PORT/auth] with the port in decimal digits, or
    [NaN] in its place; the port is 3698 when [PORT] is missing or
    empty, the number that [PORT] denotes when it is a text of digits,
    and [NaN] when [PORT] does not begin with a number.  (The port is
    the number of the program as long as it is below 2^53, where a
    double is exact and is written in decimal digits.) *)
Theorem construct_spec (env : Env) :
  (construct env = None <->
   truthy (APP_ID env) = false \/ truthy (APP_SECRET env) = false)
  /\ (forall c,
        construct env = Some c ->
        appId (manager c) = default [] (APP_ID env)
        /\ appSecret (manager c) = default [] (APP_SECRET env)
        /\ (truthy (REDIRECT_URI env) = true ->
            redirectUri (manager c) = default [] (REDIRECT_URI env))
        /\ (truthy (REDIRECT_URI env) = false ->
            (forall n, port c = Int n -> (Z.abs n < 2 ^ 53)%Z ->
               redirectUri (manager c) = lit "http://localhost:" ++ ofZ n ++ lit "/auth")
            /\ (port c = NaN ->
                redirectUri (manager c) = lit "http://localhost:NaN/auth"))
        /\ (truthy (PORT env) = false -> port c = Int 3698)
        /\ (forall digits, PORT env = Some digits -> numeric digits = true ->
              (digitsValue digits < 2 ^ 53)%Z ->
              port c = Int (digitsValue digits))
        /\ (forall text, PORT env = Some text -> text <> [] ->
              parseInt10 text = NaN -> port c = NaN)).
Proof.
  unfold construct, orDefault. split.
  - destruct (APP_ID env) as [[|a1 a]|], (APP_SECRET env) as [[|s1 s]|]; simpl;
      split; try discriminate; auto; intros [H | H]; discriminate.
  - intros c.
    destruct (APP_ID env) as [[|a1 a]|], (APP_SECRET env) as [[|s1 s]|]; simpl;
      try discriminate.
    intros [= <-]. simpl.
    split; [reflexivity|]. split; [reflexivity|].
    split; [now intros ->|]. split.
    { intros ->. split; [intros n -> _ | intros ->]; reflexivity. }
    split; [now intros ->|]. split.
    + intros digits -> Hd _. destruct digits as [|d ds]; [discriminate|].
      simpl truthy. cbv iota. now apply parseInt10_numeric.
    + intros text -> Hne Hnan. destruct text as [|d ds]; [congruence|].
      simpl truthy. cbv iota. exact Hnan.
Qed.

Lemma construct_spec_witness :
  let env := {| APP_ID := Some (lit "app"); APP_SECRET := Some (lit "secret");
                PORT := Some (lit "08080"); REDIRECT_URI := Some [] |} in
  exists c, construct env = Some c
    /\ redirectUri (manager c) = lit "http://localhost:8080/auth".
Proof.
  intros env.
  destruct (construct env) as [c|] eqn:E; [|discriminate E].
  exists c. split; [reflexivity|].
  destruct (proj2 (construct_spec env) c E) as (_ & _ & _ & Hredirect & _ & Hport & _).
  apply (proj1 (Hredirect eq_refl) 8080%Z).
  - exact (Hport (lit "08080") eq_refl eq_refl eq_refl).
  - reflexivity.
Defined.

(** X24.  The two checks of the port in [setup].  A port that the rule of
    [EnvSchema] accepts is a text of digits that denotes a number from
    1024 to 65535, and the prompt accepts it too.  The prompt accepts
    more: a port that it accepts passes the rule exactly when it is a
    text of digits. *)
Theorem port_rules (value : str) :
  (forall n, EnvSchema_PORT value = Some n ->
     numeric value = true /\ n = digitsValue value /\ (1024 <= n <= 65535)%Z
     /\ validatePort value = Accepted)
  /\ (validatePort value = Accepted ->
      (numeric value = true -> EnvSchema_PORT value = Some (digitsValue value))
      /\ (numeric value = false -> EnvSchema_PORT value = None)).
Proof.
  assert (Hschema : forall n, EnvSchema_PORT value = Some n ->
            numeric value = true /\ n = digitsValue value /\ (1024 <= n <= 65535)%Z).
  { intros n. unfold EnvSchema_PORT. rewrite exec_digits.
    destruct (numeric value); [|discriminate]. cbv zeta.
    destruct (Z.leb_spec 1024 (digitsValue value)); [|discriminate].
    destruct (Z.leb_spec (digitsValue value) 65535); [|discriminate].
    intros [= <-]. repeat split; assumption. }
  split.
  - intros n H. destruct (Hschema n H) as (Hnum & -> & Hlo & Hhi).
    repeat split; try assumption.
    unfold validatePort. rewrite parseInt10_numeric by exact Hnum.
    destruct (Z.ltb_spec (digitsValue value) 1024); [lia|].
    destruct (Z.ltb_spec 65535 (digitsValue value)); [lia | reflexivity].
  - intros Hv. split.
    + intros Hnum. unfold validatePort in Hv.
      rewrite parseInt10_numeric in Hv by exact Hnum.
      unfold EnvSchema_PORT. rewrite exec_digits, Hnum. cbv zeta.
      destruct (Z.ltb_spec (digitsValue value) 1024); [discriminate|].
      destruct (Z.ltb_spec 65535 (digitsValue value)); [discriminate|].
      destruct (Z.leb_spec 1024 (digitsValue value)); [|lia].
      destruct (Z.leb_spec (digitsValue value) 65535); [|lia]. reflexivity.
    + intros Hnum. unfold EnvSchema_PORT. now rewrite exec_digits, Hnum.
Qed.

Lemma port_rules_witness :
  validatePort (lit "3698") = Accepted
  /\ validatePort (lit " 3698px") = Accepted
  /\ EnvSchema_PORT (lit " 3698px") = None.
Proof.
  split; [|split].
  - exact (proj2 (proj2 (proj2 (proj1 (port_rules (lit "3698")) 3698%Z eq_refl)))).
  - reflexivity.
  - exact (proj2 (proj2 (port_rules (lit " 3698px")) eq_refl) eq_refl).
Defined.

End Setting.
